(** * go-practice-two: a task service with API-key auth and a rate limiter

    A shallow embedding of the Go packages [store], [middleware], [router],
    [handlers] and of the wiring in [cmd/api/main.go], followed by the
    properties established about them.

    Conventions.
    - Go's [int] is the 64-bit two's complement integer; it is a [Z] and every
      arithmetic operation of the source is followed by [GoInt.wrap].
    - Go strings are byte strings: [string] (a list of 8-bit [ascii]).
    - [*models.Task] is an address in a heap of task objects; the heap is
      threaded through every function that allocates, reads or writes one.
    - The mutexes of the source serialise the critical sections; the embedding
      is the sequential semantics of one call at a time. *)

From Stdlib Require Import ZArith Lia Ascii String.
From stdpp Require Import base tactics option list gmap fin_maps strings pretty sorting.

#[local] Open Scope Z_scope.

(** ** Go's [int] *)
Module GoInt.

Definition int_min : Z := - 2 ^ 63.
Definition int_max : Z := 2 ^ 63 - 1.

(** Two's complement wrap-around of a mathematical integer. *)
Definition wrap (z : Z) : Z := (z - int_min) mod 2 ^ 64 + int_min.

(** [x++] and [x--]. *)
Definition incr (z : Z) : Z := wrap (z + 1).
Definition decr (z : Z) : Z := wrap (z - 1).

Definition in_range (z : Z) : Prop := int_min ≤ z ≤ int_max.

End GoInt.

(** ** Package [models]

    The package is imported by every source file but its declarations are
    not among them; the records below follow the field accesses of the source
    ([ID], [Title], [Done], [Error], [Updated]). *)
Module models.

(** Modelled from the spec: the declaration of [models.Task], a record
    [{id, title, done}]. *)
Record Task := mkTask { ID : Z; Title : string; Done : bool }.

#[global] Instance Task_eq_dec : EqDecision Task.
Proof. solve_decision. Defined.

#[global] Instance Task_inhabited : Inhabited Task :=
  populate (mkTask 0 "" false).

(** Modelled from the spec: [models.CreateTaskRequest], the JSON body
    [{title: string}] of a POST. *)
Record CreateTaskRequest := mkCreateTaskRequest { req_Title : string }.

(** Modelled from the spec: [models.UpdateTaskRequest], the JSON body
    [{done: bool}] of a PATCH. *)
Record UpdateTaskRequest := mkUpdateTaskRequest { req_Done : bool }.

End models.
Import models.

(** ** Package [store] *)
Module store.

Inductive error := ErrTaskNotFound | ErrInvalidID.

(** A [*models.Task]: the address of a task object. *)
Definition ptr := nat.

(** [TaskStore] with the task objects its pointers designate.  [heap] is the
    part of the Go heap that holds [models.Task] objects; an allocation
    appends, so the fresh address is the current length. *)
Record TaskStore := mkTaskStore {
  heap : list Task;
  tasks : gmap Z ptr;
  nextID : Z
}.

(** [&models.Task{...}] and [&taskCopy]: allocate a task object. *)
Definition new (t : Task) (s : TaskStore) : ptr * TaskStore :=
  (length (heap s), mkTaskStore (heap s ++ [t]) (tasks s) (nextID s)).

(** [*p]: read through a pointer.  Every pointer the program holds designates
    an allocated object, see [ptrs_valid]. *)
Definition load (p : ptr) (s : TaskStore) : Task := heap s !!! p.

(** [*p = t]: write through a pointer. *)
Definition poke (p : ptr) (t : Task) (s : TaskStore) : TaskStore :=
  mkTaskStore (<[p := t]> (heap s)) (tasks s) (nextID s).

Definition NewTaskStore : TaskStore := mkTaskStore [] ∅ 1.

Definition Create (title : string) (s : TaskStore) : ptr * TaskStore :=
  let task := length (heap s) in
  (task,
   mkTaskStore (heap s ++ [mkTask (nextID s) title false])
               (<[nextID s := task]> (tasks s))
               (GoInt.incr (nextID s))).

Definition GetByID (id : Z) (s : TaskStore) : (ptr + error) * TaskStore :=
  match tasks s !! id with
  | None => (inr ErrTaskNotFound, s)
  | Some task =>
      let '(taskCopy, s') := new (load task s) s in
      (inl taskCopy, s')
  end.

(** One iteration of the [range s.tasks] loops: append a copy of [task]. *)
Definition append_copy (acc : list ptr * TaskStore) (task : ptr)
  : list ptr * TaskStore :=
  let '(tasks, s) := acc in
  let '(taskCopy, s') := new (load task s) s in
  (tasks ++ [taskCopy], s').

(** The order in which a Go [range] visits a map is unspecified; the
    embedding visits in the order of [map_to_list]. *)
Definition GetAll (s : TaskStore) : list ptr * TaskStore :=
  foldl append_copy ([], s) (snd <$> map_to_list (tasks s)).

Definition GetByStatus (done : bool) (s : TaskStore) : list ptr * TaskStore :=
  foldl (λ acc task,
           if bool_decide (Done (load task acc.2) = done)
           then append_copy acc task else acc)
        ([], s) (snd <$> map_to_list (tasks s)).

Definition Update (id : Z) (done : bool) (s : TaskStore)
  : option error * TaskStore :=
  match tasks s !! id with
  | None => (Some ErrTaskNotFound, s)
  | Some task =>
      let t := load task s in
      (None, poke task (mkTask (ID t) (Title t) done) s)
  end.

Definition Delete (id : Z) (s : TaskStore) : option error * TaskStore :=
  match tasks s !! id with
  | None => (Some ErrTaskNotFound, s)
  | Some _ => (None, mkTaskStore (heap s) (delete id (tasks s)) (nextID s))
  end.

(** *** Callers of the store *)

(** The records the store holds, by id: what its pointers designate. *)
Definition contents (s : TaskStore) : gmap Z Task :=
  (λ p, load p s) <$> tasks s.

Inductive Op :=
| OpCreate (title : string)
| OpGetByID (id : Z)
| OpGetAll
| OpGetByStatus (done : bool)
| OpUpdate (id : Z) (done : bool)
| OpDelete (id : Z).

Inductive Ret :=
| RetTask (task : ptr)
| RetTasks (tasks : list ptr)
| RetErr (err : error)
| RetNil.

Definition call (o : Op) (s : TaskStore) : Ret * TaskStore :=
  match o with
  | OpCreate title => let '(p, s') := Create title s in (RetTask p, s')
  | OpGetByID id =>
      match GetByID id s with
      | (inl p, s') => (RetTask p, s')
      | (inr e, s') => (RetErr e, s')
      end
  | OpGetAll => let '(ps, s') := GetAll s in (RetTasks ps, s')
  | OpGetByStatus done => let '(ps, s') := GetByStatus done s in (RetTasks ps, s')
  | OpUpdate id done =>
      match Update id done s with
      | (None, s') => (RetNil, s')
      | (Some e, s') => (RetErr e, s')
      end
  | OpDelete id =>
      match Delete id s with
      | (None, s') => (RetNil, s')
      | (Some e, s') => (RetErr e, s')
      end
  end.

(** A caller running a sequence of operations. *)
Definition run (ops : list Op) (s : TaskStore) : TaskStore :=
  foldl (λ s o, (call o s).2) s ops.

(** The ids a caller reads off the tasks returned by the [Create] calls of a
    sequence of operations, in call order. *)
Fixpoint created_ids (ops : list Op) (s : TaskStore) : list Z :=
  match ops with
  | [] => []
  | OpCreate title :: ops' =>
      let '(p, s') := Create title s in
      ID (load p s') :: created_ids ops' s'
  | o :: ops' => created_ids ops' (call o s).2
  end.

Definition is_create (o : Op) : bool :=
  match o with OpCreate _ => true | _ => false end.

(** The number of [Create] calls in a sequence of operations. *)
Definition creates (ops : list Op) : nat :=
  length (filter (λ o, is_create o) ops).

(** Does the operation write the entry of [id]? *)
Definition writes (id : Z) (o : Op) : bool :=
  match o with
  | OpUpdate i _ | OpDelete i => bool_decide (i = id)
  | _ => false
  end.

(** Memory safety of the pointers in the map, and what [Create] maintains:
    one object per id, and every id in use below the counter. *)
Record store_inv (s : TaskStore) : Prop := mkStoreInv {
  ptrs_valid : ∀ id p, tasks s !! id = Some p → (p < length (heap s))%nat;
  ptrs_distinct : ∀ i j p, tasks s !! i = Some p → tasks s !! j = Some p → i = j;
  ids_below : ∀ id p, tasks s !! id = Some p → id < nextID s;
  ids_from_1 : 1 ≤ nextID s
}.

(** A pointer a caller holds that the store does not: it designates an
    object, and no entry of the map is that pointer. *)
Definition private (p : ptr) (s : TaskStore) : Prop :=
  (p < length (heap s))%nat ∧ ∀ id q, tasks s !! id = Some q → q ≠ p.

End store.

(** ** Package [time] of the Go standard library, as far as the source uses it

    A [Time] is the reading of the process's monotonic clock in nanoseconds
    and a [Duration] is a signed 64-bit count of nanoseconds.  The clock is an
    oracle: [ticks] lists how far it advances before each future reading, so
    readings never decrease; when the list is used up time stands still. *)
Module time.

Definition Time := Z.
Definition Duration := Z.

Definition Second : Duration := 1000000000.
Definition Minute : Duration := 60 * Second.

Definition minDuration : Duration := - 2 ^ 63.
Definition maxDuration : Duration := 2 ^ 63 - 1.

(** [t.Sub(u)]: the difference, saturated to the range of [Duration]. *)
Definition Sub (t u : Time) : Duration :=
  let d := t - u in
  if d <? minDuration then minDuration
  else if maxDuration <? d then maxDuration
  else d.

Record Clock := mkClock { reading : Time; ticks : list N }.

(** [time.Now()] *)
Definition Now (c : Clock) : Time * Clock :=
  match ticks c with
  | [] => (reading c, c)
  | d :: ds =>
      let t := reading c + Z.of_N d in
      (t, mkClock t ds)
  end.

(** The reading that the [(n+1)]-th next call of [Now] returns. *)
Fixpoint peek (n : nat) (c : Clock) : Time :=
  match n with
  | O => (Now c).1
  | S n' => peek n' (Now c).2
  end.

End time.

(** ** Package [net/http] of the Go standard library, as far as the source
    uses it *)
Module http.

Definition StatusOK : Z := 200.
Definition StatusCreated : Z := 201.
Definition StatusBadRequest : Z := 400.
Definition StatusUnauthorized : Z := 401.
Definition StatusNotFound : Z := 404.
Definition StatusTooManyRequests : Z := 429.

Definition MethodGet : string := "GET".
Definition MethodPost : string := "POST".
Definition MethodPatch : string := "PATCH".
Definition MethodDelete : string := "DELETE".

(** What a handler reads of a [*http.Request].  Header names are taken up to
    the canonical form [net/http] gives them and written as in the source;
    [URL_Query] is the decoded query in the order of the URL; [ctx_requestID]
    is the value of the request context at [middleware.RequestIDKey]. *)
Record Request := mkRequest {
  Method : string;
  URL_Path : string;
  URL_Query : list (string * string);
  Header : gmap string string;
  RemoteAddr : string;
  Body : string;
  ctx_requestID : option string
}.

(** [r.Header.Get(key)] *)
Definition Header_Get (key : string) (r : Request) : string :=
  default "" (Header r !! key).

(** [url.Values.Get(key)]: the first value of the key, or the empty
    string. *)
Fixpoint Values_Get (key : string) (q : list (string * string)) : string :=
  match q with
  | [] => ""
  | (k, v) :: q' => if bool_decide (k = key) then v else Values_Get key q'
  end.

(** [r.URL.Query().Get(key)] *)
Definition Query_Get (key : string) (r : Request) : string :=
  Values_Get key (URL_Query r).

(** [r.WithContext(context.WithValue(r.Context(), RequestIDKey, v))] *)
Definition WithRequestID (v : string) (r : Request) : Request :=
  mkRequest (Method r) (URL_Path r) (URL_Query r) (Header r) (RemoteAddr r)
            (Body r) (Some v).

(** The chunks written to a response body.  [json.NewEncoder(w).Encode(v)]
    writes the JSON text of [v]; the chunk is kept as the value encoded. *)
Inductive Chunk :=
| JSONError (Error : string)
| JSONSuccess (Updated : bool)
| JSONTask (t : Task)
| JSONTasks (ts : list Task)
| JSONNull
| Text (s : string).

(** The interface [http.ResponseWriter]: [w.Header().Set(k, v)],
    [w.WriteHeader(code)] and [w.Write(chunk)]. *)
Class ResponseWriter (W : Type) := {
  Header_Set : string → string → W → W;
  WriteHeader : Z → W → W;
  Write : Chunk → W → W
}.

(** The server's own response writer.  The header map can be changed at any
    time, but what goes on the wire is the map as it is at the first
    [WriteHeader]; later calls of [WriteHeader] are ignored, and a [Write]
    before any [WriteHeader] sends status 200 first. *)
Record response := mkResponse {
  handlerHeader : gmap string string;
  wroteHeader : bool;
  status : Z;
  sentHeader : gmap string string;
  body : list Chunk
}.

Definition response_WriteHeader (code : Z) (w : response) : response :=
  if wroteHeader w then w
  else mkResponse (handlerHeader w) true code (handlerHeader w) (body w).

Definition response_Write (c : Chunk) (w : response) : response :=
  let w := response_WriteHeader StatusOK w in
  mkResponse (handlerHeader w) (wroteHeader w) (status w) (sentHeader w)
             (body w ++ [c]).

#[global] Instance response_ResponseWriter : ResponseWriter response := {
  Header_Set k v w :=
    mkResponse (<[k := v]> (handlerHeader w)) (wroteHeader w) (status w)
               (sentHeader w) (body w);
  WriteHeader := response_WriteHeader;
  Write := response_Write
}.

(** The writer the server hands to the handler of a new request, and what
    the server does when the handler returns without having written. *)
Definition new_response : response := mkResponse ∅ false 0 ∅ [].
Definition finishRequest (w : response) : response :=
  response_WriteHeader StatusOK w.

End http.
Import http.

(** ** The state of the process and the monad of its code

    [World] gathers what the code reads and writes: the clock, the task store
    and the rate limiter that [main] creates, the package variable
    [middleware.requestIDCounter], and the lines given to [log.Printf]. *)
Module process.

(** [middleware.visitor] *)
Record visitor := mkVisitor {
  tokens : Z;
  lastSeen : time.Time;
  lastRefill : time.Time
}.

(** [middleware.RateLimiter].  The map holds [*visitor]; each pointer is
    reachable from one key only, so the object is kept in the map itself and
    a write through the pointer is an update of the entry. *)
Record RateLimiter := mkRateLimiter {
  visitors : gmap string visitor;
  rate : Z;
  cleanup : time.Duration
}.

(** One line of [middleware.Logger]. *)
Record LogLine := mkLogLine {
  log_time : time.Time;
  log_Method : string;
  log_Path : string;
  log_statusCode : Z;
  log_duration : time.Duration;
  log_requestID : option string
}.

Record World := mkWorld {
  clock : time.Clock;
  taskStore : store.TaskStore;
  rateLimiter : RateLimiter;
  requestIDCounter : Z;
  logged : list LogLine
}.

Definition M (A : Type) : Type := World → A * World.

Definition ret {A} (a : A) : M A := λ w, (a, w).

Definition bind {A B} (m : M A) (k : A → M B) : M B :=
  λ w, let '(a, w') := m w in k a w'.

Definition set_clock (c : time.Clock) (w : World) : World :=
  mkWorld c (taskStore w) (rateLimiter w) (requestIDCounter w) (logged w).
Definition set_taskStore (s : store.TaskStore) (w : World) : World :=
  mkWorld (clock w) s (rateLimiter w) (requestIDCounter w) (logged w).
Definition set_rateLimiter (rl : RateLimiter) (w : World) : World :=
  mkWorld (clock w) (taskStore w) rl (requestIDCounter w) (logged w).
Definition set_requestIDCounter (n : Z) (w : World) : World :=
  mkWorld (clock w) (taskStore w) (rateLimiter w) n (logged w).

(** [time.Now()] *)
Definition time_Now : M time.Time :=
  λ w, let '(t, c) := time.Now (clock w) in (t, set_clock c w).

(** [time.Since(t)] *)
Definition time_Since (t : time.Time) : M time.Duration :=
  bind time_Now (λ now, ret (time.Sub now t)).

(** A method of the task store, called on the store of the process. *)
Definition on_store {A} (f : store.TaskStore → A * store.TaskStore) : M A :=
  λ w, let '(a, s) := f (taskStore w) in (a, set_taskStore s w).

(** Reading a task through a pointer. *)
Definition load_task (p : store.ptr) : M Task :=
  λ w, (store.load p (taskStore w), w).

Definition get_rateLimiter : M RateLimiter := λ w, (rateLimiter w, w).

(** Store a visitor object under [ip] in the limiter's map. *)
Definition put_visitor (ip : string) (v : visitor) : M unit :=
  λ w, let rl := rateLimiter w in
       (tt, set_rateLimiter
              (mkRateLimiter (<[ip := v]> (visitors rl)) (rate rl) (cleanup rl)) w).

Definition delete_visitor (ip : string) : M unit :=
  λ w, let rl := rateLimiter w in
       (tt, set_rateLimiter
              (mkRateLimiter (delete ip (visitors rl)) (rate rl) (cleanup rl)) w).

(** A [for ... range] loop over the entries [l] with the given body. *)
Fixpoint for_range {A} (l : list A) (body : A → M unit) : M unit :=
  match l with
  | [] => ret tt
  | a :: l' => bind (body a) (λ _, for_range l' body)
  end.

(** [requestIDCounter++], and the new value. *)
Definition incr_requestIDCounter : M Z :=
  λ w, let n := GoInt.incr (requestIDCounter w) in
       (n, set_requestIDCounter n w).

(** [log.Printf] *)
Definition log_Printf (l : LogLine) : M unit :=
  λ w, (tt, mkWorld (clock w) (taskStore w) (rateLimiter w)
                    (requestIDCounter w) (logged w ++ [l])).

End process.
Import process.

Declare Scope go_scope.
Delimit Scope go_scope with go.
Notation "'let*' x ':=' m 'in' k" := (bind m (λ x, k))
  (at level 10, x name, m at level 100, k at level 200) : go_scope.
Notation "m ';;' k" := (bind m (λ _, k))
  (at level 100, k at level 200, right associativity) : go_scope.
#[local] Open Scope go_scope.

(** A [http.Handler]: whatever writer it is given, it writes to it through
    the [ResponseWriter] interface only. *)
Definition Handler : Type :=
  ∀ W : Type, ResponseWriter W → W → Request → M W.

(** ** Package [middleware] *)
Module middleware.

(** [fmt.Sprintf("%d", n)] *)
Definition Sprintf_d (n : Z) : string := pretty n.

Definition APIKeyAuth (validKeys : gmap string bool) (next : Handler) : Handler :=
  λ W RW w r,
    let apiKey := Header_Get "X-API-KEY" r in
    if bool_decide (apiKey = "") || negb (default false (validKeys !! apiKey))
    then
      let w := Header_Set "Content-Type" "application/json" w in
      let w := WriteHeader StatusUnauthorized w in
      let w := Write (JSONError "unauthorized") w in
      ret w
    else next W RW w r.

(** [responseWriter]: the embedded writer and the status code captured. *)
Record responseWriter (W : Type) := mkResponseWriter {
  ResponseWriter_ : W;
  statusCode : Z
}.
Arguments mkResponseWriter {W}.
Arguments ResponseWriter_ {W}.
Arguments statusCode {W}.

(** [Header] and [Write] are promoted from the embedded writer;
    [WriteHeader] is the method of [*responseWriter]. *)
#[global] Instance responseWriter_ResponseWriter `{ResponseWriter W}
  : ResponseWriter (responseWriter W) := {
  Header_Set k v rw :=
    mkResponseWriter (Header_Set k v (ResponseWriter_ rw)) (statusCode rw);
  WriteHeader code rw :=
    mkResponseWriter (WriteHeader code (ResponseWriter_ rw)) code;
  Write c rw :=
    mkResponseWriter (Write c (ResponseWriter_ rw)) (statusCode rw)
}.

Definition Logger (next : Handler) : Handler :=
  λ W RW w r,
    let* start := time_Now in
    let wrapped := mkResponseWriter w StatusOK in
    let* wrapped := next (responseWriter W) _ wrapped r in
    let* duration := time_Since start in
    let requestID := ctx_requestID r in
    let* now := time_Now in
    log_Printf (mkLogLine now (Method r) (URL_Path r) (statusCode wrapped)
                          duration requestID);;
    ret (ResponseWriter_ wrapped).

Definition RequestID (next : Handler) : Handler :=
  λ W RW w r,
    let* n := incr_requestIDCounter in
    let reqID := "req-" +:+ Sprintf_d n in
    let w := Header_Set "X-Request-ID" reqID w in
    next W RW w (WithRequestID reqID r).

Definition NewRateLimiter (requestsPerMinute : Z) : RateLimiter :=
  mkRateLimiter ∅ requestsPerMinute (5 * time.Minute).

(** The body of the loop over the visitors in [cleanupVisitors]. *)
Definition cleanup_visitor (ip : string) (v : visitor) : M unit :=
  let* rl := get_rateLimiter in
  let* idle := time_Since (lastSeen v) in
  if cleanup rl <? idle then delete_visitor ip else ret tt.

(** One tick of the ticker in [cleanupVisitors]: the body of the
    [for range ticker.C] loop.  The only entry the loop deletes is the one
    it is visiting, so it visits the entries the map has when it starts. *)
Definition cleanupVisitors_tick : M unit :=
  let* rl := get_rateLimiter in
  for_range (map_to_list (visitors rl)) (λ '(ip, v), cleanup_visitor ip v).

Definition getVisitor (ip : string) : M visitor :=
  let* rl := get_rateLimiter in
  match visitors rl !! ip with
  | Some v => ret v
  | None =>
      let* seen := time_Now in
      let* refill := time_Now in
      let v := mkVisitor (rate rl) seen refill in
      put_visitor ip v;;
      ret v
  end.

Definition allow (ip : string) : M bool :=
  let* v := getVisitor ip in
  let* rl := get_rateLimiter in
  let* now := time_Now in
  let v := if time.Minute <=? time.Sub now (lastRefill v)
           then mkVisitor (rate rl) (lastSeen v) now
           else v in
  let v := mkVisitor (tokens v) now (lastRefill v) in
  if 0 <? tokens v
  then put_visitor ip (mkVisitor (GoInt.decr (tokens v)) (lastSeen v) (lastRefill v));;
       ret true
  else put_visitor ip v;;
       ret false.

Definition Limit (next : Handler) : Handler :=
  λ W RW w r,
    let ip := RemoteAddr r in
    let* ok := allow ip in
    if negb ok
    then
      let w := Header_Set "Content-Type" "application/json" w in
      let w := WriteHeader StatusTooManyRequests w in
      let w := Write (JSONError "rate limit exceeded") w in
      ret w
    else next W RW w r.

(** [n] calls of [allow] for the same client, one after the other. *)
Fixpoint allow_n (n : nat) (ip : string) : M (list bool) :=
  match n with
  | O => ret []
  | S n' =>
      let* ok := allow ip in
      let* oks := allow_n n' ip in
      ret (ok :: oks)
  end.

(** What happens to a rate limiter: a request of a client is checked, or
    the ticker of the cleanup goroutine fires. *)
Inductive LimiterEvent :=
| EvAllow (ip : string)
| EvTick.

Definition limiter_step (e : LimiterEvent) (w : World) : World :=
  match e with
  | EvAllow ip => (allow ip w).2
  | EvTick => (cleanupVisitors_tick w).2
  end.

Definition limiter_run (es : list LimiterEvent) (w : World) : World :=
  foldl (λ w e, limiter_step e w) w es.

(** The loop of [Chain]: [n] is [i + 1], so that [i >= 0] is [n > 0]. *)
Fixpoint Chain_loop (middlewares : list (Handler → Handler)) (n : nat)
  (final : Handler) : Handler :=
  match n with
  | O => final
  | S i =>
      match middlewares !! i with
      | Some m => Chain_loop middlewares i (m final)
      | None => final
      end
  end.

Definition Chain (middlewares : list (Handler → Handler)) : Handler → Handler :=
  λ final, Chain_loop middlewares (length middlewares) final.

End middleware.

(** ** Packages [strings] and [strconv] of the Go standard library, as far as
    the source uses them *)
Module strings.

Definition byte (n : N) : ascii := ascii_of_N n.

Fixpoint bytes (l : list N) : string :=
  match l with
  | [] => ""
  | n :: l' => String (byte n) (bytes l')
  end.

(** The UTF-8 encodings of the runes for which [unicode.IsSpace] holds:
    the six ASCII spaces, U+0085, U+00A0, U+1680, U+2000 to U+200A, U+2028,
    U+2029, U+202F, U+205F and U+3000. *)
Definition spaces : list string :=
  bytes <$> [ [9]; [10]; [11]; [12]; [13]; [32];
              [194; 133]; [194; 160]; [225; 154; 128];
              [226; 128; 128]; [226; 128; 129]; [226; 128; 130];
              [226; 128; 131]; [226; 128; 132]; [226; 128; 133];
              [226; 128; 134]; [226; 128; 135]; [226; 128; 136];
              [226; 128; 137]; [226; 128; 138];
              [226; 128; 168]; [226; 128; 169]; [226; 128; 175];
              [226; 129; 159]; [227; 128; 128] ]%N.

(** [strings.CutPrefix] *)
Fixpoint CutPrefix (s prefix : string) : option string :=
  match prefix, s with
  | EmptyString, _ => Some s
  | String a prefix', String b s' =>
      if bool_decide (a = b) then CutPrefix s' prefix' else None
  | String _ _, EmptyString => None
  end.

(** Remove one leading rune, if it is one of those encoded in [runes]. *)
Fixpoint cut_any (runes : list string) (s : string) : option string :=
  match runes with
  | [] => None
  | r :: runes' =>
      match CutPrefix s r with
      | Some s' => Some s'
      | None => cut_any runes' s
      end
  end.

Fixpoint trim_left (fuel : nat) (runes : list string) (s : string) : string :=
  match fuel with
  | O => s
  | S fuel' =>
      match cut_any runes s with
      | Some s' => trim_left fuel' runes s'
      | None => s
      end
  end.

Definition TrimLeftSpace (s : string) : string :=
  trim_left (String.length s) spaces s.

(** Trimming on the right is trimming the reversed string on the left of the
    reversed encodings: a string ends with the encoding of a rune exactly
    when that rune is the last one decoded. *)
Definition TrimRightSpace (s : string) : string :=
  String.rev (trim_left (String.length s) (String.rev <$> spaces) (String.rev s)).

(** [strings.TrimSpace]: all leading and trailing white space removed, as
    defined by Unicode. *)
Definition TrimSpace (s : string) : string :=
  TrimRightSpace (TrimLeftSpace s).

(** [strings.Index(s, "?")] followed by [s[:idx]] when the index is not -1:
    the part of [s] before its first question mark. *)
Fixpoint before_question_mark (s : string) : string :=
  match s with
  | EmptyString => ""
  | String c s' =>
      if bool_decide (c = "?"%char) then "" else String c (before_question_mark s')
  end.

(** [len(s)]: the number of bytes. *)
Definition len (s : string) : Z := Z.of_nat (String.length s).

(** The number of characters of a string, which the source never computes:
    the bytes that are not UTF-8 continuation bytes (10xxxxxx), one per code
    point in well-formed UTF-8. *)
Fixpoint characters (s : string) : Z :=
  match s with
  | EmptyString => 0
  | String c s' =>
      let n := Z.of_N (N_of_ascii c) in
      (if bool_decide (128 ≤ n < 192) then 0 else 1) + characters s'
  end.

(** [strings.Repeat] *)
Fixpoint Repeat (s : string) (count : nat) : string :=
  match count with
  | O => ""
  | S count' => s +:+ Repeat s count'
  end.

(** The double quote, as a string. *)
Definition dq : string := String "034"%char EmptyString.

End strings.

Module strconv.

Definition digit (c : ascii) : option Z :=
  let n := Z.of_N (N_of_ascii c) - 48 in
  if bool_decide (0 ≤ n ≤ 9) then Some n else None.

(** The value of a non-empty string of decimal digits. *)
Fixpoint digits (acc : Z) (s : string) : option Z :=
  match s with
  | EmptyString => Some acc
  | String c s' =>
      match digit c with
      | Some d => digits (acc * 10 + d) s'
      | None => None
      end
  end.

Definition unsigned (s : string) : option Z :=
  match s with
  | EmptyString => None
  | _ => digits 0 s
  end.

(** [strconv.Atoi]: an optional sign and decimal digits, the value within
    the range of [int]; [None] stands for a non-nil error. *)
Definition Atoi (s : string) : option Z :=
  let n := match s with
           | String "-" s' => Z.opp <$> unsigned s'
           | String "+" s' => unsigned s'
           | _ => unsigned s
           end in
  match n with
  | Some n => if bool_decide (GoInt.int_min ≤ n ≤ GoInt.int_max) then Some n else None
  | None => None
  end.

(** [strconv.ParseBool] *)
Definition ParseBool (str : string) : option bool :=
  if bool_decide (str ∈ ["1"; "t"; "T"; "TRUE"; "true"; "True"]) then Some true
  else if bool_decide (str ∈ ["0"; "f"; "F"; "FALSE"; "false"; "False"]) then Some false
  else None.

End strconv.

(** [http.NotFound]: the plain-text 404 reply of [net/http]. *)
Definition http_NotFound : Handler :=
  λ W RW w r,
    let w := Header_Set "Content-Type" "text/plain; charset=utf-8" w in
    let w := Header_Set "X-Content-Type-Options" "nosniff" w in
    let w := WriteHeader StatusNotFound w in
    let w := Write (Text "404 page not found") w in
    ret w.

(** ** Package [router] *)
Module router.

Record Router := mkRouter {
  routes : gmap string (gmap string Handler)
}.

Definition NewRouter : Router := mkRouter ∅.

Definition Handle (method path : string) (handler : Handler) (r : Router) : Router :=
  let paths := default ∅ (routes r !! method) in
  mkRouter (<[method := <[path := handler]> paths]> (routes r)).

Definition GET := Handle MethodGet.
Definition POST := Handle MethodPost.
Definition PATCH := Handle MethodPatch.
Definition DELETE := Handle MethodDelete.

Definition ServeHTTP (r : Router) : Handler :=
  λ W RW w req,
    let path := strings.before_question_mark (URL_Path req) in
    match routes r !! Method req with
    | Some handlers =>
        match handlers !! path with
        | Some handler => handler W RW w req
        | None => http_NotFound W RW w req
        end
    | None => http_NotFound W RW w req
    end.

End router.

(** ** Package [encoding/json] of the Go standard library

    The decoder is a parameter of the development: [Decode] maps the bytes of
    a request body to the decoded value, or to [None] for a non-nil error. *)
Module json.

Class Decoder := {
  Decode_CreateTaskRequest : string → option CreateTaskRequest;
  Decode_UpdateTaskRequest : string → option UpdateTaskRequest
}.

(** A decoder for the bodies of the examples, to instantiate the parameter
    with.  It accepts the bodies [{"title":"<text>"}], whose text is made of
    printable ASCII bytes other than the quote and the backslash and of
    two-byte UTF-8 sequences, and [{"done":true}] and [{"done":false}]; on
    these it returns what [encoding/json] returns.  Every other body is an
    error for it. *)
Fixpoint text_literal (s : string) : option (string * string) :=
  match s with
  | EmptyString => None
  | String c s' =>
      let n := N_of_ascii c in
      if (n =? 34)%N then Some ("", s')
      else if ((32 <=? n) && (n <? 127) && negb (n =? 92))%N
      then (λ '(t, rest), (String c t, rest)) <$> text_literal s'
      else if ((194 <=? n) && (n <=? 223))%N
      then
        match s' with
        | String c2 s'' =>
            let n2 := N_of_ascii c2 in
            if ((128 <=? n2) && (n2 <=? 191))%N
            then (λ '(t, rest), (String c (String c2 t), rest)) <$> text_literal s''
            else None
        | EmptyString => None
        end
      else None
  end.

Definition examples : Decoder := {|
  Decode_CreateTaskRequest body :=
    match strings.CutPrefix body
            ("{" +:+ strings.dq +:+ "title" +:+ strings.dq +:+ ":" +:+ strings.dq) with
    | Some rest =>
        match text_literal rest with
        | Some (t, "}") => Some (mkCreateTaskRequest t)
        | _ => None
        end
    | None => None
    end;
  Decode_UpdateTaskRequest body :=
    if bool_decide (body = "{" +:+ strings.dq +:+ "done" +:+ strings.dq +:+ ":true}")
    then Some (mkUpdateTaskRequest true)
    else if bool_decide (body = "{" +:+ strings.dq +:+ "done" +:+ strings.dq +:+ ":false}")
    then Some (mkUpdateTaskRequest false)
    else None
|}.

End json.

(** ** Package [handlers] *)
Module handlers.
Section handlers.
Context `{!json.Decoder}.

Definition MaxTitleLength : Z := 200.

Definition respondJSON `{ResponseWriter W} (w : W) (status : Z) (data : Chunk) : W :=
  let w := Header_Set "Content-Type" "application/json" w in
  let w := WriteHeader status w in
  Write data w.

(** What the encoder reads through a slice of task pointers. *)
Definition load_tasks (ps : list store.ptr) : M (list Task) :=
  λ world, ((λ p, store.load p (taskStore world)) <$> ps, world).

Definition GetAllTasks : Handler :=
  λ W RW w r,
    let doneParam := Query_Get "done" r in
    if negb (bool_decide (doneParam = ""))
    then
      match strconv.ParseBool doneParam with
      | None =>
          ret (respondJSON w StatusBadRequest (JSONError "invalid done parameter"))
      | Some done =>
          let* tasks := on_store (store.GetByStatus done) in
          let* ts := load_tasks tasks in
          ret (respondJSON w StatusOK (JSONTasks ts))
      end
    else
      let* tasks := on_store store.GetAll in
      let* ts := load_tasks tasks in
      ret (respondJSON w StatusOK (JSONTasks ts)).

Definition GetTask : Handler :=
  λ W RW w r,
    let idStr := Query_Get "id" r in
    if bool_decide (idStr = "") then GetAllTasks W RW w r
    else
      match strconv.Atoi idStr with
      | None => ret (respondJSON w StatusBadRequest (JSONError "invalid id"))
      | Some id =>
          if bool_decide (id ≤ 0)
          then ret (respondJSON w StatusBadRequest (JSONError "invalid id"))
          else
            let* res := on_store (store.GetByID id) in
            match res with
            | inr store.ErrTaskNotFound =>
                ret (respondJSON w StatusNotFound (JSONError "task not found"))
            | inr _ => ret (respondJSON w StatusOK JSONNull)
            | inl task =>
                let* t := load_task task in
                ret (respondJSON w StatusOK (JSONTask t))
            end
      end.

Definition CreateTask : Handler :=
  λ W RW w r,
    match json.Decode_CreateTaskRequest (Body r) with
    | None => ret (respondJSON w StatusBadRequest (JSONError "invalid request body"))
    | Some req =>
        let Title := strings.TrimSpace (req_Title req) in
        if bool_decide (Title = "")
        then ret (respondJSON w StatusBadRequest (JSONError "invalid title"))
        else if MaxTitleLength <? strings.len Title
        then ret (respondJSON w StatusBadRequest
                    (JSONError ("title exceeds maximum length of "
                                +:+ middleware.Sprintf_d MaxTitleLength
                                +:+ " characters")))
        else
          let* task := on_store (store.Create Title) in
          let* t := load_task task in
          ret (respondJSON w StatusCreated (JSONTask t))
    end.

Definition UpdateTask : Handler :=
  λ W RW w r,
    let idStr := Query_Get "id" r in
    if bool_decide (idStr = "")
    then ret (respondJSON w StatusBadRequest (JSONError "id parameter is required"))
    else
      match strconv.Atoi idStr with
      | None => ret (respondJSON w StatusBadRequest (JSONError "invalid id"))
      | Some id =>
          if bool_decide (id ≤ 0)
          then ret (respondJSON w StatusBadRequest (JSONError "invalid id"))
          else
            match json.Decode_UpdateTaskRequest (Body r) with
            | None =>
                ret (respondJSON w StatusBadRequest (JSONError "invalid request body"))
            | Some req =>
                let* err := on_store (store.Update id (req_Done req)) in
                match err with
                | Some store.ErrTaskNotFound =>
                    ret (respondJSON w StatusNotFound (JSONError "task not found"))
                | _ => ret (respondJSON w StatusOK (JSONSuccess true))
                end
            end
      end.

Definition DeleteTask : Handler :=
  λ W RW w r,
    let idStr := Query_Get "id" r in
    if bool_decide (idStr = "")
    then ret (respondJSON w StatusBadRequest (JSONError "id parameter is required"))
    else
      match strconv.Atoi idStr with
      | None => ret (respondJSON w StatusBadRequest (JSONError "invalid id"))
      | Some id =>
          if bool_decide (id ≤ 0)
          then ret (respondJSON w StatusBadRequest (JSONError "invalid id"))
          else
            let* err := on_store (store.Delete id) in
            match err with
            | Some store.ErrTaskNotFound =>
                ret (respondJSON w StatusNotFound (JSONError "task not found"))
            | _ => ret (respondJSON w StatusOK (JSONSuccess true))
            end
      end.

End handlers.
End handlers.

(** ** [cmd/api/main.go] *)
Module main.
Section main.
Context `{!json.Decoder}.

(** The body of the health reply, [{"status":"healthy"}]. *)
Definition healthy : string :=
  "{" +:+ strings.dq +:+ "status" +:+ strings.dq +:+ ":"
      +:+ strings.dq +:+ "healthy" +:+ strings.dq +:+ "}".

Definition health : Handler :=
  λ W RW w r,
    let w := Header_Set "Content-Type" "application/json" w in
    let w := WriteHeader StatusOK w in
    let w := Write (Text healthy) w in
    ret w.

Definition r : router.Router :=
  router.GET "/health" health
    (router.DELETE "/v1/tasks" handlers.DeleteTask
      (router.PATCH "/v1/tasks" handlers.UpdateTask
        (router.POST "/v1/tasks" handlers.CreateTask
          (router.GET "/v1/tasks" handlers.GetTask
            router.NewRouter)))).

Definition validAPIKeys : gmap string bool :=
  <["production-key-1" := true]>
    (<["dev-key-001" := true]> (<["secret12345" := true]> ∅)).

(** [middleware.NewRateLimiter(10)] *)
Definition requestsPerMinute : Z := 10.

Definition handler : Handler :=
  middleware.Chain
    [ middleware.Logger;
      middleware.RequestID;
      middleware.Limit;
      middleware.APIKeyAuth validAPIKeys ]
    (router.ServeHTTP r).

(** The process as [main] sets it up, on a given clock. *)
Definition boot (c : time.Clock) : World :=
  mkWorld c store.NewTaskStore (middleware.NewRateLimiter requestsPerMinute) 0 [].

(** What [http.Server] does with one request: a new response writer, the
    handler, and the end of the response. *)
Definition serve (req : Request) : M response :=
  let* w := handler response _ new_response req in
  ret (finishRequest w).

(** Requests served one after the other. *)
Fixpoint serve_all (reqs : list Request) : M (list response) :=
  match reqs with
  | [] => ret []
  | req :: reqs' =>
      let* resp := serve req in
      let* resps := serve_all reqs' in
      ret (resp :: resps)
  end.

End main.
End main.

(** * Properties *)

(** ** Go's [int] *)
Section GoInt_facts.

Lemma wrap_in_range z : GoInt.in_range z → GoInt.wrap z = z.
Proof.
  unfold GoInt.in_range, GoInt.wrap, GoInt.int_min, GoInt.int_max.
  intros. rewrite Z.mod_small; lia.
Qed.

Lemma incr_no_overflow z :
  GoInt.int_min ≤ z < GoInt.int_max → GoInt.incr z = z + 1.
Proof. intros. apply wrap_in_range. unfold GoInt.in_range. lia. Qed.

Lemma decr_no_overflow z :
  GoInt.int_min < z ≤ GoInt.int_max → GoInt.decr z = z - 1.
Proof. intros. apply wrap_in_range. unfold GoInt.in_range. lia. Qed.

End GoInt_facts.

(** ** The task store *)
Section store_facts.
Import store.
Implicit Types (s : TaskStore) (p : ptr) (id : Z) (t : Task).

(** [s'] is [s] after allocations only. *)
Definition extends s s' : Prop :=
  tasks s' = tasks s ∧ nextID s' = nextID s ∧ ∃ l, heap s' = heap s ++ l.

Lemma extends_refl s : extends s s.
Proof. repeat split. exists []. by rewrite app_nil_r. Qed.

Lemma extends_trans s1 s2 s3 : extends s1 s2 → extends s2 s3 → extends s1 s3.
Proof.
  intros (Ht1 & Hn1 & l1 & Hh1) (Ht2 & Hn2 & l2 & Hh2).
  repeat split; [congruence..|].
  exists (l1 ++ l2). by rewrite Hh2, Hh1, app_assoc.
Qed.

Lemma extends_length s s' : extends s s' → (length (heap s) ≤ length (heap s'))%nat.
Proof. intros (_ & _ & l & ->). rewrite length_app. lia. Qed.

Lemma load_extends s s' p :
  extends s s' → (p < length (heap s))%nat → load p s' = load p s.
Proof.
  intros (_ & _ & l & Hh) Hp. unfold load. rewrite Hh.
  by apply lookup_total_app_l.
Qed.

Lemma new_extends t s : extends s (new t s).2.
Proof. repeat split. by exists [t]. Qed.

Lemma load_new t s : load (new t s).1 (new t s).2 = t.
Proof.
  unfold load, new; simpl.
  by rewrite list_lookup_total_middle.
Qed.

Lemma append_copy_extends acc p :
  extends acc.2 (append_copy acc p).2.
Proof. destruct acc as [ps s]. apply new_extends. Qed.

Lemma foldl_extends {A} (f : list ptr * TaskStore → A → list ptr * TaskStore) l :
  (∀ acc a, extends acc.2 (f acc a).2) →
  ∀ acc, extends acc.2 (foldl f acc l).2.
Proof.
  intros Hf. induction l as [|a l IH]; intros acc; simpl.
  - apply extends_refl.
  - eapply extends_trans; [apply Hf | apply IH].
Qed.

Lemma GetAll_extends s : extends s (GetAll s).2.
Proof.
  unfold GetAll.
  apply (foldl_extends append_copy _ append_copy_extends ([], s)).
Qed.

Lemma GetByStatus_extends done s : extends s (GetByStatus done s).2.
Proof.
  unfold GetByStatus.
  apply (foldl_extends _ _) with (acc := ([], s)).
  intros acc p. case_bool_decide.
  - apply append_copy_extends.
  - apply extends_refl.
Qed.

Lemma GetByID_extends id s : extends s (GetByID id s).2.
Proof.
  unfold GetByID. destruct (tasks s !! id); simpl.
  - apply new_extends.
  - apply extends_refl.
Qed.

Lemma store_inv_extends s s' : store_inv s → extends s s' → store_inv s'.
Proof.
  intros [Hv Hd Hb H1] Hext. pose proof (extends_length _ _ Hext).
  destruct Hext as (Ht & Hn & _).
  split; rewrite ?Ht, ?Hn; [|done..].
  intros id p Hp. specialize (Hv _ _ Hp). lia.
Qed.

Lemma contents_extends s s' : store_inv s → extends s s' → contents s' = contents s.
Proof.
  intros [Hv _ _ _] Hext. unfold contents.
  destruct (Hext) as (-> & _ & _).
  apply map_fmap_ext. intros id p Hp.
  apply load_extends; eauto.
Qed.

Lemma contents_lookup s id :
  contents s !! id = (λ p, load p s) <$> tasks s !! id.
Proof. unfold contents. by rewrite lookup_fmap. Qed.

Lemma store_inv_NewTaskStore : store_inv NewTaskStore.
Proof. split; simpl; [intros *; by rewrite lookup_empty..|done]. Qed.

(** *** [Create] *)

Lemma Create_load title s :
  load (Create title s).1 (Create title s).2 = mkTask (nextID s) title false.
Proof. unfold load; simpl. by rewrite list_lookup_total_middle. Qed.

Lemma Create_inv title s :
  store_inv s → nextID s < GoInt.int_max → store_inv (Create title s).2.
Proof.
  intros [Hv Hd Hb H1] Hn.
  assert (GoInt.incr (nextID s) = nextID s + 1) as Hincr.
  { apply incr_no_overflow. unfold GoInt.int_min. lia. }
  split; simpl.
  - intros id p. rewrite length_app; simpl.
    rewrite lookup_insert. case_decide; simplify_eq.
    + intros [= <-]. lia.
    + intros Hp. specialize (Hv _ _ Hp). lia.
  - intros i j p. rewrite !lookup_insert.
    repeat case_decide; simplify_eq; intros; simplify_eq; try done.
    + match goal with H : tasks s !! _ = Some _ |- _ => apply Hv in H; lia end.
    + match goal with H : tasks s !! _ = Some _ |- _ => apply Hv in H; lia end.
    + eauto.
  - intros id p. rewrite Hincr.
    rewrite lookup_insert. case_decide; simplify_eq.
    + lia.
    + intros Hp. specialize (Hb _ _ Hp). lia.
  - lia.
Qed.

Lemma Create_contents title s :
  store_inv s →
  contents (Create title s).2
  = <[nextID s := mkTask (nextID s) title false]> (contents s).
Proof.
  intros [Hv _ _ _]. apply map_eq. intros id.
  rewrite contents_lookup; simpl.
  rewrite !lookup_insert. case_decide; simplify_eq; simpl.
  - unfold load; simpl. by rewrite list_lookup_total_middle.
  - rewrite contents_lookup. destruct (tasks s !! id) as [p|] eqn:Hp; simpl; [|done].
    f_equal. unfold load; simpl. apply lookup_total_app_l. eauto.
Qed.

(** *** [Update] and [Delete] *)

Lemma Update_found id done s p :
  tasks s !! id = Some p →
  Update id done s
  = (None, poke p (mkTask (ID (load p s)) (Title (load p s)) done) s).
Proof. intros Hp. unfold Update. by rewrite Hp. Qed.

Lemma Update_absent id done s :
  tasks s !! id = None → Update id done s = (Some ErrTaskNotFound, s).
Proof. intros Hp. unfold Update. by rewrite Hp. Qed.

Lemma poke_inv p t s : store_inv s → store_inv (poke p t s).
Proof.
  intros [Hv Hd Hb H1]. split; simpl; [|done..].
  intros id q Hq. rewrite length_insert. eauto.
Qed.

Lemma load_poke p q t s :
  (p < length (heap s))%nat →
  load q (poke p t s) = if decide (p = q) then t else load q s.
Proof.
  intros Hp. unfold load, poke; simpl. case_decide; subst.
  - by rewrite list_lookup_total_insert_eq.
  - by rewrite list_lookup_total_insert_ne.
Qed.

Lemma Update_inv id done s : store_inv s → store_inv (Update id done s).2.
Proof.
  intros Hinv. unfold Update. destruct (tasks s !! id); simpl; [|done].
  by apply poke_inv.
Qed.

Lemma Update_contents id done s :
  store_inv s →
  contents (Update id done s).2
  = alter (λ t, mkTask (ID t) (Title t) done) id (contents s).
Proof.
  intros [Hv Hd Hb H1]. apply map_eq. intros i.
  rewrite lookup_alter, !contents_lookup.
  unfold Update. destruct (tasks s !! id) as [p|] eqn:Hp; simpl.
  - case_decide as Hi; subst.
    + rewrite Hp; simpl. rewrite load_poke by eauto. by rewrite decide_True.
    + destruct (tasks s !! i) as [q|] eqn:Hq; simpl; [|done].
      rewrite load_poke by eauto. rewrite decide_False; [done|].
      intros ->. apply Hi. eauto.
  - case_decide; subst; [by rewrite Hp|done].
Qed.

Lemma Delete_inv id s : store_inv s → store_inv (Delete id s).2.
Proof.
  intros [Hv Hd Hb H1]. unfold Delete. destruct (tasks s !! id) eqn:E; simpl; [|done].
  split; simpl.
  - intros i q [_ Hq]%lookup_delete_Some. eauto.
  - intros i j q [_ Hi]%lookup_delete_Some [_ Hj]%lookup_delete_Some. eauto.
  - intros i q [_ Hq]%lookup_delete_Some. eauto.
  - done.
Qed.

Lemma Delete_contents id s : contents (Delete id s).2 = delete id (contents s).
Proof.
  unfold Delete. destruct (tasks s !! id) eqn:E; simpl.
  - unfold contents; simpl. by rewrite fmap_delete.
  - symmetry. apply delete_id. by rewrite contents_lookup, E.
Qed.

(** *** Sequences of calls *)

Lemma call_nextID o s :
  nextID (call o s).2 = if is_create o then GoInt.incr (nextID s) else nextID s.
Proof.
  destruct o as [title|id| |done|id done|id]; simpl.
  - done.
  - pose proof (GetByID_extends id s) as (_ & Hn & _).
    by destruct (GetByID id s) as [[?|?] ?].
  - pose proof (GetAll_extends s) as (_ & Hn & _).
    by destruct (GetAll s).
  - pose proof (GetByStatus_extends done s) as (_ & Hn & _).
    by destruct (GetByStatus done s).
  - unfold Update. by destruct (tasks s !! id).
  - unfold Delete. by destruct (tasks s !! id).
Qed.

(** What a call does to the records of the store. *)
Lemma call_contents o s :
  store_inv s →
  contents (call o s).2 =
    match o with
    | OpCreate title => <[nextID s := mkTask (nextID s) title false]> (contents s)
    | OpUpdate id done => alter (λ t, mkTask (ID t) (Title t) done) id (contents s)
    | OpDelete id => delete id (contents s)
    | _ => contents s
    end.
Proof.
  intros Hinv. destruct o as [title|id| |done|id done|id]; simpl.
  - by apply Create_contents.
  - pose proof (contents_extends _ _ Hinv (GetByID_extends id s)).
    by destruct (GetByID id s) as [[?|?] ?].
  - pose proof (contents_extends _ _ Hinv (GetAll_extends s)).
    by destruct (GetAll s).
  - pose proof (contents_extends _ _ Hinv (GetByStatus_extends done s)).
    by destruct (GetByStatus done s).
  - pose proof (Update_contents id done s Hinv).
    by destruct (Update id done s) as [[?|] ?].
  - pose proof (Delete_contents id s).
    by destruct (Delete id s) as [[?|] ?].
Qed.

Lemma call_inv o s :
  store_inv s → (is_create o = true → nextID s < GoInt.int_max) →
  store_inv (call o s).2.
Proof.
  intros Hinv Hn. destruct o as [title|id| |done|id done|id]; simpl.
  - apply Create_inv; auto.
  - pose proof (store_inv_extends _ _ Hinv (GetByID_extends id s)).
    by destruct (GetByID id s) as [[?|?] ?].
  - pose proof (store_inv_extends _ _ Hinv (GetAll_extends s)).
    by destruct (GetAll s).
  - pose proof (store_inv_extends _ _ Hinv (GetByStatus_extends done s)).
    by destruct (GetByStatus done s).
  - pose proof (Update_inv id done s Hinv).
    by destruct (Update id done s) as [[?|] ?].
  - pose proof (Delete_inv id s Hinv).
    by destruct (Delete id s) as [[?|] ?].
Qed.

Lemma creates_cons o ops :
  creates (o :: ops) = ((if is_create o then 1 else 0) + creates ops)%nat.
Proof. unfold creates. rewrite filter_cons. by destruct (is_create o). Qed.

Lemma run_cons o ops s : run (o :: ops) s = run ops (call o s).2.
Proof. done. Qed.

Lemma run_inv ops s :
  store_inv s → nextID s + Z.of_nat (creates ops) ≤ GoInt.int_max →
  store_inv (run ops s).
Proof.
  revert s. induction ops as [|o ops IH]; intros s Hinv Hn; [done|].
  rewrite run_cons. rewrite creates_cons in Hn.
  pose proof (ids_from_1 _ Hinv).
  apply IH.
  - apply call_inv; [done|]. intros Ho. rewrite Ho in Hn. lia.
  - rewrite call_nextID. destruct (is_create o); [|lia].
    rewrite incr_no_overflow; unfold GoInt.int_min; lia.
Qed.

(** A record stays as it is as long as no call updates or deletes its id. *)
Lemma run_keeps id t ops s :
  store_inv s → nextID s + Z.of_nat (creates ops) ≤ GoInt.int_max →
  Forall (λ o, writes id o = false) ops →
  contents s !! id = Some t →
  contents (run ops s) !! id = Some t.
Proof.
  revert s. induction ops as [|o ops IH]; intros s Hinv Hn Hw Hid; [done|].
  rewrite run_cons. rewrite creates_cons in Hn.
  apply Forall_cons in Hw as [Ho Hw].
  pose proof (ids_from_1 _ Hinv).
  apply IH; [| |done|].
  - apply call_inv; [done|]. intros Hc. rewrite Hc in Hn. lia.
  - rewrite call_nextID. destruct (is_create o); [|lia].
    rewrite incr_no_overflow; unfold GoInt.int_min; lia.
  - rewrite call_contents by done.
    destruct o as [title|i| |d|i d|i]; simpl in Ho; [|done..| |].
    + rewrite lookup_insert_ne; [done|]. intros <-.
      rewrite contents_lookup in Hid.
      destruct (tasks s !! nextID s) as [p|] eqn:Hp; [|done].
      apply (ids_below _ Hinv) in Hp. lia.
    + apply bool_decide_eq_false in Ho. by rewrite lookup_alter_ne.
    + apply bool_decide_eq_false in Ho. by rewrite lookup_delete_ne.
Qed.

Lemma GetByID_found id s p :
  tasks s !! id = Some p →
  GetByID id s = (inl (length (heap s)), (new (load p s) s).2).
Proof. intros Hp. unfold GetByID. by rewrite Hp. Qed.

Lemma StronglySorted_seqZ m n : StronglySorted Z.lt (seqZ m n).
Proof.
  destruct (decide (n ≤ 0)) as [|Hn]; [rewrite seqZ_nil by done; constructor|].
  rewrite <-(Z2Nat.id n) by lia. generalize (Z.to_nat n) as k. clear. intros k.
  revert m. induction k as [|k IH]; intros m.
  - rewrite seqZ_nil by done. constructor.
  - rewrite seqZ_cons by lia. rewrite Nat2Z.inj_succ, Z.pred_succ.
    constructor; [apply IH|].
    apply Forall_seqZ. lia.
Qed.

Lemma created_ids_seqZ ops s :
  GoInt.int_min ≤ nextID s →
  nextID s + Z.of_nat (creates ops) ≤ GoInt.int_max →
  created_ids ops s = seqZ (nextID s) (Z.of_nat (creates ops)).
Proof.
  revert s. induction ops as [|o ops IH]; intros s Hlo Hn.
  { by rewrite seqZ_nil. }
  rewrite creates_cons in Hn.
  assert (∀ o', is_create o' = false →
     created_ids (o' :: ops) s = created_ids ops (call o' s).2) as Hother.
  { by intros []. }
  destruct (is_create o) eqn:Ho.
  - destruct o as [title| | | | |]; try done.
    rewrite creates_cons; simpl.
    change (ID (load (Create title s).1 (Create title s).2)
            :: created_ids ops (Create title s).2
            = seqZ (nextID s) (Z.of_nat (S (creates ops)))).
    rewrite Create_load; simpl.
    rewrite seqZ_cons, Nat2Z.inj_succ, Z.pred_succ by lia.
    f_equal. rewrite IH; simpl.
    + by rewrite incr_no_overflow by lia.
    + rewrite incr_no_overflow by lia. lia.
    + rewrite incr_no_overflow by lia. lia.
  - rewrite Hother by done. rewrite creates_cons, Ho; simpl.
    pose proof (call_nextID o s) as Hnext. rewrite Ho in Hnext.
    rewrite IH; rewrite Hnext; [done|done|lia].
Qed.

(** *** Pointers the store does not hold *)

Lemma private_extends p s s' : private p s → extends s s' → private p s'.
Proof.
  intros [Hp Hq] Hext. pose proof (extends_length _ _ Hext).
  destruct Hext as (Ht & _). split; [lia|]. by rewrite Ht.
Qed.

Lemma private_call p o s :
  store_inv s → private p s →
  private p (call o s).2 ∧ load p (call o s).2 = load p s.
Proof.
  intros Hinv Hpriv.
  assert (∀ s', extends s s' → private p s' ∧ load p s' = load p s) as Hext.
  { intros s' Hext. split; [by eapply private_extends|].
    apply load_extends; [done|apply Hpriv]. }
  destruct Hpriv as [Hp Hq].
  destruct o as [title|id| |done|id done|id]; simpl.
  - split; [split|]; simpl.
    + rewrite length_app. lia.
    + intros i q. rewrite lookup_insert. case_decide; [|by eauto].
      intros [= <-]. lia.
    + unfold load; simpl. by apply lookup_total_app_l.
  - pose proof (Hext _ (GetByID_extends id s)).
    by destruct (GetByID id s) as [[?|?] ?].
  - pose proof (Hext _ (GetAll_extends s)).
    by destruct (GetAll s).
  - pose proof (Hext _ (GetByStatus_extends done s)).
    by destruct (GetByStatus done s).
  - unfold Update. destruct (tasks s !! id) as [q|] eqn:Hid; simpl; [|done].
    split; [split; simpl|].
    + by rewrite length_insert.
    + done.
    + rewrite load_poke by (by eapply ptrs_valid).
      rewrite decide_False; [done|]. by eapply Hq.
  - unfold Delete. destruct (tasks s !! id) as [q|] eqn:Hid; simpl; [|done].
    split; [split; simpl|done]; [done|].
    intros i q' [_ Hi]%lookup_delete_Some. eauto.
Qed.

(** Writing through a pointer the store does not hold leaves the records of
    the store as they are. *)
Lemma private_poke p t s : private p s → contents (poke p t s) = contents s.
Proof.
  intros [Hp Hq]. apply map_fmap_ext. intros id q Hid.
  unfold load, poke; simpl. apply list_lookup_total_insert_ne.
  intros ->. by eapply Hq.
Qed.

Lemma new_private t s : store_inv s → private (new t s).1 (new t s).2.
Proof.
  intros Hinv. split; simpl.
  - rewrite length_app; simpl. lia.
  - intros id q Hid%(ptrs_valid _ Hinv). lia.
Qed.

(** [GetByID] hands out a copy: a pointer the store does not hold, to an
    object equal to the record of the store. *)
Lemma GetByID_copy id s p s' :
  store_inv s → GetByID id s = (inl p, s') →
  private p s' ∧ contents s !! id = Some (load p s').
Proof.
  intros Hinv. unfold GetByID. rewrite contents_lookup.
  destruct (tasks s !! id) as [q|] eqn:Hid; [|done].
  intros [= <- <-]. split.
  - by apply (new_private (load q s) s).
  - simpl. f_equal. symmetry. apply (load_new (load q s) s).
Qed.

Lemma foldl_copies {A} (f : list ptr * TaskStore → A → list ptr * TaskStore)
    (l : list A) s0 :
  (∀ acc a, extends acc.2 (f acc a).2) →
  (∀ acc a p, p ∈ (f acc a).1 →
     p ∈ acc.1 ∨ (length (heap acc.2) ≤ p < length (heap (f acc a).2))%nat) →
  ∀ acc p, extends s0 acc.2 →
    (∀ q, q ∈ acc.1 → (length (heap s0) ≤ q < length (heap acc.2))%nat) →
    p ∈ (foldl f acc l).1 →
    (length (heap s0) ≤ p < length (heap (foldl f acc l).2))%nat.
Proof.
  intros Hext Hin. induction l as [|a l IH]; intros acc p Hacc Hq; simpl.
  { apply Hq. }
  apply IH.
  - eapply extends_trans; [done|apply Hext].
  - intros q Hq'. pose proof (extends_length _ _ (Hext acc a)).
    pose proof (extends_length _ _ Hacc).
    destruct (Hin _ _ _ Hq') as [?%Hq|?]; lia.
Qed.

Lemma append_copy_elem acc task p :
  p ∈ (append_copy acc task).1 →
  p ∈ acc.1 ∨ (length (heap acc.2) ≤ p < length (heap (append_copy acc task).2))%nat.
Proof.
  destruct acc as [ps s]; simpl.
  intros [?| ->%list_elem_of_singleton]%elem_of_app; [by left|right].
  rewrite length_app; simpl. lia.
Qed.

Lemma fresh_private p s s' :
  store_inv s → extends s s' →
  (length (heap s) ≤ p < length (heap s'))%nat → private p s'.
Proof.
  intros Hinv (Ht & _) Hp. split; [lia|]. rewrite Ht.
  intros id q Hid%(ptrs_valid _ Hinv). lia.
Qed.

(** [GetAll] and [GetByStatus] hand out copies. *)
Lemma GetAll_copies s p :
  store_inv s → p ∈ (GetAll s).1 → private p (GetAll s).2.
Proof.
  intros Hinv Hp. eapply fresh_private; [done|apply GetAll_extends|].
  revert Hp. unfold GetAll.
  apply (foldl_copies append_copy _ s append_copy_extends append_copy_elem ([], s)).
  - apply extends_refl.
  - by intros q ?%elem_of_nil.
Qed.

Lemma GetByStatus_copies done s p :
  store_inv s → p ∈ (GetByStatus done s).1 → private p (GetByStatus done s).2.
Proof.
  intros Hinv Hp. eapply fresh_private; [done|apply GetByStatus_extends|].
  revert Hp. unfold GetByStatus.
  apply (foldl_copies _ _ s) with (acc := ([], s)).
  - intros acc q. case_bool_decide; [apply append_copy_extends|apply extends_refl].
  - intros acc q r. case_bool_decide; [apply append_copy_elem|by left].
  - apply extends_refl.
  - by intros q ?%elem_of_nil.
Qed.

End store_facts.

(** ** Claims about the task store *)
Section store_claims.
Import store.

(** C2.  Whatever operations are called on a new store, the ids of the tasks
    returned by its [Create] calls are 1, 2, 3, ... in call order: strictly
    increasing from 1 and never repeated, whatever was deleted in between.
    The counter is a Go [int]: the statement is for fewer than 2^63 - 1
    calls of [Create]. *)
Theorem Create_ids_strictly_increasing (ops : list Op) :
  Z.of_nat (creates ops) < 2 ^ 63 - 1 →
  created_ids ops NewTaskStore = seqZ 1 (Z.of_nat (creates ops))
  ∧ StronglySorted Z.lt (created_ids ops NewTaskStore)
  ∧ NoDup (created_ids ops NewTaskStore).
Proof.
  intros Hn.
  assert (created_ids ops NewTaskStore = seqZ 1 (Z.of_nat (creates ops))) as ->.
  { apply (created_ids_seqZ ops NewTaskStore); simpl;
      unfold GoInt.int_min, GoInt.int_max; lia. }
  split; [done|]. split; [apply StronglySorted_seqZ|apply NoDup_seqZ].
Qed.

Definition sample_ops : list Op :=
  [OpCreate "a"; OpCreate "b"; OpDelete 2; OpCreate "c"; OpGetAll; OpCreate "d"].

Lemma Create_ids_strictly_increasing_witness :
  Z.of_nat (creates sample_ops) < 2 ^ 63 - 1
  ∧ created_ids sample_ops NewTaskStore = [1; 2; 3; 4]
  ∧ StronglySorted Z.lt (created_ids sample_ops NewTaskStore)
  ∧ NoDup (created_ids sample_ops NewTaskStore).
Proof.
  split; [by vm_compute|].
  apply (Create_ids_strictly_increasing sample_ops). by vm_compute.
Defined.

(** C4, at the input where it fails.  The pointer [Create] returns is the
    pointer it has put in the map, not a copy: an [Update] of the new id
    changes the task the caller of [Create] holds, and a write by that caller
    changes the record of the store. *)
Theorem Create_returns_stored_pointer (title : string) (s : TaskStore) (t : Task) :
  tasks (Create title s).2 !! nextID s = Some (Create title s).1
  ∧ Done (load (Create title s).1 (Create title s).2) = false
  ∧ Done (load (Create title s).1
            (Update (nextID s) true (Create title s).2).2) = true
  ∧ contents (poke (Create title s).1 t (Create title s).2) !! nextID s = Some t.
Proof.
  assert (tasks (Create title s).2 !! nextID s = Some (Create title s).1) as Hp.
  { simpl. by rewrite lookup_insert_eq. }
  assert ((Create title s).1 < length (heap (Create title s).2))%nat as Hlen.
  { simpl. rewrite length_app; simpl. lia. }
  split; [done|]. split; [by rewrite Create_load|]. split.
  - rewrite (Update_found _ _ _ _ Hp). cbn [snd].
    rewrite load_poke by done. by rewrite decide_True.
  - rewrite contents_lookup.
    change (tasks (poke (Create title s).1 t (Create title s).2))
      with (tasks (Create title s).2).
    rewrite Hp; simpl. f_equal. rewrite load_poke by done. by rewrite decide_True.
Qed.

(** C6.  In a well-formed store, [Update id true] on an id that is present
    returns no error, and from then on [GetByID id] returns a task with
    [Done = true], whatever is called in between short of an [Update] or a
    [Delete] of that id (and as long as the id counter does not overflow);
    [Update] on an absent id returns [ErrTaskNotFound] and the store is as
    it was. *)
Theorem Update_then_GetByID (s : TaskStore) (id : Z) :
  store_inv s →
  (is_Some (tasks s !! id) →
     ∃ s1, Update id true s = (None, s1)
       ∧ ∀ ops, Forall (λ o, writes id o = false) ops →
           nextID s + Z.of_nat (creates ops) ≤ GoInt.int_max →
           ∃ p s2, GetByID id (run ops s1) = (inl p, s2)
                   ∧ Done (load p s2) = true)
  ∧ (tasks s !! id = None →
     ∀ done, Update id done s = (Some ErrTaskNotFound, s)).
Proof.
  intros Hinv. split.
  - intros [q Hq].
    pose proof (Update_inv id true s Hinv) as Hinv1.
    pose proof (Update_contents id true s Hinv) as Hc1.
    rewrite (Update_found _ _ _ _ Hq) in Hinv1, Hc1 |- *.
    eexists; split; [done|]. intros ops Hops Hn.
    set (s1 := poke q _ s) in *.
    assert (contents s1 !! id
            = Some (mkTask (ID (load q s)) (Title (load q s)) true)) as Hid.
    { simpl in Hc1. rewrite Hc1, lookup_alter_eq, contents_lookup, Hq. done. }
    pose proof (run_inv ops s1 Hinv1 Hn) as Hinv2.
    pose proof (run_keeps id _ ops s1 Hinv1 Hn Hops Hid) as Hid2.
    rewrite contents_lookup in Hid2.
    destruct (tasks (run ops s1) !! id) as [p|] eqn:Hp; [|done].
    rewrite (GetByID_found _ _ _ Hp). do 2 eexists; split; [done|].
    simpl in Hid2. injection Hid2 as Hid2.
    change (length (heap (run ops s1))) with (new (load p (run ops s1)) (run ops s1)).1.
    rewrite load_new, Hid2. done.
  - intros Hid done. by apply Update_absent.
Qed.

Definition sample_store : TaskStore := run [OpCreate "a"; OpCreate "b"] NewTaskStore.

Lemma sample_store_inv : store_inv sample_store.
Proof.
  apply run_inv; [apply store_inv_NewTaskStore|by vm_compute].
Qed.

Lemma Update_then_GetByID_witness :
  store_inv sample_store
  ∧ (is_Some (tasks sample_store !! 2) →
     ∃ s1, Update 2 true sample_store = (None, s1)
       ∧ ∀ ops, Forall (λ o, writes 2 o = false) ops →
           nextID sample_store + Z.of_nat (creates ops) ≤ GoInt.int_max →
           ∃ p s2, GetByID 2 (run ops s1) = (inl p, s2)
                   ∧ Done (load p s2) = true)
  ∧ (tasks sample_store !! 2 = None →
     ∀ done, Update 2 done sample_store = (Some ErrTaskNotFound, sample_store)).
Proof.
  split; [apply sample_store_inv|].
  apply (Update_then_GetByID sample_store 2), sample_store_inv.
Defined.

End store_claims.

(** ** The clock and the rate limiter *)
Section limiter_facts.
Import middleware.
Implicit Types (w : World) (ip : string) (v : visitor) (c : time.Clock).

(** Saturation does not change a comparison with a minute. *)
Lemma Sub_Minute t u : time.Minute ≤ time.Sub t u ↔ time.Minute ≤ t - u.
Proof.
  unfold time.Sub, time.minDuration, time.maxDuration, time.Minute, time.Second.
  repeat case_match; lia.
Qed.

Lemma Sub_mono t t' u : t ≤ t' → time.Sub t u ≤ time.Sub t' u.
Proof.
  unfold time.Sub, time.minDuration, time.maxDuration.
  intros. repeat case_match; lia.
Qed.

Lemma Now_reading c : time.reading (time.Now c).2 = (time.Now c).1.
Proof. unfold time.Now. by destruct (time.ticks c). Qed.

Lemma Now_ge c : time.reading c ≤ (time.Now c).1.
Proof. unfold time.Now. destruct (time.ticks c); simpl; lia. Qed.

Lemma peek_ge n c : time.reading c ≤ time.peek n c.
Proof.
  revert c. induction n as [|n IH]; intros c; simpl.
  - apply Now_ge.
  - etrans; [apply Now_ge|]. rewrite <-Now_reading. apply IH.
Qed.

(** The clock never goes back. *)
Lemma peek_mono i j c : (i ≤ j)%nat → time.peek i c ≤ time.peek j c.
Proof.
  revert j c. induction i as [|i IH]; intros j c Hij.
  - destruct j as [|j]; simpl; [done|].
    rewrite <-Now_reading. apply peek_ge.
  - destruct j as [|j]; [lia|]. simpl. apply IH. lia.
Qed.

(** *** One call of [allow] *)

Definition refills (now : time.Time) v : bool :=
  time.Minute <=? time.Sub now (lastRefill v).

(** What [allow] does to the visitor it finds, at clock reading [now]. *)
Definition visit (rate : Z) (now : time.Time) v : bool * visitor :=
  let tok := if refills now v then rate else tokens v in
  (0 <? tok,
   mkVisitor (if 0 <? tok then GoInt.decr tok else tok) now
             (if refills now v then now else lastRefill v)).

Definition with_visitor ip v w : World :=
  set_rateLimiter
    (mkRateLimiter (<[ip := v]> (visitors (rateLimiter w)))
                   (rate (rateLimiter w)) (cleanup (rateLimiter w))) w.

Lemma allow_known ip v w :
  visitors (rateLimiter w) !! ip = Some v →
  allow ip w =
    ((visit (rate (rateLimiter w)) (time.Now (clock w)).1 v).1,
     with_visitor ip (visit (rate (rateLimiter w)) (time.Now (clock w)).1 v).2
                  (set_clock (time.Now (clock w)).2 w)).
Proof.
  intros Hv. unfold allow, getVisitor, bind, get_rateLimiter, ret, time_Now.
  rewrite Hv. unfold visit, refills.
  destruct (time.Now (clock w)) as [now c]; simpl.
  destruct (time.Minute <=? time.Sub now (lastRefill v)); simpl;
    case_match; reflexivity.
Qed.

(** The first call for a client creates its visitor with a full bucket, at
    the next two readings of the clock, and goes on as for a known client. *)
Lemma allow_fresh ip w :
  visitors (rateLimiter w) !! ip = None →
  allow ip w =
    allow ip (with_visitor ip
                (mkVisitor (rate (rateLimiter w)) (time.peek 0 (clock w))
                           (time.peek 1 (clock w)))
                (set_clock (time.Now (time.Now (clock w)).2).2 w)).
Proof.
  intros Hv. unfold allow at 1.
  unfold getVisitor, bind, get_rateLimiter, ret, time_Now, put_visitor.
  rewrite Hv. simpl.
  destruct (time.Now (clock w)) as [t1 c1]; simpl.
  destruct (time.Now c1) as [t2 c2]; simpl.
  set (w1 := with_visitor _ _ _).
  rewrite (allow_known ip (mkVisitor (rate (rateLimiter w)) t1 t2) w1)
    by (subst w1; simpl; apply lookup_insert_eq).
  subst w1. unfold visit, refills; simpl.
  destruct (time.Now c2) as [now c3]; simpl.
  destruct (time.Minute <=? time.Sub now t2); simpl;
    case_match; reflexivity.
Qed.

(** [allow] reads the clock and writes the limiter, nothing else. *)
Lemma allow_frame ip w :
  taskStore (allow ip w).2 = taskStore w
  ∧ requestIDCounter (allow ip w).2 = requestIDCounter w
  ∧ logged (allow ip w).2 = logged w.
Proof.
  destruct (visitors (rateLimiter w) !! ip) as [v|] eqn:Hv.
  - by rewrite (allow_known _ _ _ Hv).
  - rewrite (allow_fresh _ _ Hv).
    erewrite allow_known; [done|]. simpl. apply lookup_insert_eq.
Qed.

(** A client with tokens left, or not seen yet, is admitted whatever the
    clock says, when the capacity is positive. *)
Lemma allow_admits ip w :
  0 < rate (rateLimiter w) →
  (∀ v, visitors (rateLimiter w) !! ip = Some v → 0 < tokens v) →
  (allow ip w).1 = true.
Proof.
  intros Hr Htok.
  assert (∀ w' v, rate (rateLimiter w') = rate (rateLimiter w) →
            visitors (rateLimiter w') !! ip = Some v → 0 < tokens v →
            (allow ip w').1 = true) as Hknown.
  { intros w' v Hrate Hv Hv0. rewrite (allow_known _ _ _ Hv); simpl.
    rewrite Hrate. destruct (refills _ _); by apply Z.ltb_lt. }
  destruct (visitors (rateLimiter w) !! ip) as [v|] eqn:Hv; [by eauto|].
  rewrite (allow_fresh _ _ Hv).
  eapply Hknown; [done|apply lookup_insert_eq|done].
Qed.

(** *** The bucket stays within its capacity *)

Definition limiter_inv w : Prop :=
  ∀ ip v, visitors (rateLimiter w) !! ip = Some v →
          0 ≤ tokens v ≤ rate (rateLimiter w).

Lemma visit_tokens r now v :
  0 ≤ r ≤ GoInt.int_max → 0 ≤ tokens v ≤ r →
  0 ≤ tokens (visit r now v).2 ≤ r.
Proof.
  intros Hr Hv. unfold visit; simpl.
  destruct (refills now v); case_match; try lia;
    rewrite decr_no_overflow; unfold GoInt.int_min; lia.
Qed.

Lemma allow_rate ip w : rate (rateLimiter (allow ip w).2) = rate (rateLimiter w).
Proof.
  destruct (visitors (rateLimiter w) !! ip) as [v|] eqn:Hv.
  - by rewrite (allow_known _ _ _ Hv).
  - rewrite (allow_fresh _ _ Hv).
    erewrite allow_known; [done|]. simpl. apply lookup_insert_eq.
Qed.

Lemma with_visitor_inv ip v w :
  limiter_inv w → 0 ≤ tokens v ≤ rate (rateLimiter w) →
  limiter_inv (with_visitor ip v w).
Proof.
  intros Hinv Hv ip' v'. simpl. rewrite lookup_insert.
  case_decide; [by intros [= <-]|apply Hinv].
Qed.

Lemma allow_inv ip w :
  0 ≤ rate (rateLimiter w) ≤ GoInt.int_max →
  limiter_inv w → limiter_inv (allow ip w).2.
Proof.
  intros Hr Hinv.
  assert (∀ w' v, limiter_inv w' → rate (rateLimiter w') = rate (rateLimiter w) →
            visitors (rateLimiter w') !! ip = Some v →
            limiter_inv (allow ip w').2) as Hknown.
  { intros w' v Hinv' Hrate Hv. rewrite (allow_known _ _ _ Hv); simpl.
    apply (with_visitor_inv ip _ (set_clock _ w')); [done|]. simpl.
    apply visit_tokens; [by rewrite Hrate|by eapply Hinv']. }
  destruct (visitors (rateLimiter w) !! ip) as [v|] eqn:Hv; [by eapply Hknown|].
  rewrite (allow_fresh _ _ Hv). eapply Hknown; [|done|apply lookup_insert_eq].
  apply (with_visitor_inv ip _ (set_clock _ w)); [done|simpl; lia].
Qed.

(** The cleanup only removes visitors. *)
Lemma cleanup_visitor_visitors ip v w :
  rate (rateLimiter (cleanup_visitor ip v w).2) = rate (rateLimiter w)
  ∧ visitors (rateLimiter (cleanup_visitor ip v w).2) ⊆ visitors (rateLimiter w).
Proof.
  unfold cleanup_visitor, bind, get_rateLimiter, time_Since, bind, time_Now, ret.
  destruct (time.Now (clock w)) as [now c]; simpl.
  case_match; simpl; [|done].
  split; [done|apply delete_subseteq].
Qed.

Lemma cleanup_loop_visitors (l : list (string * visitor)) w :
  rate (rateLimiter (for_range l (λ '(ip, v), cleanup_visitor ip v) w).2)
  = rate (rateLimiter w)
  ∧ visitors (rateLimiter (for_range l (λ '(ip, v), cleanup_visitor ip v) w).2)
    ⊆ visitors (rateLimiter w).
Proof.
  revert w. induction l as [|[ip v] l IH]; intros w; simpl; [done|].
  unfold bind.
  pose proof (cleanup_visitor_visitors ip v w) as [Hr Hsub].
  destruct (cleanup_visitor ip v w) as [[] w1]; simpl in *.
  destruct (IH w1) as [Hr1 Hsub1].
  split; [congruence|by etrans].
Qed.

Lemma cleanupVisitors_tick_inv w :
  limiter_inv w → limiter_inv (cleanupVisitors_tick w).2
  ∧ rate (rateLimiter (cleanupVisitors_tick w).2) = rate (rateLimiter w).
Proof.
  intros Hinv. unfold cleanupVisitors_tick, bind at 1, get_rateLimiter.
  destruct (cleanup_loop_visitors (map_to_list (visitors (rateLimiter w))) w)
    as [Hr Hsub].
  split; [|done]. intros ip v Hv. rewrite Hr.
  eapply Hinv, lookup_weaken; done.
Qed.

Lemma limiter_run_inv es w :
  0 ≤ rate (rateLimiter w) ≤ GoInt.int_max → limiter_inv w →
  limiter_inv (limiter_run es w)
  ∧ rate (rateLimiter (limiter_run es w)) = rate (rateLimiter w).
Proof.
  revert w. induction es as [|e es IH]; intros w Hr Hinv; [done|].
  change (limiter_run (e :: es) w) with (limiter_run es (limiter_step e w)).
  assert (limiter_inv (limiter_step e w)
          ∧ rate (rateLimiter (limiter_step e w)) = rate (rateLimiter w))
    as [Hinv' Hr'].
  { destruct e as [ip|]; simpl.
    - split; [by apply allow_inv|apply allow_rate].
    - by apply cleanupVisitors_tick_inv. }
  destruct (IH (limiter_step e w)) as [? ?]; [by rewrite Hr'|done|].
  split; [done|congruence].
Qed.

(** *** Calls within one window *)

Lemma allow_n_cons n ip w :
  allow_n (S n) ip w =
    ((allow ip w).1 :: (allow_n n ip (allow ip w).2).1,
     (allow_n n ip (allow ip w).2).2).
Proof.
  simpl. unfold bind, ret. destruct (allow ip w) as [ok w1]; simpl.
  by destruct (allow_n n ip w1).
Qed.

Lemma allow_n_window m : ∀ k ip v w,
  visitors (rateLimiter w) !! ip = Some v →
  tokens v = Z.of_nat k → Z.of_nat k ≤ GoInt.int_max →
  (∀ i, (i < m)%nat →
        time.Sub (time.peek i (clock w)) (lastRefill v) < time.Minute) →
  (allow_n m ip w).1 = replicate (k `min` m) true ++ replicate (m - k) false.
Proof.
  induction m as [|m IH]; intros k ip v w Hv Hk Hmax Hwin.
  { by rewrite Nat.min_0_r. }
  rewrite allow_n_cons. cbn [fst]. rewrite (allow_known _ _ _ Hv). cbn [fst snd].
  assert (refills (time.Now (clock w)).1 v = false) as Hno.
  { unfold refills. apply Z.leb_gt. apply (Hwin 0%nat). lia. }
  unfold visit. rewrite Hno, Hk. cbn [fst snd].
  set (v1 := mkVisitor _ _ _). set (w1 := with_visitor _ _ _).
  assert (visitors (rateLimiter w1) !! ip = Some v1) as Hv1
    by apply lookup_insert_eq.
  assert (∀ i, (i < m)%nat →
     time.Sub (time.peek i (clock w1)) (lastRefill v1) < time.Minute) as Hwin1.
  { intros i Hi. apply (Hwin (S i)). lia. }
  destruct k as [|k].
  - rewrite (IH 0%nat _ _ _ Hv1); [|done..].
    by rewrite Nat.sub_0_r.
  - replace (0 <? Z.of_nat (S k)) with true by (symmetry; apply Z.ltb_lt; lia).
    rewrite (IH k _ _ _ Hv1); [done| |lia|done].
    subst v1. replace (0 <? Z.of_nat (S k)) with true
      by (symmetry; apply Z.ltb_lt; lia).
    simpl tokens. rewrite decr_no_overflow; unfold GoInt.int_min; lia.
Qed.

(** *** [getVisitor], and [allow] through it *)

Lemma getVisitor_known ip v w :
  visitors (rateLimiter w) !! ip = Some v → getVisitor ip w = (v, w).
Proof.
  intros Hv. unfold getVisitor, bind, get_rateLimiter, ret. by rewrite Hv.
Qed.

(** For a client it has not seen, [getVisitor] reads the clock twice and
    stores a visitor with a full bucket. *)
Lemma getVisitor_fresh ip w :
  visitors (rateLimiter w) !! ip = None →
  getVisitor ip w
  = (mkVisitor (rate (rateLimiter w)) (time.peek 0 (clock w))
               (time.peek 1 (clock w)),
     with_visitor ip
       (mkVisitor (rate (rateLimiter w)) (time.peek 0 (clock w))
                  (time.peek 1 (clock w)))
       (set_clock (time.Now (time.Now (clock w)).2).2 w)).
Proof.
  intros Hv.
  unfold getVisitor, bind, get_rateLimiter, ret, time_Now, put_visitor.
  rewrite Hv. simpl.
  destruct (time.Now (clock w)) as [t1 c1]; simpl.
  by destruct (time.Now c1) as [t2 c2].
Qed.

Lemma getVisitor_stored ip w :
  visitors (rateLimiter (getVisitor ip w).2) !! ip = Some (getVisitor ip w).1
  ∧ rate (rateLimiter (getVisitor ip w).2) = rate (rateLimiter w).
Proof.
  destruct (visitors (rateLimiter w) !! ip) as [v|] eqn:Hv.
  - by rewrite (getVisitor_known _ _ _ Hv).
  - rewrite (getVisitor_fresh _ _ Hv). simpl.
    split; [apply lookup_insert_eq|done].
Qed.

(** [allow] is [getVisitor] and then the visit of the visitor it returns. *)
Lemma allow_getVisitor ip w :
  allow ip w
  = ((visit (rate (rateLimiter w))
            (time.Now (clock (getVisitor ip w).2)).1 (getVisitor ip w).1).1,
     with_visitor ip
       (visit (rate (rateLimiter w))
              (time.Now (clock (getVisitor ip w).2)).1 (getVisitor ip w).1).2
       (set_clock (time.Now (clock (getVisitor ip w).2)).2 (getVisitor ip w).2)).
Proof.
  destruct (visitors (rateLimiter w) !! ip) as [v|] eqn:Hv.
  - rewrite (getVisitor_known _ _ _ Hv). by apply allow_known.
  - rewrite (allow_fresh _ _ Hv), (getVisitor_fresh _ _ Hv). cbn [fst snd].
    erewrite allow_known; [done|]. simpl. apply lookup_insert_eq.
Qed.

End limiter_facts.

(** ** Claims about the rate limiter *)
Section limiter_claims.
Import middleware.

(** C1.  With capacity 10 and a client the limiter has not seen, eleven
    calls of [allow] whose clock readings all lie less than a minute after
    the start of the window (the reading [lastRefill] of the new visitor
    takes, the second of the first call) return [true] ten times and then
    [false].  For a known client, a call at a reading [now] a minute or more
    after the start of its window returns [true] and leaves a bucket that was
    filled to 10 and paid one token, with the window starting at [now]. *)
Theorem Allow_fixed_window (w : World) (ip : string) :
  rate (rateLimiter w) = 10 →
  (visitors (rateLimiter w) !! ip = None →
   time.Sub (time.peek 12 (clock w)) (time.peek 1 (clock w)) < time.Minute →
   (allow_n 11 ip w).1 = replicate 10 true ++ [false])
  ∧ (∀ v, visitors (rateLimiter w) !! ip = Some v →
     time.Minute ≤ time.Sub (time.peek 0 (clock w)) (lastRefill v) →
     (allow ip w).1 = true
     ∧ visitors (rateLimiter (allow ip w).2) !! ip
       = Some (mkVisitor (10 - 1) (time.peek 0 (clock w)) (time.peek 0 (clock w)))).
Proof.
  intros Hrate. split.
  - intros Hfresh Hwin.
    set (v1 := mkVisitor (rate (rateLimiter w)) (time.peek 0 (clock w))
                         (time.peek 1 (clock w))).
    set (w1 := with_visitor ip v1
                 (set_clock (time.Now (time.Now (clock w)).2).2 w)).
    assert (allow_n 11 ip w = allow_n 11 ip w1) as ->.
    { rewrite !allow_n_cons. by rewrite (allow_fresh _ _ Hfresh). }
    rewrite (allow_n_window 11 10 ip v1 w1); [done|apply lookup_insert_eq|..].
    + simpl. by rewrite Hrate.
    + by vm_compute.
    + intros i Hi. eapply Z.le_lt_trans; [|apply Hwin].
      apply Sub_mono.
      change (time.peek i (clock w1)) with (time.peek (S (S i)) (clock w)).
      apply peek_mono. lia.
  - intros v Hv Hwin. rewrite (allow_known _ _ _ Hv). cbn [fst snd].
    unfold visit, refills. rewrite Hrate.
    replace (time.Minute <=? _) with true by (symmetry; by apply Z.leb_le).
    split; [done|]. simpl. by rewrite lookup_insert_eq.
Qed.

(** A clock that advances a second before each of its first fourteen
    readings and then a minute before the next. *)
Definition sample_clock : time.Clock :=
  time.mkClock 0 (replicate 14 1000000000%N ++ [60000000000%N]).

Definition sample_world : World := main.boot sample_clock.

Lemma Allow_fixed_window_witness :
  rate (rateLimiter sample_world) = 10
  ∧ (visitors (rateLimiter sample_world) !! "10.0.0.7:4242" = None →
     time.Sub (time.peek 12 (clock sample_world)) (time.peek 1 (clock sample_world))
       < time.Minute →
     (allow_n 11 "10.0.0.7:4242" sample_world).1 = replicate 10 true ++ [false])
  ∧ (∀ v, visitors (rateLimiter sample_world) !! "10.0.0.7:4242" = Some v →
     time.Minute ≤ time.Sub (time.peek 0 (clock sample_world)) (lastRefill v) →
     (allow "10.0.0.7:4242" sample_world).1 = true
     ∧ visitors (rateLimiter (allow "10.0.0.7:4242" sample_world).2) !! "10.0.0.7:4242"
       = Some (mkVisitor (10 - 1) (time.peek 0 (clock sample_world))
                         (time.peek 0 (clock sample_world)))).
Proof.
  split; [reflexivity|].
  apply (Allow_fixed_window sample_world "10.0.0.7:4242"). reflexivity.
Defined.

(** The scenario of the claim on the sample clock: ten calls pass, the
    eleventh and twelfth are denied, and the thirteenth, a minute later,
    passes again. *)
Example allow_thirteen_calls :
  (allow_n 13 "10.0.0.7:4242" sample_world).1
  = replicate 10 true ++ [false; false; true].
Proof. by vm_compute. Qed.

(** C7.  In a limiter made by [NewRateLimiter] with a capacity between 0 and
    the largest [int], take the state after any sequence of [allow] calls
    and cleanup ticks, on any clock.  The capacity is the one configured and
    every visitor has between 0 and capacity tokens.  [getVisitor] returns
    the visitor of a known client and changes nothing; for a client not
    seen it makes a visitor with exactly capacity tokens, stores it under
    the client and leaves the other visitors as they are.  [allow] then
    reads the clock: a minute or more after [lastRefill] it sets the tokens
    exactly to capacity and [lastRefill] to the reading, otherwise it keeps
    both; when the tokens it has then are positive it takes one and returns
    [true], otherwise it takes none and returns [false]. *)
Theorem tokens_within_capacity (requestsPerMinute : Z) (w : World)
    (es : list LimiterEvent) :
  0 ≤ requestsPerMinute ≤ GoInt.int_max →
  rateLimiter w = NewRateLimiter requestsPerMinute →
  rate (rateLimiter (limiter_run es w)) = requestsPerMinute
  ∧ (∀ ip v, visitors (rateLimiter (limiter_run es w)) !! ip = Some v →
             0 ≤ tokens v ≤ requestsPerMinute)
  ∧ (∀ ip v, visitors (rateLimiter (limiter_run es w)) !! ip = Some v →
             getVisitor ip (limiter_run es w) = (v, limiter_run es w))
  ∧ (∀ ip, visitors (rateLimiter (limiter_run es w)) !! ip = None →
       tokens (getVisitor ip (limiter_run es w)).1 = requestsPerMinute
       ∧ visitors (rateLimiter (getVisitor ip (limiter_run es w)).2) !! ip
         = Some (getVisitor ip (limiter_run es w)).1
       ∧ ∀ ip', ip' ≠ ip →
           visitors (rateLimiter (getVisitor ip (limiter_run es w)).2) !! ip'
           = visitors (rateLimiter (limiter_run es w)) !! ip')
  ∧ (∀ ip,
       let v := (getVisitor ip (limiter_run es w)).1 in
       let now := (time.Now (clock (getVisitor ip (limiter_run es w)).2)).1 in
       let refill := bool_decide (time.Minute ≤ time.Sub now (lastRefill v)) in
       let tok := if refill then requestsPerMinute else tokens v in
       (allow ip (limiter_run es w)).1 = bool_decide (0 < tok)
       ∧ visitors (rateLimiter (allow ip (limiter_run es w)).2) !! ip
         = Some (mkVisitor (if bool_decide (0 < tok) then tok - 1 else tok)
                           now (if refill then now else lastRefill v))).
Proof.
  intros Hr Hrl.
  destruct (limiter_run_inv es w) as [Hinv Hrate].
  { by rewrite Hrl. }
  { intros ip v. rewrite Hrl. simpl. by rewrite lookup_empty. }
  rewrite Hrl in Hrate. simpl in Hrate.
  set (w' := limiter_run es w) in *.
  split; [done|]. split; [|split; [|split]].
  - intros ip v Hv. rewrite <-Hrate. by eapply Hinv.
  - intros ip v. apply getVisitor_known.
  - intros ip Hnone. rewrite (getVisitor_fresh _ _ Hnone). cbn [fst snd tokens].
    split; [done|]. split; [apply lookup_insert_eq|].
    intros ip' Hne. simpl. by apply lookup_insert_ne.
  - intros ip. cbn zeta. rewrite allow_getVisitor. cbn [fst snd].
    destruct (getVisitor_stored ip w') as [Hv _].
    assert (0 ≤ tokens (getVisitor ip w').1 ≤ requestsPerMinute) as Htok.
    { destruct (visitors (rateLimiter w') !! ip) as [v|] eqn:Hv'.
      - rewrite (getVisitor_known _ _ _ Hv'). rewrite <-Hrate. by eapply Hinv.
      - rewrite (getVisitor_fresh _ _ Hv'). simpl. lia. }
    unfold visit, refills. rewrite Hrate.
    set (v := (getVisitor ip w').1) in *.
    set (now := (time.Now (clock (getVisitor ip w').2)).1).
    assert ((time.Minute <=? time.Sub now (lastRefill v))
            = bool_decide (time.Minute ≤ time.Sub now (lastRefill v))) as ->.
    { case_bool_decide; [by apply Z.leb_le|by apply Z.leb_gt; lia]. }
    set (tok := if bool_decide _ then requestsPerMinute else tokens v).
    assert (0 ≤ tok ≤ requestsPerMinute) as Hbound
      by (subst tok; case_bool_decide; lia).
    assert ((0 <? tok) = bool_decide (0 < tok)) as ->.
    { case_bool_decide; [by apply Z.ltb_lt|by apply Z.ltb_ge; lia]. }
    split; [done|]. simpl. rewrite lookup_insert_eq. do 2 f_equal.
    case_bool_decide; [|done].
    apply decr_no_overflow. unfold GoInt.int_min. lia.
Qed.

Definition sample_events : list LimiterEvent :=
  [EvAllow "a"; EvAllow "b"; EvAllow "a"; EvTick; EvAllow "a"].

Lemma tokens_within_capacity_witness :
  0 ≤ 10 ≤ GoInt.int_max
  ∧ rateLimiter sample_world = NewRateLimiter 10
  ∧ rate (rateLimiter (limiter_run sample_events sample_world)) = 10
  ∧ (∀ ip v,
       visitors (rateLimiter (limiter_run sample_events sample_world)) !! ip
       = Some v →
       0 ≤ tokens v ≤ 10)
  ∧ (∀ ip v,
       visitors (rateLimiter (limiter_run sample_events sample_world)) !! ip
       = Some v →
       getVisitor ip (limiter_run sample_events sample_world)
       = (v, limiter_run sample_events sample_world))
  ∧ (∀ ip,
       visitors (rateLimiter (limiter_run sample_events sample_world)) !! ip
       = None →
       tokens (getVisitor ip (limiter_run sample_events sample_world)).1 = 10
       ∧ visitors
           (rateLimiter (getVisitor ip (limiter_run sample_events sample_world)).2)
         !! ip
         = Some (getVisitor ip (limiter_run sample_events sample_world)).1
       ∧ ∀ ip', ip' ≠ ip →
           visitors
             (rateLimiter
                (getVisitor ip (limiter_run sample_events sample_world)).2)
           !! ip'
           = visitors (rateLimiter (limiter_run sample_events sample_world))
             !! ip')
  ∧ (∀ ip,
       let v := (getVisitor ip (limiter_run sample_events sample_world)).1 in
       let now :=
         (time.Now
            (clock (getVisitor ip (limiter_run sample_events sample_world)).2)).1 in
       let refill := bool_decide (time.Minute ≤ time.Sub now (lastRefill v)) in
       let tok := if refill then 10 else tokens v in
       (allow ip (limiter_run sample_events sample_world)).1
       = bool_decide (0 < tok)
       ∧ visitors
           (rateLimiter (allow ip (limiter_run sample_events sample_world)).2)
         !! ip
         = Some (mkVisitor (if bool_decide (0 < tok) then tok - 1 else tok)
                           now (if refill then now else lastRefill v))).
Proof.
  split; [by vm_compute|]. split; [reflexivity|].
  apply (tokens_within_capacity 10 sample_world sample_events);
    [by vm_compute|reflexivity].
Defined.

(** On the sample clock: a client not seen gets a bucket of ten tokens and
    its first call leaves nine; the visitor of the client of the sample
    events, called three times, has seven. *)
Example buckets_after_the_sample_events :
  tokens (getVisitor "c" (limiter_run sample_events sample_world)).1 = 10
  ∧ tokens <$> visitors
        (rateLimiter (allow "c" (limiter_run sample_events sample_world)).2)
      !! "c" = Some 9
  ∧ tokens <$> visitors
        (rateLimiter (limiter_run sample_events sample_world)) !! "a" = Some 7.
Proof. by vm_compute. Qed.

End limiter_claims.

(** ** Handlers and what they write

    A handler can only write to the writer it is given: whatever the writer,
    the handler performs on it the operations it performs on a writer that
    records them, and changes the process in the same way. *)
Section http_facts.
Context `{!json.Decoder}.
Import middleware.

Inductive WOp :=
| WSet (k v : string)
| WWriteHeader (code : Z)
| WWrite (c : Chunk).

Definition apply_op `{ResponseWriter W} (o : WOp) (w : W) : W :=
  match o with
  | WSet k v => Header_Set k v w
  | WWriteHeader code => WriteHeader code w
  | WWrite c => Write c w
  end.

Definition replay `{ResponseWriter W} (ops : list WOp) (w : W) : W :=
  foldl (λ w o, apply_op o w) w ops.

(** The writer that records the operations applied to it. *)
Definition recorder : ResponseWriter (list WOp) := {|
  Header_Set k v l := l ++ [WSet k v];
  WriteHeader code l := l ++ [WWriteHeader code];
  Write c l := l ++ [WWrite c]
|}.

(** The operations a handler performs for a request. *)
Definition trace (h : Handler) (r : Request) (world : World) : list WOp :=
  (h (list WOp) recorder [] r world).1.

Definition uniform (h : Handler) : Prop :=
  ∀ W (RW : ResponseWriter W) (w : W) r world,
    h W RW w r world
    = (replay (trace h r world) w, (h (list WOp) recorder [] r world).2).

Lemma replay_app `{ResponseWriter W} ops1 ops2 (w : W) :
  replay (ops1 ++ ops2) w = replay ops2 (replay ops1 w).
Proof. apply foldl_app. Qed.

Lemma replay_recorder ops l : @replay _ recorder ops l = l ++ ops.
Proof.
  revert l. induction ops as [|o ops IH]; intros l; simpl.
  - by rewrite app_nil_r.
  - rewrite IH. destruct o; simpl; by rewrite <-app_assoc.
Qed.

Lemma uniform_recorder h l r world :
  uniform h →
  h (list WOp) recorder l r world
  = (l ++ trace h r world, (h (list WOp) recorder [] r world).2).
Proof. intros Hh. rewrite (Hh _ recorder l). by rewrite replay_recorder. Qed.

(** The status code [responseWriter] has captured after some operations. *)
Definition captured (ops : list WOp) (code : Z) : Z :=
  foldl (λ code o, match o with WWriteHeader code' => code' | _ => code end)
        code ops.

Lemma replay_responseWriter `{ResponseWriter W} ops (w : W) code :
  replay ops (mkResponseWriter w code)
  = mkResponseWriter (replay ops w) (captured ops code).
Proof.
  revert w code. induction ops as [|o ops IH]; intros w code; [done|].
  simpl. rewrite <-IH. by destruct o.
Qed.

(** *** The middlewares *)

Lemma APIKeyAuth_uniform validKeys next :
  uniform next → uniform (APIKeyAuth validKeys next).
Proof.
  intros Hnext W RW w r world. unfold trace, APIKeyAuth.
  case_match; [done|]. apply Hnext.
Qed.

Lemma Limit_uniform next : uniform next → uniform (Limit next).
Proof.
  intros Hnext W RW w r world. unfold trace, Limit, bind.
  destruct (allow (RemoteAddr r) world) as [[] world1]; simpl; [|done].
  apply Hnext.
Qed.

Lemma RequestID_uniform next : uniform next → uniform (RequestID next).
Proof.
  intros Hnext W RW w r world. unfold trace, RequestID, bind, incr_requestIDCounter.
  rewrite Hnext. cbn [Header_Set recorder app].
  rewrite (uniform_recorder next [_]) by done. cbn [fst snd].
  by rewrite replay_app.
Qed.

(** What [Logger] does after the inner handler has returned. *)
Definition Logger_after (start : time.Time) (code : Z) (r : Request) : M unit :=
  let* duration := time_Since start in
  let* now := time_Now in
  log_Printf (mkLogLine now (Method r) (URL_Path r) code duration (ctx_requestID r)).

Lemma Logger_unfold next W (RW : ResponseWriter W) (w : W) r world :
  Logger next W RW w r world =
    let world1 := set_clock (time.Now (clock world)).2 world in
    let res := next (responseWriter W) _ (mkResponseWriter w StatusOK) r world1 in
    (ResponseWriter_ res.1,
     (Logger_after (time.Now (clock world)).1 (statusCode res.1) r res.2).2).
Proof.
  unfold Logger, Logger_after, bind, time_Now, ret. simpl.
  destruct (time.Now (clock world)) as [start c]; simpl.
  destruct (next _ _ _ _ _) as [wrapped world2]; simpl.
  destruct (time_Since start world2) as [duration world3]; simpl.
  destruct (time.Now (clock world3)) as [now c3]; simpl.
  done.
Qed.

Lemma Logger_uniform next : uniform next → uniform (Logger next).
Proof.
  intros Hnext W RW w r world. unfold trace.
  rewrite !Logger_unfold. cbn zeta.
  rewrite (Hnext (responseWriter W)), (Hnext (responseWriter (list WOp))).
  rewrite !replay_responseWriter. cbn [fst snd ResponseWriter_ statusCode].
  by rewrite replay_recorder.
Qed.

Lemma Chain_loop_take (middlewares : list (Handler → Handler)) n final :
  (n ≤ length middlewares)%nat →
  Chain_loop middlewares n final
  = foldr (λ m next, m next) final (take n middlewares).
Proof.
  revert final. induction n as [|i IH]; intros final Hn; [done|].
  simpl. destruct (lookup_lt_is_Some_2 middlewares i) as [m Hm]; [lia|].
  rewrite Hm. rewrite (take_S_r _ _ _ Hm), foldr_app. simpl.
  apply IH. lia.
Qed.

(** [Chain(m1, ..., mn)(h)] is [m1(m2(...mn(h)...))]. *)
Lemma Chain_foldr (middlewares : list (Handler → Handler)) final :
  Chain middlewares final = foldr (λ m next, m next) final middlewares.
Proof.
  unfold Chain. rewrite Chain_loop_take by done. by rewrite firstn_all.
Qed.


(** *** The handlers of the routes *)

(** An operation that leaves the header [k] as it is. *)
Definition keeps (k : string) (o : WOp) : Prop :=
  match o with
  | WSet k' _ => k' ≠ k
  | _ => True
  end.

(** A handler that is uniform, never sets the header [k] and leaves the
    counter of request ids as it is. *)
Definition quiet (k : string) (h : Handler) : Prop :=
  uniform h
  ∧ ∀ r world,
      Forall (keeps k) (trace h r world)
      ∧ requestIDCounter (h (list WOp) recorder [] r world).2
        = requestIDCounter world.

Ltac handler_cases :=
  unfold trace, bind, ret, on_store, load_task, handlers.load_tasks,
    handlers.respondJSON;
  repeat (case_match; simplify_eq; cbn [fst snd]).

Ltac quiet_leaf unfold_handler :=
  split;
  [ intros W RW w r world; unfold_handler; handler_cases; reflexivity
  | intros r world; unfold_handler; handler_cases;
    cbn [Header_Set WriteHeader Write recorder app];
    (split; [repeat constructor; done|done]) ].

Lemma http_NotFound_quiet : quiet "X-Request-ID" http_NotFound.
Proof. quiet_leaf ltac:(unfold http_NotFound). Qed.

Lemma health_quiet : quiet "X-Request-ID" main.health.
Proof. quiet_leaf ltac:(unfold main.health). Qed.

Lemma GetAllTasks_quiet : quiet "X-Request-ID" handlers.GetAllTasks.
Proof. quiet_leaf ltac:(unfold handlers.GetAllTasks). Qed.

Lemma GetTask_quiet : quiet "X-Request-ID" handlers.GetTask.
Proof.
  split.
  - intros W RW w r world. unfold trace, handlers.GetTask.
    case_match; [apply (proj1 GetAllTasks_quiet)|]. handler_cases; reflexivity.
  - intros r world. unfold trace, handlers.GetTask.
    case_match; [apply (proj2 GetAllTasks_quiet r world)|]. handler_cases;
      cbn [Header_Set WriteHeader Write recorder app];
      (split; [repeat constructor; done|done]).
Qed.

Lemma CreateTask_quiet : quiet "X-Request-ID" handlers.CreateTask.
Proof. quiet_leaf ltac:(unfold handlers.CreateTask). Qed.

Lemma UpdateTask_quiet : quiet "X-Request-ID" handlers.UpdateTask.
Proof. quiet_leaf ltac:(unfold handlers.UpdateTask). Qed.

Lemma DeleteTask_quiet : quiet "X-Request-ID" handlers.DeleteTask.
Proof. quiet_leaf ltac:(unfold handlers.DeleteTask). Qed.

(** *** The router *)

Definition routes_all (Q : Handler → Prop) (r : router.Router) : Prop :=
  ∀ method handlers path handler,
    router.routes r !! method = Some handlers →
    handlers !! path = Some handler → Q handler.

Lemma routes_all_NewRouter Q : routes_all Q router.NewRouter.
Proof. intros method handlers path handler. simpl. by rewrite lookup_empty. Qed.

Lemma routes_all_Handle Q method path handler r :
  Q handler → routes_all Q r → routes_all Q (router.Handle method path handler r).
Proof.
  intros Hh Hr method' handlers' path' handler'. simpl.
  rewrite lookup_insert. case_decide as Hm; [|apply Hr].
  intros [= <-]. rewrite lookup_insert. case_decide; [by intros [= <-]|].
  subst method'. destruct (router.routes r !! method) as [hs|] eqn:Hhs; simpl.
  - by apply (Hr method hs).
  - by rewrite lookup_empty.
Qed.

Lemma ServeHTTP_quiet r :
  routes_all (quiet "X-Request-ID") r → quiet "X-Request-ID" (router.ServeHTTP r).
Proof.
  intros Hr. split.
  - intros W RW w req world. unfold trace, router.ServeHTTP.
    destruct (router.routes r !! Method req) as [hs|] eqn:Hhs;
      [|apply (proj1 http_NotFound_quiet)].
    destruct (hs !! _) as [h|] eqn:Hh; [|apply (proj1 http_NotFound_quiet)].
    apply (proj1 (Hr _ _ _ _ Hhs Hh)).
  - intros req world. unfold trace, router.ServeHTTP.
    destruct (router.routes r !! Method req) as [hs|] eqn:Hhs;
      [|apply (proj2 http_NotFound_quiet req world)].
    destruct (hs !! _) as [h|] eqn:Hh;
      [|apply (proj2 http_NotFound_quiet req world)].
    apply (proj2 (Hr _ _ _ _ Hhs Hh) req world).
Qed.

Lemma main_r_quiet : quiet "X-Request-ID" (router.ServeHTTP main.r).
Proof.
  apply ServeHTTP_quiet. unfold main.r.
  repeat (apply routes_all_Handle;
          [first [apply health_quiet | apply DeleteTask_quiet
                 | apply UpdateTask_quiet | apply CreateTask_quiet
                 | apply GetTask_quiet]|]).
  apply routes_all_NewRouter.
Qed.

Lemma APIKeyAuth_quiet validKeys next :
  quiet "X-Request-ID" next → quiet "X-Request-ID" (APIKeyAuth validKeys next).
Proof.
  intros [Hu Hq]. split; [by apply APIKeyAuth_uniform|].
  intros r world. unfold trace, APIKeyAuth. case_match; [|apply (Hq r world)].
  cbn. split; [repeat constructor; done|done].
Qed.

Lemma Limit_quiet next :
  quiet "X-Request-ID" next → quiet "X-Request-ID" (Limit next).
Proof.
  intros [Hu Hq]. split; [by apply Limit_uniform|].
  intros r world. unfold trace, Limit, bind.
  pose proof (allow_frame (RemoteAddr r) world) as (_ & Hc & _).
  destruct (allow (RemoteAddr r) world) as [[] world1]; cbn [negb snd] in *.
  - destruct (Hq r world1) as [? ->]. done.
  - cbn. split; [repeat constructor; done|done].
Qed.

End http_facts.

(** ** Claims about the pipeline and the handlers *)
Section pipeline_claims.
Context `{!json.Decoder}.
Import middleware.

Lemma handler_unfold :
  main.handler
  = Logger (RequestID (Limit (APIKeyAuth main.validAPIKeys
                                (router.ServeHTTP main.r)))).
Proof. reflexivity. Qed.

(** C8.  [Chain] nests its middlewares with the first one outermost, the
    handler of [main] is Logger around RequestID around the rate limiter
    around the API-key check around the router, and a stage that denies a
    request returns its error response whatever the next stage is: the next
    stage is not run. *)
Theorem pipeline_order_and_short_circuit :
  (∀ (middlewares : list (Handler → Handler)) (final : Handler),
     Chain middlewares final = foldr (λ m next, m next) final middlewares)
  ∧ main.handler
    = Logger (RequestID (Limit (APIKeyAuth main.validAPIKeys
                                  (router.ServeHTTP main.r))))
  ∧ (∀ (next : Handler) W (RW : ResponseWriter W) (w : W) r world,
       (allow (RemoteAddr r) world).1 = false →
       Limit next W RW w r world
       = (Write (JSONError "rate limit exceeded")
            (WriteHeader StatusTooManyRequests
               (Header_Set "Content-Type" "application/json" w)),
          (allow (RemoteAddr r) world).2))
  ∧ (∀ validKeys (next : Handler) W (RW : ResponseWriter W) (w : W) r world,
       Header_Get "X-API-KEY" r = ""
       ∨ validKeys !! Header_Get "X-API-KEY" r ≠ Some true →
       APIKeyAuth validKeys next W RW w r world
       = (Write (JSONError "unauthorized")
            (WriteHeader StatusUnauthorized
               (Header_Set "Content-Type" "application/json" w)),
          world)).
Proof.
  split; [apply Chain_foldr|]. split; [apply handler_unfold|]. split.
  - intros next W RW w r world Hdeny. unfold Limit, bind.
    destruct (allow (RemoteAddr r) world) as [ok world1]; simpl in *.
    by subst ok.
  - intros validKeys next W RW w r world Hkey. unfold APIKeyAuth.
    replace (_ || _) with true; [done|].
    symmetry. apply orb_true_iff. destruct Hkey as [->|Hkey]; [by left|right].
    destruct (validKeys !! _) as [[]|]; done.
Qed.

(** *** Request ids *)

Definition carries (k v : string) (w : response) : Prop :=
  handlerHeader w !! k = Some v
  ∧ (wroteHeader w = true → sentHeader w !! k = Some v).

Lemma replay_carries k v ops (w : response) :
  Forall (keeps k) ops → carries k v w → carries k v (replay ops w).
Proof.
  intros Hops. revert w. induction Hops as [|o ops Ho _ IH]; intros w Hw; [done|].
  apply IH. destruct Hw as [Hh Hs].
  destruct o as [k' v'|code|c]; simpl in *.
  - split; simpl; [by rewrite lookup_insert_ne|done].
  - unfold response_WriteHeader. destruct (wroteHeader w); by split; auto.
  - unfold response_Write, response_WriteHeader.
    destruct (wroteHeader w) eqn:Hwrote; simpl; [|by split].
    rewrite Hwrote. by split; auto.
Qed.

Lemma finishRequest_carries k v (w : response) :
  carries k v w → sentHeader (finishRequest w) !! k = Some v.
Proof.
  intros [Hh Hs]. unfold finishRequest, response_WriteHeader.
  destruct (wroteHeader w); [by apply Hs|done].
Qed.

Lemma Logger_after_counter start code r world :
  requestIDCounter (Logger_after start code r world).2 = requestIDCounter world.
Proof.
  unfold Logger_after, bind, time_Since, bind, time_Now, ret.
  destruct (time.Now (clock world)) as [t c]; simpl.
  by destruct (time.Now c).
Qed.

(** One request: the response carries the next request id, and the counter
    has advanced by one. *)
Lemma serve_request_id req world :
  sentHeader (main.serve req world).1 !! "X-Request-ID"
  = Some ("req-" +:+ Sprintf_d (GoInt.incr (requestIDCounter world)))
  ∧ requestIDCounter (main.serve req world).2
    = GoInt.incr (requestIDCounter world).
Proof.
  pose proof (Limit_quiet _ (APIKeyAuth_quiet main.validAPIKeys _ main_r_quiet))
    as [Hu Hq].
  unfold main.serve, bind, ret. rewrite handler_unfold, Logger_unfold. cbn zeta.
  set (inner := Limit _) in *.
  unfold RequestID, bind, incr_requestIDCounter. cbn [fst snd].
  set (reqID := "req-" +:+ _). set (world1 := set_requestIDCounter _ _).
  rewrite (Hu (responseWriter response)).
  cbn [Header_Set responseWriter_ResponseWriter ResponseWriter_ statusCode].
  rewrite replay_responseWriter. cbn [fst snd ResponseWriter_ statusCode].
  destruct (Hq (WithRequestID reqID req) world1) as [Hkeeps Hcounter].
  split.
  - apply finishRequest_carries, replay_carries; [done|].
    split; simpl; [by rewrite lookup_insert_eq|done].
  - by rewrite Logger_after_counter, Hcounter.
Qed.

(** The request ids on a list of responses. *)
Definition request_ids (resps : list response) : list (option string) :=
  (λ resp, sentHeader resp !! "X-Request-ID") <$> resps.

Definition request_id (n : Z) : option string := Some ("req-" +:+ Sprintf_d n).

#[local] Instance request_id_inj : Inj (=) (=) request_id.
Proof.
  intros n m [= Heq]. unfold Sprintf_d in Heq.
  by apply (inj pretty).
Qed.

Lemma serve_all_cons req reqs world :
  main.serve_all (req :: reqs) world
  = ((main.serve req world).1 :: (main.serve_all reqs (main.serve req world).2).1,
     (main.serve_all reqs (main.serve req world).2).2).
Proof.
  cbn [main.serve_all]. unfold bind at 1.
  destruct (main.serve req world) as [resp world1]; cbn [fst snd].
  unfold bind, ret. by destruct (main.serve_all reqs world1).
Qed.

Lemma serve_all_request_ids reqs world :
  0 ≤ requestIDCounter world →
  requestIDCounter world + Z.of_nat (length reqs) ≤ GoInt.int_max →
  request_ids (main.serve_all reqs world).1
  = request_id <$> seqZ (requestIDCounter world + 1) (Z.of_nat (length reqs)).
Proof.
  revert world. induction reqs as [|req reqs IH]; intros world Hlo Hhi.
  { by rewrite seqZ_nil. }
  rewrite serve_all_cons. cbn [fst length] in *.
  destruct (serve_request_id req world) as [Hid Hc].
  rewrite incr_no_overflow in Hid, Hc by (unfold GoInt.int_min; lia).
  rewrite seqZ_cons, Nat2Z.inj_succ, Z.pred_succ by lia.
  unfold request_ids in *. rewrite !fmap_cons. f_equal; [done|].
  rewrite IH; rewrite Hc; [done|lia..].
Qed.

(** C9.  Every response of the server carries the header [X-Request-ID],
    set from the counter of the process, rate-limited and unauthorized
    replies included; on requests served one after the other the ids are
    ["req-(c+1)"], ["req-(c+2)"], ... for a counter at [c], all different as
    long as the counter, a Go [int], does not overflow. *)
Theorem X_Request_ID_on_every_response (reqs : list Request) (world : World) :
  0 ≤ requestIDCounter world →
  requestIDCounter world + Z.of_nat (length reqs) ≤ GoInt.int_max →
  (∀ req world',
     sentHeader (main.serve req world').1 !! "X-Request-ID"
     = request_id (GoInt.incr (requestIDCounter world'))
     ∧ requestIDCounter (main.serve req world').2
       = GoInt.incr (requestIDCounter world'))
  ∧ request_ids (main.serve_all reqs world).1
    = request_id <$> seqZ (requestIDCounter world + 1) (Z.of_nat (length reqs))
  ∧ NoDup (request_ids (main.serve_all reqs world).1).
Proof.
  intros Hlo Hhi. split; [apply serve_request_id|].
  rewrite serve_all_request_ids by done. split; [done|].
  apply (NoDup_fmap_2 _), NoDup_seqZ.
Qed.


(** *** The health route *)

(** The process as the rate limiter finds it when a request arrives:
    [Logger] has read the clock and [RequestID] has counted the request. *)
Definition at_limiter (world : World) : World :=
  set_requestIDCounter (GoInt.incr (requestIDCounter world))
    (set_clock (time.Now (clock world)).2 world).

(** Does the rate limiter let the request through? *)
Definition admitted (req : Request) (world : World) : bool :=
  (allow (RemoteAddr req) (at_limiter world)).1.

(** The keys of [main.validAPIKeys]. *)
Definition valid_keys : list string :=
  ["secret12345"; "dev-key-001"; "production-key-1"].

Lemma validAPIKeys_check (key : string) :
  bool_decide (key = "") || negb (default false (main.validAPIKeys !! key))
  = negb (bool_decide (key ∈ valid_keys)).
Proof.
  destruct (decide (key ∈ valid_keys)) as [Hin|Hin].
  - rewrite (bool_decide_eq_true_2 _ Hin). unfold valid_keys in Hin.
    repeat (apply elem_of_cons in Hin as [->|Hin]; [by vm_compute|]).
    by apply elem_of_nil in Hin.
  - rewrite (bool_decide_eq_false_2 _ Hin). apply orb_true_iff. right.
    unfold main.validAPIKeys, valid_keys in *.
    rewrite !lookup_insert_ne, lookup_empty; [done|..];
      intros <-; apply Hin; set_solver.
Qed.

Lemma ServeHTTP_health W (RW : ResponseWriter W) (w : W) req world :
  Method req = "GET" → URL_Path req = "/health" →
  router.ServeHTTP main.r W RW w req world = main.health W RW w req world.
Proof. intros Hm Hp. unfold router.ServeHTTP. rewrite Hm, Hp. reflexivity. Qed.

(** C3, as amended.  The API key is required on every route, [/health]
    included: a GET of [/health] is answered 429 when the rate limiter does
    not admit it, 401 when it is admitted without one of the valid keys, and
    200 with the body [{"status":"healthy"}] when it is admitted with one. *)
Theorem health_behind_the_pipeline (req : Request) (world : World) :
  Method req = "GET" → URL_Path req = "/health" →
  (admitted req world = false →
     status (main.serve req world).1 = StatusTooManyRequests
     ∧ body (main.serve req world).1 = [JSONError "rate limit exceeded"])
  ∧ (admitted req world = true → Header_Get "X-API-KEY" req ∉ valid_keys →
     status (main.serve req world).1 = StatusUnauthorized
     ∧ body (main.serve req world).1 = [JSONError "unauthorized"])
  ∧ (admitted req world = true → Header_Get "X-API-KEY" req ∈ valid_keys →
     status (main.serve req world).1 = StatusOK
     ∧ body (main.serve req world).1 = [Text main.healthy]).
Proof.
  intros Hm Hp. unfold admitted, at_limiter.
  unfold main.serve, bind, ret. rewrite handler_unfold, Logger_unfold. cbn zeta.
  unfold RequestID, bind, incr_requestIDCounter. cbn [fst snd].
  set (reqID := "req-" +:+ _). set (world1 := set_requestIDCounter _ _).
  unfold Limit, bind. cbn [RemoteAddr WithRequestID].
  destruct (allow (RemoteAddr req) world1) as [ok world2]; cbn [fst snd].
  split; [|split].
  - by intros ->.
  - intros -> Hkey. cbn [negb]. unfold APIKeyAuth.
    change (Header_Get "X-API-KEY" (WithRequestID reqID req))
      with (Header_Get "X-API-KEY" req).
    rewrite validAPIKeys_check, bool_decide_eq_false_2 by done. done.
  - intros -> Hkey. cbn [negb]. unfold APIKeyAuth.
    change (Header_Get "X-API-KEY" (WithRequestID reqID req))
      with (Header_Get "X-API-KEY" req).
    rewrite validAPIKeys_check, bool_decide_eq_true_2 by done. cbn [negb].
    rewrite ServeHTTP_health by done. done.
Qed.

End pipeline_claims.

(** ** Claims about [CreateTask] *)
Section CreateTask_claims.
Context `{!json.Decoder}.

(** [CreateTask], branch by branch. *)
Lemma CreateTask_cases W (RW : ResponseWriter W) (w : W) r world :
  handlers.CreateTask W RW w r world =
    match json.Decode_CreateTaskRequest (Body r) with
    | None =>
        (handlers.respondJSON w StatusBadRequest (JSONError "invalid request body"),
         world)
    | Some req =>
        let title := strings.TrimSpace (req_Title req) in
        if bool_decide (title = "")
        then (handlers.respondJSON w StatusBadRequest (JSONError "invalid title"),
              world)
        else if 200 <? strings.len title
        then (handlers.respondJSON w StatusBadRequest
                (JSONError "title exceeds maximum length of 200 characters"),
              world)
        else (handlers.respondJSON w StatusCreated
                (JSONTask (mkTask (store.nextID (taskStore world)) title false)),
              set_taskStore (store.Create title (taskStore world)).2 world)
    end.
Proof.
  unfold handlers.CreateTask. destruct (json.Decode_CreateTaskRequest _); [|done].
  cbn zeta. case_bool_decide; [done|].
  unfold handlers.MaxTitleLength. destruct (200 <? _); [done|].
  unfold bind, ret, on_store, load_task.
  pose proof (Create_load (strings.TrimSpace (req_Title c)) (taskStore world))
    as Hload.
  destruct (store.Create _ _) as [task s]. cbn [fst snd taskStore set_taskStore] in *.
  by rewrite Hload.
Qed.

Lemma characters_le_len s : strings.characters s ≤ strings.len s.
Proof.
  unfold strings.len. induction s as [|c s IH]; simpl strings.characters; [done|].
  change (String.length (String c s)) with (S (String.length s)).
  case_bool_decide; lia.
Qed.

(** The letter e with an acute accent, two bytes in UTF-8, and a title of
    101 of them. *)
Definition e_acute : string := strings.bytes [195; 169]%N.
Definition title_101 : string := strings.Repeat e_acute 101.

(** C5, at the input where it fails.  A POST whose title is 101 times the
    letter e with an acute accent, 101 characters in 202 bytes, is answered
    400 with the message that the title exceeds 200 characters: the handler
    compares the number of bytes with 200. *)
Theorem CreateTask_measures_bytes W (RW : ResponseWriter W) (w : W) r world :
  json.Decode_CreateTaskRequest (Body r) = Some (mkCreateTaskRequest title_101) →
  strings.characters title_101 = 101
  ∧ strings.TrimSpace title_101 = title_101
  ∧ handlers.CreateTask W RW w r world
    = (handlers.respondJSON w StatusBadRequest
         (JSONError "title exceeds maximum length of 200 characters"),
       world).
Proof.
  intros Hbody. split; [by vm_compute|]. split; [by vm_compute|].
  rewrite CreateTask_cases, Hbody. cbn zeta.
  replace (strings.TrimSpace (req_Title _)) with title_101 by (by vm_compute).
  by vm_compute.
Qed.

(** C10.  [Create] takes any title: it returns a pointer to a task with that
    title and [Done = false], and the store holds it under the next id; so it
    does for the empty title and for a title of 201 characters.  The handler
    of POST is where such titles are refused: when the trimmed title is
    empty or longer than 200 characters it answers 400 and the store is as
    it was. *)
Theorem Create_does_not_validate :
  (∀ title s,
     store.load (store.Create title s).1 (store.Create title s).2
     = mkTask (store.nextID s) title false
     ∧ store.tasks (store.Create title s).2 !! store.nextID s
       = Some (store.Create title s).1)
  ∧ store.contents (store.Create "" store.NewTaskStore).2 !! 1
    = Some (mkTask 1 "" false)
  ∧ store.contents (store.Create (strings.Repeat "a" 201) store.NewTaskStore).2 !! 1
    = Some (mkTask 1 (strings.Repeat "a" 201) false)
  ∧ (∀ W (RW : ResponseWriter W) (w : W) r world req,
       json.Decode_CreateTaskRequest (Body r) = Some req →
       strings.TrimSpace (req_Title req) = ""
       ∨ 200 < strings.characters (strings.TrimSpace (req_Title req)) →
       ∃ msg, handlers.CreateTask W RW w r world
              = (handlers.respondJSON w StatusBadRequest (JSONError msg), world)).
Proof.
  split; [|split; [|split]].
  - intros title s. split; [apply Create_load|]. simpl. apply lookup_insert_eq.
  - rewrite Create_contents by apply store_inv_NewTaskStore.
    apply lookup_insert_eq.
  - rewrite Create_contents by apply store_inv_NewTaskStore.
    apply lookup_insert_eq.
  - intros W RW w r world req Hbody Htitle.
    rewrite CreateTask_cases, Hbody. cbn zeta.
    case_bool_decide as Hempty; [by eexists|].
    destruct Htitle as [?|Hlong]; [done|].
    pose proof (characters_le_len (strings.TrimSpace (req_Title req))).
    replace (200 <? _) with true by (symmetry; apply Z.ltb_lt; lia).
    by eexists.
Qed.

End CreateTask_claims.

(** ** Instances of the claims, on the decoder of the examples *)
Section instances.
#[local] Existing Instance json.examples.

Definition body_title (title : string) : string :=
  "{" +:+ strings.dq +:+ "title" +:+ strings.dq +:+ ":"
      +:+ strings.dq +:+ title +:+ strings.dq +:+ "}".

Definition client : string := "10.0.0.7:4242".

Definition post_title_101 : Request :=
  mkRequest "POST" "/v1/tasks" [] {["X-API-KEY" := "secret12345"]} client
            (body_title title_101) None.

Lemma CreateTask_measures_bytes_witness :
  json.Decode_CreateTaskRequest (Body post_title_101)
  = Some (mkCreateTaskRequest title_101)
  ∧ strings.characters title_101 = 101
  ∧ strings.TrimSpace title_101 = title_101
  ∧ handlers.CreateTask response _ new_response post_title_101 sample_world
    = (handlers.respondJSON new_response StatusBadRequest
         (JSONError "title exceeds maximum length of 200 characters"),
       sample_world).
Proof.
  split; [by vm_compute|].
  apply (CreateTask_measures_bytes response _ new_response post_title_101
           sample_world).
  by vm_compute.
Defined.

(** The test of the spec: a title of 201 letters a is refused with the
    message about the length. *)
Example post_201_a :
  let req := mkRequest "POST" "/v1/tasks" [] {["X-API-KEY" := "secret12345"]}
                       client (body_title (strings.Repeat "a" 201)) None in
  status (main.serve req sample_world).1 = StatusBadRequest
  ∧ body (main.serve req sample_world).1
    = [JSONError "title exceeds maximum length of 200 characters"].
Proof. by vm_compute. Qed.

Definition get_health (key : option string) : Request :=
  mkRequest "GET" "/health" []
            (match key with Some k => {["X-API-KEY" := k]} | None => ∅ end)
            client "" None.

(** C3, as stated, fails: a GET of [/health] without an API key, from a
    client the rate limiter admits, is answered 401. *)
Lemma health_without_key_unauthorized :
  admitted (get_health None) sample_world = true
  ∧ status (main.serve (get_health None) sample_world).1 = StatusUnauthorized
  ∧ status (main.serve (get_health None) sample_world).1 ≠ StatusOK
  ∧ body (main.serve (get_health None) sample_world).1
    = [JSONError "unauthorized"].
Proof. by vm_compute. Qed.

Lemma health_behind_the_pipeline_witness :
  Method (get_health (Some "dev-key-001")) = "GET"
  ∧ URL_Path (get_health (Some "dev-key-001")) = "/health"
  ∧ (admitted (get_health (Some "dev-key-001")) sample_world = false →
     status (main.serve (get_health (Some "dev-key-001")) sample_world).1
       = StatusTooManyRequests
     ∧ body (main.serve (get_health (Some "dev-key-001")) sample_world).1
       = [JSONError "rate limit exceeded"])
  ∧ (admitted (get_health (Some "dev-key-001")) sample_world = true →
     Header_Get "X-API-KEY" (get_health (Some "dev-key-001")) ∉ valid_keys →
     status (main.serve (get_health (Some "dev-key-001")) sample_world).1
       = StatusUnauthorized
     ∧ body (main.serve (get_health (Some "dev-key-001")) sample_world).1
       = [JSONError "unauthorized"])
  ∧ (admitted (get_health (Some "dev-key-001")) sample_world = true →
     Header_Get "X-API-KEY" (get_health (Some "dev-key-001")) ∈ valid_keys →
     status (main.serve (get_health (Some "dev-key-001")) sample_world).1 = StatusOK
     ∧ body (main.serve (get_health (Some "dev-key-001")) sample_world).1
       = [Text main.healthy]).
Proof.
  split; [reflexivity|]. split; [reflexivity|].
  apply (health_behind_the_pipeline (get_health (Some "dev-key-001")) sample_world);
    reflexivity.
Defined.

(** With a valid key the health check passes. *)
Example health_with_key :
  status (main.serve (get_health (Some "dev-key-001")) sample_world).1 = StatusOK
  ∧ body (main.serve (get_health (Some "dev-key-001")) sample_world).1
    = [Text main.healthy].
Proof. by vm_compute. Qed.

Definition sample_requests : list Request :=
  [ get_health None;
    mkRequest "POST" "/v1/tasks" [] {["X-API-KEY" := "secret12345"]} client
              (body_title "buy milk") None;
    mkRequest "GET" "/v1/tasks" [("id", "1")] {["X-API-KEY" := "secret12345"]}
              client "" None;
    mkRequest "GET" "/nowhere" [] {["X-API-KEY" := "secret12345"]} client "" None ].

Lemma X_Request_ID_on_every_response_witness :
  0 ≤ requestIDCounter sample_world
  ∧ requestIDCounter sample_world + Z.of_nat (length sample_requests) ≤ GoInt.int_max
  ∧ (∀ req world',
       sentHeader (main.serve req world').1 !! "X-Request-ID"
       = request_id (GoInt.incr (requestIDCounter world'))
       ∧ requestIDCounter (main.serve req world').2
         = GoInt.incr (requestIDCounter world'))
  ∧ request_ids (main.serve_all sample_requests sample_world).1
    = request_id <$> seqZ (requestIDCounter sample_world + 1)
                          (Z.of_nat (length sample_requests))
  ∧ NoDup (request_ids (main.serve_all sample_requests sample_world).1).
Proof.
  split; [by vm_compute|]. split; [by vm_compute|].
  apply (X_Request_ID_on_every_response sample_requests sample_world);
    by vm_compute.
Defined.

(** The four sample requests are answered 401, 201, 200 and 404, with the
    request ids 1 to 4. *)
Example sample_requests_served :
  (λ resp, (status resp, sentHeader resp !! "X-Request-ID"))
    <$> (main.serve_all sample_requests sample_world).1
  = [ (401, Some "req-1"); (201, Some "req-2");
      (200, Some "req-3"); (404, Some "req-4") ].
Proof. by vm_compute. Qed.

(** The end-to-end scenario: create, read, mark done, delete, read again. *)
Definition scenario : list Request :=
  let tasks method query body :=
    mkRequest method "/v1/tasks" query {["X-API-KEY" := "secret12345"]}
              client body None in
  [ tasks "POST" [] (body_title "buy milk");
    tasks "GET" [("id", "1")] "";
    tasks "PATCH" [("id", "1")]
          ("{" +:+ strings.dq +:+ "done" +:+ strings.dq +:+ ":true}");
    tasks "DELETE" [("id", "1")] "";
    tasks "GET" [("id", "1")] "" ].

Example scenario_served :
  (λ resp, (status resp, body resp)) <$> (main.serve_all scenario sample_world).1
  = [ (201, [JSONTask (mkTask 1 "buy milk" false)]);
      (200, [JSONTask (mkTask 1 "buy milk" false)]);
      (200, [JSONSuccess true]);
      (200, [JSONSuccess true]);
      (404, [JSONError "task not found"]) ].
Proof. by vm_compute. Qed.

End instances.

(** * Further properties of the code *)

(** ** The task store: reads *)
Section store_reads.
Import store.
Implicit Types (s : TaskStore) (p : ptr) (id : Z) (t : Task).

(** The copies a [range] loop appends: fresh pointers, in allocation order,
    to copies of the objects visited. *)
Lemma foldl_append_copy (l : list ptr) : ∀ (ps : list ptr) s,
  Forall (λ p, (p < length (heap s))%nat) l →
  foldl append_copy (ps, s) l
  = (ps ++ seq (length (heap s)) (length l),
     mkTaskStore (heap s ++ ((λ p, load p s) <$> l)) (tasks s) (nextID s)).
Proof.
  induction l as [|p l IH]; intros ps s Hl.
  { simpl. rewrite !app_nil_r. by destruct s. }
  apply Forall_cons in Hl as [Hp Hl]. simpl foldl.
  change (append_copy (ps, s) p)
    with (ps ++ [length (heap s)],
          mkTaskStore (heap s ++ [load p s]) (tasks s) (nextID s)).
  rewrite IH; simpl.
  - rewrite length_app, Nat.add_1_r, <-!app_assoc. simpl. do 4 f_equal.
    apply Forall_fmap_ext_1. eapply Forall_impl; [apply Hl|].
    intros q Hq. unfold load; simpl. by apply lookup_total_app_l.
  - eapply Forall_impl; [apply Hl|]. intros q Hq. rewrite length_app. simpl in *. lia.
Qed.

Lemma loads_of_appended (h copies : list Task) (tk : gmap Z ptr) (n : Z) :
  (λ p, load p (mkTaskStore (h ++ copies) tk n)) <$> seq (length h) (length copies)
  = copies.
Proof.
  apply list_eq. intros i. rewrite list_lookup_fmap.
  destruct (decide (i < length copies)%nat) as [Hi|Hi].
  - rewrite lookup_seq_lt by done. simpl. unfold load; simpl.
    rewrite lookup_total_app_r by lia.
    replace (length h + i - length h)%nat with i by lia.
    destruct (lookup_lt_is_Some_2 copies i Hi) as [t Ht].
    by rewrite Ht, (list_lookup_total_correct _ _ _ Ht).
  - rewrite lookup_seq_ge by lia. simpl. symmetry. apply lookup_ge_None. lia.
Qed.

Lemma map_pointers_valid s :
  store_inv s → Forall (λ p, (p < length (heap s))%nat) (snd <$> map_to_list (tasks s)).
Proof.
  intros Hinv. apply Forall_fmap, Forall_forall. intros [id p] Hin.
  apply elem_of_map_to_list in Hin. simpl. by eapply ptrs_valid.
Qed.

Lemma contents_values s :
  snd <$> map_to_list (contents s)
  = (λ p, load p s) <$> (snd <$> map_to_list (tasks s)).
Proof.
  unfold contents. rewrite map_to_list_fmap, <-!list_fmap_compose.
  apply list_fmap_ext. by intros _ [id p] _.
Qed.

Lemma GetAll_result s :
  store_inv s →
  GetAll s
  = (seq (length (heap s)) (size (tasks s)),
     mkTaskStore (heap s ++ (snd <$> map_to_list (contents s))) (tasks s) (nextID s)).
Proof.
  intros Hinv. unfold GetAll.
  rewrite foldl_append_copy by by apply map_pointers_valid.
  by rewrite length_fmap, length_map_to_list, contents_values.
Qed.

Lemma foldl_filter_copy done (l : list ptr) : ∀ (ps : list ptr) s,
  Forall (λ p, (p < length (heap s))%nat) l →
  foldl (λ acc task,
           if bool_decide (Done (load task acc.2) = done)
           then append_copy acc task else acc) (ps, s) l
  = (ps ++ seq (length (heap s))
             (length (filter (λ p, Done (load p s) = done) l)),
     mkTaskStore
       (heap s ++ ((λ p, load p s) <$> filter (λ p, Done (load p s) = done) l))
       (tasks s) (nextID s)).
Proof.
  induction l as [|p l IH]; intros ps s Hl.
  { simpl. rewrite !app_nil_r. by destruct s. }
  apply Forall_cons in Hl as [Hp Hl]. simpl foldl. cbn [snd].
  rewrite filter_cons. destruct (decide (Done (load p s) = done)) as [Hd|Hd].
  - rewrite (bool_decide_eq_true_2 _ Hd).
    change (append_copy (ps, s) p)
      with (ps ++ [length (heap s)],
            mkTaskStore (heap s ++ [load p s]) (tasks s) (nextID s)).
    set (s1 := mkTaskStore _ _ _).
    assert (∀ q, (q < length (heap s))%nat → load q s1 = load q s) as Hload.
    { intros q Hq. unfold load; simpl. by apply lookup_total_app_l. }
    assert (filter (λ q, Done (load q s1) = done) l
            = filter (λ q, Done (load q s) = done) l) as Hfilter.
    { clear IH. induction Hl as [|q l Hq _ IHl]; [done|].
      rewrite !filter_cons, IHl, Hload by done. done. }
    rewrite IH.
    + rewrite Hfilter. subst s1; simpl.
      rewrite length_app, Nat.add_1_r, <-!app_assoc. simpl. do 4 f_equal.
      apply Forall_fmap_ext_1, Forall_forall. intros q Hq.
      apply list_elem_of_filter in Hq as [_ Hq].
      rewrite Forall_forall in Hl. apply Hload. auto.
    + eapply Forall_impl; [apply Hl|]. intros q Hq. subst s1. cbn [heap].
      rewrite length_app. simpl in Hq. lia.
  - rewrite (bool_decide_eq_false_2 _ Hd). by apply IH.
Qed.


Lemma filter_fmap_Done done (f : ptr → Task) (l : list ptr) :
  filter (λ t, Done t = done) (f <$> l) = f <$> filter (λ p, Done (f p) = done) l.
Proof.
  induction l as [|p l IH]; [done|].
  rewrite fmap_cons, !filter_cons, IH. by case_decide.
Qed.

Lemma GetByStatus_result done s :
  store_inv s →
  GetByStatus done s
  = (seq (length (heap s))
         (length (filter (λ t, Done t = done) (snd <$> map_to_list (contents s)))),
     mkTaskStore
       (heap s ++ filter (λ t, Done t = done) (snd <$> map_to_list (contents s)))
       (tasks s) (nextID s)).
Proof.
  intros Hinv. unfold GetByStatus.
  rewrite foldl_filter_copy by by apply map_pointers_valid.
  by rewrite contents_values, filter_fmap_Done, length_fmap.
Qed.

Lemma fresh_pointers_private s (copies : list Task) p :
  store_inv s →
  p ∈ seq (length (heap s)) (length copies) →
  private p (mkTaskStore (heap s ++ copies) (tasks s) (nextID s)).
Proof.
  intros Hinv [Hlo Hhi]%elem_of_seq. split; simpl.
  - rewrite length_app. lia.
  - intros id q Hq%(ptrs_valid _ Hinv). lia.
Qed.

Lemma contents_appended s (copies : list Task) :
  store_inv s →
  contents (mkTaskStore (heap s ++ copies) (tasks s) (nextID s)) = contents s.
Proof.
  intros Hinv. apply (contents_extends s); [done|].
  repeat split. by exists copies.
Qed.

Lemma GetAll_returns_every_record_aux s :
  store_inv s →
  (λ p, load p (GetAll s).2) <$> (GetAll s).1 ≡ₚ snd <$> map_to_list (contents s)
  ∧ contents (GetAll s).2 = contents s.
Proof.
  intros Hinv. rewrite (GetAll_result s Hinv). cbn [fst snd].
  assert (size (tasks s) = length (snd <$> map_to_list (contents s))) as Hsize.
  { rewrite length_fmap, length_map_to_list. unfold contents.
    by rewrite map_size_fmap. }
  split; [by rewrite Hsize, loads_of_appended|by apply contents_appended].
Qed.

Lemma GetByStatus_returns_the_matching_records_aux (done : bool) s :
  store_inv s →
  (λ p, load p (GetByStatus done s).2) <$> (GetByStatus done s).1
    ≡ₚ filter (λ t, Done t = done) (snd <$> map_to_list (contents s))
  ∧ contents (GetByStatus done s).2 = contents s.
Proof.
  intros Hinv. rewrite (GetByStatus_result done s Hinv). cbn [fst snd].
  split; [by rewrite loads_of_appended|by apply contents_appended].
Qed.

(** A pointer the store does not hold stays so, and designates the same
    object, whatever is called on the store. *)
Lemma private_run p ops s :
  store_inv s → nextID s + Z.of_nat (creates ops) ≤ GoInt.int_max →
  private p s → private p (run ops s) ∧ load p (run ops s) = load p s.
Proof.
  revert s. induction ops as [|o ops IH]; intros s Hinv Hn Hp; [done|].
  rewrite run_cons. rewrite creates_cons in Hn.
  pose proof (ids_from_1 _ Hinv).
  destruct (private_call p o s Hinv Hp) as [Hp1 Hl1].
  destruct (IH (call o s).2) as [Hp2 Hl2]; [| |done|].
  - apply call_inv; [done|]. intros Hc. rewrite Hc in Hn. lia.
  - rewrite call_nextID. destruct (is_create o); [|lia].
    rewrite incr_no_overflow; unfold GoInt.int_min; lia.
  - split; [done|congruence].
Qed.

(** The store of the examples: two tasks, the second one done. *)
Definition two_tasks : TaskStore :=
  run [OpCreate "write"; OpCreate "read"; OpUpdate 2 true] NewTaskStore.

Lemma two_tasks_inv : store_inv two_tasks.
Proof. apply run_inv; [apply store_inv_NewTaskStore|by vm_compute]. Qed.

(** X1.  A task created is found under its id: [GetByID] of the id [Create]
    has assigned returns a task with that id, the title given and
    [Done = false], through a pointer other than the one [Create] returned. *)
Theorem Create_then_GetByID (title : string) s :
  ∃ p s', GetByID (nextID s) (Create title s).2 = (inl p, s')
          ∧ load p s' = mkTask (nextID s) title false
          ∧ p ≠ (Create title s).1.
Proof.
  assert (tasks (Create title s).2 !! nextID s = Some (Create title s).1) as Hp.
  { simpl. apply lookup_insert_eq. }
  rewrite (GetByID_found _ _ _ Hp). do 2 eexists. split; [done|]. split.
  - pose proof (load_new (load (Create title s).1 (Create title s).2)
                  (Create title s).2) as Hload.
    rewrite Create_load in Hload |- *. exact Hload.
  - simpl. rewrite length_app. simpl. lia.
Qed.

(** X2.  In a well-formed store, [GetByID] of an absent id returns
    [ErrTaskNotFound] and changes nothing; of a present id it returns a
    pointer the store does not hold, to a task equal to the record of the
    store, whose records are as before.  What is called on the store later
    does not change the task returned, and a write through the pointer
    returned does not change the records of the store. *)
Theorem GetByID_returns_a_copy s id :
  store_inv s →
  match GetByID id s with
  | (inr err, s') => err = ErrTaskNotFound ∧ s' = s ∧ contents s !! id = None
  | (inl p, s') =>
      contents s !! id = Some (load p s')
      ∧ contents s' = contents s
      ∧ private p s'
      ∧ (∀ ops, nextID s + Z.of_nat (creates ops) ≤ GoInt.int_max →
                load p (run ops s') = load p s')
      ∧ (∀ t, contents (poke p t s') = contents s')
  end.
Proof.
  intros Hinv. pose proof (GetByID_extends id s) as Hext.
  destruct (GetByID id s) as [[p|err] s'] eqn:Hget.
  - destruct (GetByID_copy _ _ _ _ Hinv Hget) as [Hp Hc]. cbn [snd] in Hext.
    pose proof (store_inv_extends _ _ Hinv Hext) as Hinv'.
    split; [done|]. split; [by apply contents_extends|]. split; [done|]. split.
    + intros ops Hn. apply private_run; [done| |done].
      by destruct Hext as (_ & -> & _).
    + intros t. by apply private_poke.
  - unfold GetByID in Hget. rewrite contents_lookup.
    destruct (tasks s !! id); [done|]. by injection Hget as <- <-.
Qed.

Lemma GetByID_returns_a_copy_witness :
  store_inv two_tasks
  ∧ match GetByID 2 two_tasks with
    | (inr err, s') =>
        err = ErrTaskNotFound ∧ s' = two_tasks ∧ contents two_tasks !! 2 = None
    | (inl p, s') =>
        contents two_tasks !! 2 = Some (load p s')
        ∧ contents s' = contents two_tasks
        ∧ private p s'
        ∧ (∀ ops, nextID two_tasks + Z.of_nat (creates ops) ≤ GoInt.int_max →
                  load p (run ops s') = load p s')
        ∧ (∀ t, contents (poke p t s') = contents s')
    end.
Proof.
  split; [apply two_tasks_inv|].
  apply (GetByID_returns_a_copy two_tasks 2), two_tasks_inv.
Defined.

(** X3.  In a well-formed store, [GetAll] returns one pointer per record:
    the tasks they designate are the records of the store, in some order;
    the pointers are distinct and none is held by the store, whose records
    are as before. *)
Theorem GetAll_returns_every_record s :
  store_inv s →
  (λ p, load p (GetAll s).2) <$> (GetAll s).1 ≡ₚ snd <$> map_to_list (contents s)
  ∧ length (GetAll s).1 = size (contents s)
  ∧ NoDup (GetAll s).1
  ∧ (∀ p, p ∈ (GetAll s).1 → private p (GetAll s).2)
  ∧ contents (GetAll s).2 = contents s.
Proof.
  intros Hinv. rewrite (GetAll_result s Hinv). cbn [fst snd].
  assert (size (tasks s) = length (snd <$> map_to_list (contents s))) as Hsize.
  { rewrite length_fmap, length_map_to_list. unfold contents.
    by rewrite map_size_fmap. }
  split; [by rewrite Hsize, loads_of_appended|].
  split; [unfold contents; by rewrite length_seq, map_size_fmap|].
  split; [apply NoDup_seq|]. split; [|by apply contents_appended].
  intros p Hp. rewrite Hsize in Hp. by apply fresh_pointers_private.
Qed.

Lemma GetAll_returns_every_record_witness :
  store_inv two_tasks
  ∧ (λ p, load p (GetAll two_tasks).2) <$> (GetAll two_tasks).1
    ≡ₚ snd <$> map_to_list (contents two_tasks)
  ∧ length (GetAll two_tasks).1 = size (contents two_tasks)
  ∧ NoDup (GetAll two_tasks).1
  ∧ (∀ p, p ∈ (GetAll two_tasks).1 → private p (GetAll two_tasks).2)
  ∧ contents (GetAll two_tasks).2 = contents two_tasks.
Proof.
  split; [apply two_tasks_inv|].
  apply (GetAll_returns_every_record two_tasks), two_tasks_inv.
Defined.

(** X4.  In a well-formed store, [GetByStatus done] returns one pointer per
    record whose flag is [done] and none for the others: the tasks they
    designate are those records, in some order; the pointers are distinct
    and none is held by the store, whose records are as before. *)
Theorem GetByStatus_returns_the_matching_records (done : bool) s :
  store_inv s →
  (λ p, load p (GetByStatus done s).2) <$> (GetByStatus done s).1
    ≡ₚ filter (λ t, Done t = done) (snd <$> map_to_list (contents s))
  ∧ NoDup (GetByStatus done s).1
  ∧ (∀ p, p ∈ (GetByStatus done s).1 → private p (GetByStatus done s).2)
  ∧ contents (GetByStatus done s).2 = contents s.
Proof.
  intros Hinv. rewrite (GetByStatus_result done s Hinv). cbn [fst snd].
  split; [by rewrite loads_of_appended|].
  split; [apply NoDup_seq|]. split; [|by apply contents_appended].
  intros p Hp. by apply fresh_pointers_private.
Qed.

Lemma GetByStatus_returns_the_matching_records_witness :
  store_inv two_tasks
  ∧ (λ p, load p (GetByStatus true two_tasks).2) <$> (GetByStatus true two_tasks).1
    ≡ₚ filter (λ t, Done t = true) (snd <$> map_to_list (contents two_tasks))
  ∧ NoDup (GetByStatus true two_tasks).1
  ∧ (∀ p, p ∈ (GetByStatus true two_tasks).1 →
          private p (GetByStatus true two_tasks).2)
  ∧ contents (GetByStatus true two_tasks).2 = contents two_tasks.
Proof.
  split; [apply two_tasks_inv|].
  apply (GetByStatus_returns_the_matching_records true two_tasks), two_tasks_inv.
Defined.

(** On the store of the examples: the done tasks, and all of them. *)
Example GetByStatus_two_tasks :
  (λ p, load p (GetByStatus true two_tasks).2) <$> (GetByStatus true two_tasks).1
  = [mkTask 2 "read" true]
  ∧ (λ p, load p (GetByStatus false two_tasks).2) <$> (GetByStatus false two_tasks).1
    = [mkTask 1 "write" false].
Proof. by vm_compute. Qed.

End store_reads.

(** ** The task store: writes *)
Section store_writes.
Import store.
Implicit Types (s : TaskStore) (p : ptr) (id : Z) (t : Task).

(** X5.  In a well-formed store, [Update id done] changes nothing but the
    flag of the record under [id]: the ids in use and the id counter stay,
    the record keeps its id and title, every other record is as before, and
    of two updates of the same id the later one decides. *)
Theorem Update_sets_only_the_flag s id (done : bool) :
  store_inv s →
  tasks (Update id done s).2 = tasks s
  ∧ nextID (Update id done s).2 = nextID s
  ∧ (∀ t, contents s !! id = Some t →
          (Update id done s).1 = None
          ∧ contents (Update id done s).2 !! id
            = Some (mkTask (ID t) (Title t) done))
  ∧ (∀ i, i ≠ id → contents (Update id done s).2 !! i = contents s !! i)
  ∧ (∀ done', contents (Update id done' (Update id done s).2).2
              = contents (Update id done' s).2).
Proof.
  intros Hinv. pose proof (Update_inv id done s Hinv) as Hinv1.
  split; [|split; [|split; [|split]]].
  - unfold Update. by destruct (tasks s !! id).
  - unfold Update. by destruct (tasks s !! id).
  - intros t Ht. rewrite Update_contents, lookup_alter_eq, Ht by done.
    split; [|done]. rewrite contents_lookup in Ht. unfold Update.
    by destruct (tasks s !! id).
  - intros i Hi. by rewrite Update_contents, lookup_alter_ne by done.
  - intros done'. rewrite !Update_contents by done.
    apply map_eq. intros i. rewrite !lookup_alter.
    repeat case_decide; try done. by destruct (contents s !! id).
Qed.

Lemma Update_sets_only_the_flag_witness :
  store_inv two_tasks
  ∧ tasks (Update 1 true two_tasks).2 = tasks two_tasks
  ∧ nextID (Update 1 true two_tasks).2 = nextID two_tasks
  ∧ (∀ t, contents two_tasks !! 1 = Some t →
          (Update 1 true two_tasks).1 = None
          ∧ contents (Update 1 true two_tasks).2 !! 1
            = Some (mkTask (ID t) (Title t) true))
  ∧ (∀ i, i ≠ 1 → contents (Update 1 true two_tasks).2 !! i = contents two_tasks !! i)
  ∧ (∀ done', contents (Update 1 done' (Update 1 true two_tasks).2).2
              = contents (Update 1 done' two_tasks).2).
Proof.
  split; [apply two_tasks_inv|].
  apply (Update_sets_only_the_flag two_tasks 1 true), two_tasks_inv.
Defined.

(** X6.  [Delete] of an absent id returns [ErrTaskNotFound] and changes
    nothing.  [Delete] of a present id returns no error and removes that
    record and no other; the id counter and the task objects stay as they
    are; after it [GetByID], [Update] and a second [Delete] of the id all
    return [ErrTaskNotFound]. *)
Theorem Delete_removes_the_record s id :
  (tasks s !! id = None → Delete id s = (Some ErrTaskNotFound, s))
  ∧ (is_Some (tasks s !! id) →
     (Delete id s).1 = None
     ∧ contents (Delete id s).2 = delete id (contents s)
     ∧ nextID (Delete id s).2 = nextID s
     ∧ heap (Delete id s).2 = heap s
     ∧ GetByID id (Delete id s).2 = (inr ErrTaskNotFound, (Delete id s).2)
     ∧ (∀ done, Update id done (Delete id s).2
                = (Some ErrTaskNotFound, (Delete id s).2))
     ∧ Delete id (Delete id s).2 = (Some ErrTaskNotFound, (Delete id s).2)).
Proof.
  split.
  - intros Hid. unfold Delete. by rewrite Hid.
  - intros [p Hp]. split; [|split; [apply Delete_contents|]].
    { unfold Delete. by rewrite Hp. }
    assert (tasks (Delete id s).2 !! id = None) as Hgone.
    { unfold Delete. rewrite Hp. simpl. apply lookup_delete_eq. }
    repeat split.
    + unfold Delete. by rewrite Hp.
    + unfold Delete. by rewrite Hp.
    + unfold GetByID. by rewrite Hgone.
    + intros done. by apply Update_absent.
    + unfold Delete at 1. by rewrite Hgone.
Qed.

(** *** Ids *)

Lemma run_nextID ops s :
  1 ≤ nextID s → nextID s + Z.of_nat (creates ops) ≤ GoInt.int_max →
  nextID (run ops s) = nextID s + Z.of_nat (creates ops).
Proof.
  revert s. induction ops as [|o ops IH]; intros s Hlo Hn.
  { change (creates []) with 0%nat. simpl. lia. }
  rewrite run_cons. rewrite creates_cons in Hn |- *.
  pose proof (call_nextID o s) as Hnext.
  destruct (is_create o).
  - rewrite incr_no_overflow in Hnext by (unfold GoInt.int_min; lia).
    rewrite IH; rewrite Hnext; lia.
  - rewrite IH; rewrite Hnext; lia.
Qed.

(** Every record is stored under its own id, and ids start at 1. *)
Definition keyed s : Prop :=
  ∀ id t, contents s !! id = Some t → ID t = id ∧ 1 ≤ id.

Lemma call_keyed o s : store_inv s → keyed s → keyed (call o s).2.
Proof.
  intros Hinv Hk id t. rewrite call_contents by done.
  destruct o as [title|i| |d|i d|i]; try apply Hk.
  - rewrite lookup_insert. case_decide; [|apply Hk].
    intros [= <-]. subst id. split; [done|apply (ids_from_1 _ Hinv)].
  - rewrite lookup_alter. case_decide; [|apply Hk]. subst i.
    destruct (contents s !! id) as [t0|] eqn:Ht0; [|done].
    intros [= <-]. apply (Hk _ _ Ht0).
  - intros [_ Ht]%lookup_delete_Some. by apply Hk.
Qed.

Lemma run_keyed ops s :
  store_inv s → nextID s + Z.of_nat (creates ops) ≤ GoInt.int_max →
  keyed s → keyed (run ops s).
Proof.
  revert s. induction ops as [|o ops IH]; intros s Hinv Hn Hk; [done|].
  rewrite run_cons. rewrite creates_cons in Hn.
  pose proof (ids_from_1 _ Hinv).
  apply IH; [| |by apply call_keyed].
  - apply call_inv; [done|]. intros Hc. rewrite Hc in Hn. lia.
  - rewrite call_nextID. destruct (is_create o); [|lia].
    rewrite incr_no_overflow; unfold GoInt.int_min; lia.
Qed.

(** X7.  Whatever is called on a new store, fewer than 2^63 - 1 of the
    calls being [Create]: the id counter is one more than the number of
    [Create] calls, and every record the store holds is kept under the id it
    bears, an id between 1 and the counter. *)
Theorem records_are_kept_under_their_ids (ops : list Op) :
  Z.of_nat (creates ops) < 2 ^ 63 - 1 →
  nextID (run ops NewTaskStore) = 1 + Z.of_nat (creates ops)
  ∧ ∀ id t, contents (run ops NewTaskStore) !! id = Some t →
            ID t = id ∧ 1 ≤ id < nextID (run ops NewTaskStore).
Proof.
  intros Hn.
  assert (nextID NewTaskStore + Z.of_nat (creates ops) ≤ GoInt.int_max) as Hn'.
  { simpl. unfold GoInt.int_max. lia. }
  split; [by apply run_nextID|].
  intros id t Ht.
  pose proof (run_inv ops _ store_inv_NewTaskStore Hn') as Hinv.
  destruct (run_keyed ops NewTaskStore store_inv_NewTaskStore Hn') with id t
    as [Hid Hlo]; [|done|].
  { intros i t0. unfold contents; simpl. by rewrite fmap_empty, lookup_empty. }
  repeat split; [done..|].
  rewrite contents_lookup in Ht.
  destruct (tasks (run ops NewTaskStore) !! id) as [p|] eqn:Hp; [|done].
  by eapply ids_below.
Qed.

Definition busy_day : list Op :=
  [OpCreate "write"; OpCreate "read"; OpDelete 1; OpCreate "sleep";
   OpUpdate 3 true; OpGetAll].

Lemma records_are_kept_under_their_ids_witness :
  Z.of_nat (creates busy_day) < 2 ^ 63 - 1
  ∧ nextID (run busy_day NewTaskStore) = 1 + Z.of_nat (creates busy_day)
  ∧ ∀ id t, contents (run busy_day NewTaskStore) !! id = Some t →
            ID t = id ∧ 1 ≤ id < nextID (run busy_day NewTaskStore).
Proof.
  split; [by vm_compute|].
  apply (records_are_kept_under_their_ids busy_day). by vm_compute.
Defined.

(** An id below the counter that is not in use never comes into use. *)
Lemma run_absent id ops s :
  store_inv s → nextID s + Z.of_nat (creates ops) ≤ GoInt.int_max →
  contents s !! id = None → id < nextID s →
  contents (run ops s) !! id = None.
Proof.
  revert s. induction ops as [|o ops IH]; intros s Hinv Hn Hid Hlt; [done|].
  rewrite run_cons. rewrite creates_cons in Hn.
  pose proof (ids_from_1 _ Hinv).
  assert (is_create o = true → nextID s < GoInt.int_max) as Hc.
  { intros Hc. rewrite Hc in Hn. lia. }
  apply IH.
  - by apply call_inv.
  - rewrite call_nextID. destruct (is_create o); [|lia].
    rewrite incr_no_overflow; unfold GoInt.int_min; lia.
  - rewrite call_contents by done.
    destruct o as [title|i| |d|i d|i]; try done.
    + rewrite lookup_insert_ne; [done|lia].
    + rewrite lookup_alter. case_decide; [|done]. subst i. by rewrite Hid.
    + rewrite lookup_delete. by case_decide.
  - rewrite call_nextID. destruct (is_create o); [|done].
    rewrite incr_no_overflow; [lia|]. unfold GoInt.int_min.
    specialize (Hc eq_refl). lia.
Qed.

(** X8.  In a well-formed store, an id that has been deleted is not given
    to another task: whatever is called after the [Delete], short of an
    overflow of the id counter, no record is stored under that id and
    [GetByID] of it returns [ErrTaskNotFound]. *)
Theorem deleted_id_is_not_reused s id (ops : list Op) :
  store_inv s → is_Some (tasks s !! id) →
  nextID s + Z.of_nat (creates ops) ≤ GoInt.int_max →
  contents (run ops (Delete id s).2) !! id = None
  ∧ (GetByID id (run ops (Delete id s).2)).1 = inr ErrTaskNotFound.
Proof.
  intros Hinv [p Hp] Hn.
  assert (contents (run ops (Delete id s).2) !! id = None) as Hgone.
  { apply run_absent.
    - by apply Delete_inv.
    - unfold Delete. by rewrite Hp.
    - rewrite Delete_contents. apply lookup_delete_eq.
    - unfold Delete. rewrite Hp. simpl. by eapply ids_below. }
  split; [done|]. rewrite contents_lookup in Hgone. unfold GetByID.
  by destruct (tasks (run ops (Delete id s).2) !! id).
Qed.

Lemma deleted_id_is_not_reused_witness :
  store_inv two_tasks ∧ is_Some (tasks two_tasks !! 1)
  ∧ nextID two_tasks + Z.of_nat (creates busy_day) ≤ GoInt.int_max
  ∧ contents (run busy_day (Delete 1 two_tasks).2) !! 1 = None
  ∧ (GetByID 1 (run busy_day (Delete 1 two_tasks).2)).1 = inr ErrTaskNotFound.
Proof.
  split; [apply two_tasks_inv|]. split; [vm_compute; by eexists|].
  split; [by vm_compute|].
  apply (deleted_id_is_not_reused two_tasks 1 busy_day);
    [apply two_tasks_inv|vm_compute; by eexists|by vm_compute].
Defined.

End store_writes.

(** ** The rate limiter, further *)
Section limiter_more.
Import middleware.
Implicit Types (w : World) (ip : string) (v : visitor) (c : time.Clock).

(** The visitor [allow] leaves behind, for a client known or not. *)
Lemma allow_result ip w :
  ∃ v now c,
    allow ip w
    = ((visit (rate (rateLimiter w)) now v).1,
       set_rateLimiter
         (mkRateLimiter
            (<[ip := (visit (rate (rateLimiter w)) now v).2]>
               (visitors (rateLimiter w)))
            (rate (rateLimiter w)) (cleanup (rateLimiter w)))
         (set_clock c w))
    ∧ time.reading c = now
    ∧ (visitors (rateLimiter w) !! ip = None → tokens v = rate (rateLimiter w))
    ∧ (∀ v0, visitors (rateLimiter w) !! ip = Some v0 →
             v = v0 ∧ now = time.peek 0 (clock w)).
Proof.
  destruct (visitors (rateLimiter w) !! ip) as [v0|] eqn:Hv.
  - exists v0, (time.Now (clock w)).1, (time.Now (clock w)).2.
    rewrite (allow_known _ _ _ Hv). split; [done|].
    split; [apply Now_reading|]. split; [done|]. by intros ? [= <-].
  - rewrite (allow_fresh _ _ Hv).
    set (v1 := mkVisitor _ _ _). set (w1 := with_visitor _ _ _).
    exists v1, (time.Now (clock w1)).1, (time.Now (clock w1)).2.
    rewrite (allow_known ip v1 w1) by apply lookup_insert_eq.
    split; [|split; [apply Now_reading|by split]].
    unfold with_visitor. simpl. by rewrite insert_insert_eq.
Qed.

(** X9.  A call of [allow] for a client writes the visitor of that client
    and no other, and leaves the capacity, the cleanup interval, the task
    store, the counter of request ids and the log as they are.  Admitted or
    not, the client is recorded as seen at the reading of the clock the call
    has taken, and a call that is denied leaves a bucket without tokens. *)
Theorem allow_touches_one_visitor ip w :
  (∀ ip', ip' ≠ ip →
     visitors (rateLimiter (allow ip w).2) !! ip' = visitors (rateLimiter w) !! ip')
  ∧ rate (rateLimiter (allow ip w).2) = rate (rateLimiter w)
  ∧ cleanup (rateLimiter (allow ip w).2) = cleanup (rateLimiter w)
  ∧ taskStore (allow ip w).2 = taskStore w
  ∧ requestIDCounter (allow ip w).2 = requestIDCounter w
  ∧ logged (allow ip w).2 = logged w
  ∧ ∃ v', visitors (rateLimiter (allow ip w).2) !! ip = Some v'
          ∧ lastSeen v' = time.reading (clock (allow ip w).2)
          ∧ ((allow ip w).1 = false → tokens v' ≤ 0).
Proof.
  destruct (allow_result ip w) as (v & now & c & -> & Hc & _ & _). cbn [fst snd].
  split; [intros ip' Hne; simpl; by rewrite lookup_insert_ne|].
  do 5 (split; [done|]).
  eexists. split; [simpl; apply lookup_insert_eq|].
  split; [simpl; done|].
  unfold visit; simpl. intros Hdeny. rewrite Hdeny. by apply Z.ltb_ge.
Qed.


(** *** A limiter without capacity *)

Definition exhausted w : Prop :=
  ∀ ip v, visitors (rateLimiter w) !! ip = Some v → tokens v ≤ 0.

Lemma allow_exhausted ip w :
  rate (rateLimiter w) ≤ 0 → exhausted w →
  (allow ip w).1 = false ∧ exhausted (allow ip w).2.
Proof.
  intros Hr Hex.
  destruct (allow_result ip w) as (v & now & c & -> & _ & Hnew & Hold).
  assert (tokens v ≤ 0) as Hv.
  { destruct (visitors (rateLimiter w) !! ip) as [v0|] eqn:Hv0.
    - destruct (Hold v0 eq_refl) as [-> _]. by eapply Hex.
    - rewrite Hnew by done. done. }
  assert ((visit (rate (rateLimiter w)) now v).1 = false
          ∧ tokens (visit (rate (rateLimiter w)) now v).2 ≤ 0) as [Hdeny Htok].
  { unfold visit; simpl. destruct (refills now v).
    - replace (0 <? rate (rateLimiter w)) with false
        by (symmetry; by apply Z.ltb_ge). done.
    - replace (0 <? tokens v) with false by (symmetry; by apply Z.ltb_ge). done. }
  cbn [fst snd]. split; [done|].
  intros ip' v'. simpl. rewrite lookup_insert.
  case_decide; [by intros [= <-]|apply Hex].
Qed.

Lemma limiter_run_exhausted es w :
  rate (rateLimiter w) ≤ 0 → exhausted w →
  rate (rateLimiter (limiter_run es w)) ≤ 0 ∧ exhausted (limiter_run es w).
Proof.
  revert w. induction es as [|e es IH]; intros w Hr Hex; [done|].
  change (limiter_run (e :: es) w) with (limiter_run es (limiter_step e w)).
  apply IH; destruct e as [ip|]; simpl.
  - by rewrite allow_rate.
  - destruct (cleanup_loop_visitors (map_to_list (visitors (rateLimiter w))) w)
      as [Hrate _].
    unfold cleanupVisitors_tick, bind, get_rateLimiter. lia.
  - by apply allow_exhausted.
  - destruct (cleanup_loop_visitors (map_to_list (visitors (rateLimiter w))) w)
      as [_ Hsub].
    unfold cleanupVisitors_tick, bind, get_rateLimiter.
    intros ip v Hv. eapply Hex, lookup_weaken; done.
Qed.

(** X10.  A limiter made by [NewRateLimiter] with a capacity of zero or less
    admits nothing: whatever calls and cleanup ticks came before, on any
    clock, [allow] returns [false] for every client. *)
Theorem no_capacity_admits_nothing (requestsPerMinute : Z) (w : World)
    (es : list LimiterEvent) (ip : string) :
  requestsPerMinute ≤ 0 →
  rateLimiter w = NewRateLimiter requestsPerMinute →
  (allow ip (limiter_run es w)).1 = false.
Proof.
  intros Hr Hrl.
  destruct (limiter_run_exhausted es w) as [Hr' Hex].
  - by rewrite Hrl.
  - intros ip' v. rewrite Hrl. simpl. by rewrite lookup_empty.
  - by apply allow_exhausted.
Qed.

Definition closed_world : World :=
  mkWorld sample_clock store.NewTaskStore (NewRateLimiter 0) 0 [].

Lemma no_capacity_admits_nothing_witness :
  0 ≤ 0
  ∧ rateLimiter closed_world = NewRateLimiter 0
  ∧ (allow "a" (limiter_run [EvAllow "a"; EvTick; EvAllow "b"] closed_world)).1
    = false.
Proof.
  split; [done|]. split; [done|].
  by apply (no_capacity_admits_nothing 0 closed_world
              [EvAllow "a"; EvTick; EvAllow "b"] "a").
Defined.


(** *** The burst at the boundary of two windows *)

(** The clock after [n] readings. *)
Fixpoint advance (n : nat) (c : time.Clock) : time.Clock :=
  match n with
  | O => c
  | S n' => advance n' (time.Now c).2
  end.

Lemma peek_advance n i c : time.peek i (advance n c) = time.peek (n + i) c.
Proof. revert c. induction n as [|n IH]; intros c; [done|]. apply IH. Qed.

Lemma allow_n_app a b ip w :
  (allow_n (a + b) ip w).1
  = (allow_n a ip w).1 ++ (allow_n b ip (allow_n a ip w).2).1.
Proof.
  revert w. induction a as [|a IH]; intros w; [done|].
  change (S a + b)%nat with (S (a + b)). rewrite !allow_n_cons. cbn [fst snd].
  by rewrite IH.
Qed.

(** Calls that all find a token: the results, and the visitor and the clock
    they leave. *)
Lemma allow_n_admitted m : ∀ k ip v w,
  visitors (rateLimiter w) !! ip = Some v →
  tokens v = Z.of_nat k → Z.of_nat k ≤ GoInt.int_max → (m ≤ k)%nat →
  (∀ i, (i < m)%nat →
        time.Sub (time.peek i (clock w)) (lastRefill v) < time.Minute) →
  (allow_n m ip w).1 = replicate m true
  ∧ rate (rateLimiter (allow_n m ip w).2) = rate (rateLimiter w)
  ∧ clock (allow_n m ip w).2 = advance m (clock w)
  ∧ ∃ v', visitors (rateLimiter (allow_n m ip w).2) !! ip = Some v'
          ∧ tokens v' = Z.of_nat (k - m)
          ∧ lastRefill v' = lastRefill v.
Proof.
  induction m as [|m IH]; intros k ip v w Hv Hk Hmax Hm Hwin.
  { simpl. repeat split; [done..|]. exists v. rewrite Nat.sub_0_r. done. }
  destruct k as [|k]; [lia|].
  rewrite allow_n_cons. cbn [fst snd]. rewrite (allow_known _ _ _ Hv). cbn [fst snd].
  assert (refills (time.Now (clock w)).1 v = false) as Hno.
  { unfold refills. apply Z.leb_gt. apply (Hwin 0%nat). lia. }
  unfold visit. rewrite Hno, Hk. cbn [fst snd].
  replace (0 <? Z.of_nat (S k)) with true by (symmetry; apply Z.ltb_lt; lia).
  set (v1 := mkVisitor _ _ _). set (w1 := with_visitor _ _ _).
  destruct (IH k ip v1 w1) as (Hres & Hrate & Hclock & v' & Hv' & Htok & Hrefill).
  - apply lookup_insert_eq.
  - simpl. rewrite decr_no_overflow; unfold GoInt.int_min; lia.
  - lia.
  - lia.
  - intros i Hi. apply (Hwin (S i)). lia.
  - rewrite Hres. split; [done|]. split; [done|]. split; [done|].
    exists v'. by replace (S k - S m)%nat with (k - m)%nat by lia.
Qed.

(** X11.  The window is fixed, not sliding: a client with a full bucket of
    [n] tokens whose next [n] calls fall in its window, the call after them
    a minute or more after the start of the window, and [n - 1] further
    calls less than a minute later still, is admitted [2 n] times in a row,
    however short the time between the first and the last of these calls. *)
Theorem burst_at_the_window_boundary (n : nat) (ip : string) (v : visitor)
    (w : World) :
  (0 < n)%nat → Z.of_nat n ≤ GoInt.int_max →
  rate (rateLimiter w) = Z.of_nat n →
  visitors (rateLimiter w) !! ip = Some v → tokens v = Z.of_nat n →
  time.Sub (time.peek (n - 1) (clock w)) (lastRefill v) < time.Minute →
  time.Minute ≤ time.Sub (time.peek n (clock w)) (lastRefill v) →
  time.Sub (time.peek (n + n - 1) (clock w)) (time.peek n (clock w)) < time.Minute →
  (allow_n (n + n) ip w).1 = replicate (n + n) true.
Proof.
  intros Hn Hmax Hrate Hv Htok Hin Hout Hnext.
  rewrite allow_n_app.
  destruct (allow_n_admitted n n ip v w) as (-> & Hrate1 & Hclock1 & v1 & Hv1 & Htok1 & Hrefill1);
    [done..|lia| |].
  { intros i Hi. eapply Z.le_lt_trans; [|apply Hin].
    apply Sub_mono, peek_mono. lia. }
  rewrite replicate_add. f_equal.
  set (w1 := (allow_n n ip w).2) in *.
  destruct n as [|m]; [lia|].
  rewrite allow_n_cons. cbn [fst]. rewrite (allow_known _ _ _ Hv1). cbn [fst snd].
  assert ((time.Now (clock w1)).1 = time.peek (S m) (clock w)) as Hnow.
  { change (time.Now (clock w1)).1 with (time.peek 0 (clock w1)).
    rewrite Hclock1, peek_advance. f_equal. lia. }
  assert (refills (time.Now (clock w1)).1 v1 = true) as Hyes.
  { unfold refills. apply Z.leb_le. by rewrite Hnow, Hrefill1. }
  unfold visit. rewrite Hyes, Hrate1, Hrate. cbn [fst snd].
  replace (0 <? Z.of_nat (S m)) with true by (symmetry; apply Z.ltb_lt; lia).
  set (v2 := mkVisitor _ _ _). set (w2 := with_visitor _ _ _).
  rewrite (allow_n_window m m ip v2 w2).
  - by rewrite Nat.min_id, Nat.sub_diag, app_nil_r.
  - apply lookup_insert_eq.
  - simpl. rewrite decr_no_overflow; unfold GoInt.int_min; lia.
  - lia.
  - intros i Hi. simpl lastRefill. rewrite Hnow.
    eapply Z.le_lt_trans; [|apply Hnext]. apply Sub_mono.
    change (clock w2) with (advance 1 (clock w1)).
    rewrite peek_advance, Hclock1, peek_advance. apply peek_mono. lia.
Qed.

(** A clock whose first ten readings fall in the last hundredth of a second
    of a minute, and the next ten in the two hundredths that follow. *)
Definition boundary_clock : time.Clock :=
  time.mkClock 0 ([59990000000] ++ replicate 9 1000000
                  ++ [2000000] ++ replicate 9 1000000)%N.

Definition boundary_world : World :=
  with_visitor "10.0.0.7:4242" (mkVisitor 10 0 0) (main.boot boundary_clock).

Lemma burst_at_the_window_boundary_witness :
  (0 < 10)%nat ∧ Z.of_nat 10 ≤ GoInt.int_max
  ∧ rate (rateLimiter boundary_world) = Z.of_nat 10
  ∧ visitors (rateLimiter boundary_world) !! "10.0.0.7:4242"
    = Some (mkVisitor 10 0 0)
  ∧ tokens (mkVisitor 10 0 0) = Z.of_nat 10
  ∧ time.Sub (time.peek (10 - 1) (clock boundary_world)) 0 < time.Minute
  ∧ time.Minute ≤ time.Sub (time.peek 10 (clock boundary_world)) 0
  ∧ time.Sub (time.peek (10 + 10 - 1) (clock boundary_world))
             (time.peek 10 (clock boundary_world)) < time.Minute
  ∧ (allow_n (10 + 10) "10.0.0.7:4242" boundary_world).1
    = replicate (10 + 10) true.
Proof.
  split; [lia|]. do 7 (split; [by vm_compute|]).
  apply (burst_at_the_window_boundary 10 "10.0.0.7:4242" (mkVisitor 10 0 0)
           boundary_world); first [lia | by vm_compute].
Defined.

(** Twenty calls within 21 milliseconds, all admitted. *)
Example burst_of_twenty :
  (allow_n 20 "10.0.0.7:4242" boundary_world).1 = replicate 20 true
  ∧ time.peek 19 (clock boundary_world) - time.peek 0 (clock boundary_world)
    = 20000000.
Proof. by vm_compute. Qed.


(** *** The cleanup *)

(** The loop of [cleanupVisitors] over the entries [l]. *)
Definition sweep (l : list (string * visitor)) (w : World) : World :=
  (for_range l (λ '(ip, v), cleanup_visitor ip v) w).2.

Lemma cleanup_visitor_unfold ip v w :
  (cleanup_visitor ip v w).2 =
    if cleanup (rateLimiter w) <? time.Sub (time.peek 0 (clock w)) (lastSeen v)
    then (delete_visitor ip (set_clock (time.Now (clock w)).2 w)).2
    else set_clock (time.Now (clock w)).2 w.
Proof.
  unfold cleanup_visitor, bind, get_rateLimiter, time_Since, bind, time_Now, ret.
  simpl. destruct (time.Now (clock w)) as [now c]; simpl.
  by destruct (cleanup (rateLimiter w) <? _).
Qed.

Lemma sweep_cons ip v l w :
  sweep ((ip, v) :: l) w = sweep l (cleanup_visitor ip v w).2.
Proof.
  unfold sweep. simpl. unfold bind. by destruct (cleanup_visitor ip v w).
Qed.

Lemma cleanup_visitor_frame ip v w :
  cleanup (rateLimiter (cleanup_visitor ip v w).2) = cleanup (rateLimiter w)
  ∧ clock (cleanup_visitor ip v w).2 = advance 1 (clock w)
  ∧ taskStore (cleanup_visitor ip v w).2 = taskStore w
  ∧ requestIDCounter (cleanup_visitor ip v w).2 = requestIDCounter w
  ∧ logged (cleanup_visitor ip v w).2 = logged w.
Proof. rewrite cleanup_visitor_unfold. by case_match. Qed.

Lemma sweep_frame l : ∀ w,
  cleanup (rateLimiter (sweep l w)) = cleanup (rateLimiter w)
  ∧ clock (sweep l w) = advance (length l) (clock w)
  ∧ taskStore (sweep l w) = taskStore w
  ∧ requestIDCounter (sweep l w) = requestIDCounter w
  ∧ logged (sweep l w) = logged w.
Proof.
  induction l as [|[ip v] l IH]; intros w; [done|].
  rewrite sweep_cons.
  destruct (cleanup_visitor_frame ip v w) as (Hc & Hk & Hs & Hn & Hl).
  destruct (IH (cleanup_visitor ip v w).2) as (-> & -> & -> & -> & ->).
  by rewrite Hc, Hk, Hs, Hn, Hl.
Qed.

Lemma sweep_subseteq l w :
  visitors (rateLimiter (sweep l w)) ⊆ visitors (rateLimiter w).
Proof. apply cleanup_loop_visitors. Qed.

Lemma sweep_evicts l : ∀ w ip v,
  (ip, v) ∈ l →
  cleanup (rateLimiter w) < time.Sub (time.peek 0 (clock w)) (lastSeen v) →
  visitors (rateLimiter (sweep l w)) !! ip = None.
Proof.
  induction l as [|[ip0 v0] l IH]; intros w ip v Hin Hidle.
  { by apply elem_of_nil in Hin. }
  rewrite sweep_cons.
  destruct (cleanup_visitor_frame ip0 v0 w) as (Hc & Hk & _).
  apply elem_of_cons in Hin as [[= <- <-]|Hin].
  - eapply lookup_weaken_None; [|apply sweep_subseteq].
    rewrite cleanup_visitor_unfold.
    replace (_ <? _) with true by (symmetry; by apply Z.ltb_lt).
    simpl. apply lookup_delete_eq.
  - apply (IH _ ip v Hin). rewrite Hc, Hk.
    eapply Z.lt_le_trans; [apply Hidle|].
    apply Sub_mono. rewrite peek_advance. apply peek_mono. lia.
Qed.

Lemma sweep_keeps l : ∀ w ip v,
  visitors (rateLimiter w) !! ip = Some v →
  (∀ v0, (ip, v0) ∈ l →
     time.Sub (time.peek (length l - 1) (clock w)) (lastSeen v0)
     ≤ cleanup (rateLimiter w)) →
  visitors (rateLimiter (sweep l w)) !! ip = Some v.
Proof.
  induction l as [|[ip0 v0] l IH]; intros w ip v Hv Hrecent; [done|].
  rewrite sweep_cons.
  destruct (cleanup_visitor_frame ip0 v0 w) as (Hc & Hk & _).
  apply IH.
  - rewrite cleanup_visitor_unfold. case_match eqn:Hidle; [|done].
    simpl. rewrite lookup_delete_ne; [done|]. intros ->.
    apply Z.ltb_lt in Hidle.
    specialize (Hrecent v0 ltac:(left)).
    assert (time.Sub (time.peek 0 (clock w)) (lastSeen v0)
            ≤ time.Sub (time.peek (length ((ip, v0) :: l) - 1) (clock w))
                       (lastSeen v0)); [|lia].
    apply Sub_mono, peek_mono. lia.
  - intros v1 Hin. rewrite Hc, Hk, peek_advance.
    specialize (Hrecent v1 ltac:(by right)).
    destruct l as [|e l]; [by apply elem_of_nil in Hin|].
    simpl in *. by rewrite Nat.sub_0_r in *.
Qed.

(** X12.  One tick of the cleanup reads the clock once for each visitor
    and removes visitors only: a visitor that remains is as it was; a
    visitor already idle for longer than the cleanup interval at the first
    reading is removed; a visitor seen within the cleanup interval of the
    last reading remains.  The capacity, the task store, the counter of
    request ids and the log stay as they are. *)
Theorem cleanup_evicts_idle_visitors (w : World) :
  (∀ ip v, visitors (rateLimiter (cleanupVisitors_tick w).2) !! ip = Some v →
           visitors (rateLimiter w) !! ip = Some v)
  ∧ (∀ ip v, visitors (rateLimiter w) !! ip = Some v →
       cleanup (rateLimiter w) < time.Sub (time.peek 0 (clock w)) (lastSeen v) →
       visitors (rateLimiter (cleanupVisitors_tick w).2) !! ip = None)
  ∧ (∀ ip v, visitors (rateLimiter w) !! ip = Some v →
       time.Sub (time.peek (size (visitors (rateLimiter w)) - 1) (clock w))
                (lastSeen v) ≤ cleanup (rateLimiter w) →
       visitors (rateLimiter (cleanupVisitors_tick w).2) !! ip = Some v)
  ∧ clock (cleanupVisitors_tick w).2
    = advance (size (visitors (rateLimiter w))) (clock w)
  ∧ rate (rateLimiter (cleanupVisitors_tick w).2) = rate (rateLimiter w)
  ∧ cleanup (rateLimiter (cleanupVisitors_tick w).2) = cleanup (rateLimiter w)
  ∧ taskStore (cleanupVisitors_tick w).2 = taskStore w
  ∧ requestIDCounter (cleanupVisitors_tick w).2 = requestIDCounter w
  ∧ logged (cleanupVisitors_tick w).2 = logged w.
Proof.
  change (cleanupVisitors_tick w).2
    with (sweep (map_to_list (visitors (rateLimiter w))) w).
  set (l := map_to_list (visitors (rateLimiter w))).
  destruct (sweep_frame l w) as (Hc & Hk & Hs & Hn & Hl).
  split; [|split; [|split]].
  - intros ip v Hv. eapply lookup_weaken; [done|apply sweep_subseteq].
  - intros ip v Hv Hidle. apply (sweep_evicts l w ip v); [|done].
    by apply elem_of_map_to_list.
  - intros ip v Hv Hrecent. apply sweep_keeps; [done|].
    intros v0 Hin%elem_of_map_to_list. subst l.
    rewrite length_map_to_list. by simplify_eq.
  - subst l. rewrite length_map_to_list in Hk.
    repeat split; [done| |done..].
    apply (cleanup_loop_visitors (map_to_list (visitors (rateLimiter w))) w).
Qed.

(** A client seen at time 0 is evicted by a tick six minutes later, and a
    client seen one minute before the tick is kept. *)
Example cleanup_after_six_minutes :
  let w :=
    with_visitor "old" (mkVisitor 3 0 0)
      (with_visitor "new" (mkVisitor 0 300000000000 300000000000)
         (main.boot (time.mkClock 360000000000 []))) in
  visitors (rateLimiter (cleanupVisitors_tick w).2)
  = {[ "new" := mkVisitor 0 300000000000 300000000000 ]}.
Proof. by vm_compute. Qed.

End limiter_more.

(** ** [Chain] and the router, further *)
Section router_more.
Context `{!json.Decoder}.
Import middleware.

(** X13.  [Chain] composes: chaining no middleware gives the handler
    itself, chaining one applies it, and chaining a list that is two lists
    end to end is chaining the second list and then the first around it. *)
Theorem Chain_composes (ms1 ms2 : list (Handler → Handler))
    (m : Handler → Handler) (final : Handler) :
  Chain [] final = final
  ∧ Chain [m] final = m final
  ∧ Chain (m :: ms1) final = m (Chain ms1 final)
  ∧ Chain (ms1 ++ ms2) final = Chain ms1 (Chain ms2 final).
Proof.
  rewrite !Chain_foldr. repeat split. apply foldr_app.
Qed.

(** The handler the router has for a method and a path. *)
Definition route (r : router.Router) (method path : string) : option Handler :=
  router.routes r !! method ≫= (.!! path).

Lemma ServeHTTP_route r W (RW : ResponseWriter W) (w : W) req world :
  router.ServeHTTP r W RW w req world
  = default http_NotFound
      (route r (Method req) (strings.before_question_mark (URL_Path req)))
      W RW w req world.
Proof.
  unfold router.ServeHTTP, route.
  destruct (router.routes r !! Method req) as [hs|]; simpl; [|done].
  by destruct (hs !! _).
Qed.

Lemma route_Handle method path handler r method' path' :
  route (router.Handle method path handler r) method' path'
  = if bool_decide (method' = method ∧ path' = path) then Some handler
    else route r method' path'.
Proof.
  unfold route, router.Handle. simpl. rewrite lookup_insert.
  case_bool_decide as Hmp.
  - destruct Hmp as [-> ->]. rewrite decide_True by done. simpl.
    apply lookup_insert_eq.
  - case_decide as Hm; [|done]. subst method'. simpl.
    rewrite lookup_insert_ne by (intros ->; by apply Hmp).
    by destruct (router.routes r !! method).
Qed.

(** X14.  [Handle] registers one route: on the router it returns,
    [ServeHTTP] runs the handler given for a request with that method whose
    path, cut at its first question mark, is that path, replacing a handler
    registered before for the same method and path; every other request is
    served as by the router before.  A new router answers every request
    with the 404 reply of [net/http]. *)
Theorem Handle_registers_one_route (method path : string) (handler : Handler)
    (r : router.Router) W (RW : ResponseWriter W) (w : W) (req : Request)
    (world : World) :
  router.ServeHTTP (router.Handle method path handler r) W RW w req world
  = (if bool_decide (Method req = method
                     ∧ strings.before_question_mark (URL_Path req) = path)
     then handler W RW w req world
     else router.ServeHTTP r W RW w req world)
  ∧ router.ServeHTTP (router.Handle method path handler
                        (router.Handle method path http_NotFound r))
                     W RW w req world
    = router.ServeHTTP (router.Handle method path handler r) W RW w req world
  ∧ router.ServeHTTP router.NewRouter W RW w req world
    = http_NotFound W RW w req world.
Proof.
  rewrite !ServeHTTP_route, !route_Handle. split; [|split].
  - by case_bool_decide.
  - by case_bool_decide.
  - unfold route. simpl. by rewrite lookup_empty.
Qed.

(** X15.  The routes of [main] are five: GET, POST, PATCH and DELETE of
    [/v1/tasks] and GET of [/health]; every other method or path, for
    instance PUT of [/v1/tasks], POST of [/health] or GET of [/v1/tasks/],
    gets the 404 reply of [net/http]. *)
Theorem routes_of_main W (RW : ResponseWriter W) (w : W) (req : Request)
    (world : World) :
  router.ServeHTTP main.r W RW w req world
  = let path := strings.before_question_mark (URL_Path req) in
    if bool_decide (Method req = "GET" ∧ path = "/health")
    then main.health W RW w req world
    else if bool_decide (Method req = "DELETE" ∧ path = "/v1/tasks")
    then handlers.DeleteTask W RW w req world
    else if bool_decide (Method req = "PATCH" ∧ path = "/v1/tasks")
    then handlers.UpdateTask W RW w req world
    else if bool_decide (Method req = "POST" ∧ path = "/v1/tasks")
    then handlers.CreateTask W RW w req world
    else if bool_decide (Method req = "GET" ∧ path = "/v1/tasks")
    then handlers.GetTask W RW w req world
    else http_NotFound W RW w req world.
Proof.
  rewrite ServeHTTP_route. unfold main.r, router.GET, router.DELETE,
    router.PATCH, router.POST. rewrite !route_Handle. cbn zeta.
  unfold MethodGet, MethodDelete, MethodPatch, MethodPost.
  repeat (case_bool_decide; [done|]).
  unfold route. simpl. by rewrite lookup_empty.
Qed.

End router_more.

(** ** The handlers, further *)
Section handlers_more.
Context `{!json.Decoder}.
Import handlers.

Lemma contents_None s id : store.contents s !! id = None ↔ store.tasks s !! id = None.
Proof. rewrite contents_lookup. by destruct (store.tasks s !! id). Qed.

(** The process with another task store. *)
Lemma set_taskStore_same world : set_taskStore (taskStore world) world = world.
Proof. by destruct world. Qed.

(** X16.  GET of a task by id.  With a non-empty [id] parameter and a
    well-formed store, the reply is 400 "invalid id" when the parameter is
    not a decimal integer in the range of [int] or is zero or negative, 404
    "task not found" when no record has that id, and 200 with the record
    otherwise; whatever the [done] parameter says.  The records of the
    store, the rate limiter, the counter of request ids and the log are as
    before. *)
Theorem GetTask_by_id W (RW : ResponseWriter W) (w : W) (r : Request)
    (world : World) :
  Query_Get "id" r ≠ "" → store.store_inv (taskStore world) →
  (GetTask W RW w r world).1
  = match strconv.Atoi (Query_Get "id" r) with
    | Some id =>
        if bool_decide (0 < id)
        then match store.contents (taskStore world) !! id with
             | Some t => respondJSON w StatusOK (JSONTask t)
             | None => respondJSON w StatusNotFound (JSONError "task not found")
             end
        else respondJSON w StatusBadRequest (JSONError "invalid id")
    | None => respondJSON w StatusBadRequest (JSONError "invalid id")
    end
  ∧ store.contents (taskStore (GetTask W RW w r world).2)
    = store.contents (taskStore world)
  ∧ rateLimiter (GetTask W RW w r world).2 = rateLimiter world
  ∧ requestIDCounter (GetTask W RW w r world).2 = requestIDCounter world
  ∧ logged (GetTask W RW w r world).2 = logged world.
Proof.
  intros Hid Hinv. unfold GetTask. rewrite bool_decide_eq_false_2 by done.
  destruct (strconv.Atoi _) as [id|]; [|done].
  destruct (decide (0 < id)) as [Hpos|Hpos].
  2:{ rewrite bool_decide_eq_true_2, bool_decide_eq_false_2 by lia. done. }
  rewrite bool_decide_eq_false_2, bool_decide_eq_true_2 by lia.
  unfold bind, on_store, load_task, ret. rewrite contents_lookup.
  unfold store.GetByID.
  destruct (store.tasks (taskStore world) !! id) as [p|] eqn:Hp; simpl.
  - split; [|split; [|done]].
    + do 2 f_equal.
      apply (load_new (store.load p (taskStore world)) (taskStore world)).
    + apply (contents_extends (taskStore world)); [done|].
      apply (new_extends (store.load p (taskStore world))).
  - done.
Qed.

(** The process of the examples, with the store of the examples. *)
Definition two_tasks_world : World := set_taskStore two_tasks sample_world.

Definition get_task (id : string) : Request :=
  mkRequest "GET" "/v1/tasks" [("id", id); ("done", "maybe")] ∅ "10.0.0.7:4242" "" None.

Lemma GetTask_by_id_witness :
  Query_Get "id" (get_task "+2") ≠ ""
  ∧ store.store_inv (taskStore two_tasks_world)
  ∧ (GetTask response _ new_response (get_task "+2") two_tasks_world).1
    = respondJSON new_response StatusOK (JSONTask (mkTask 2 "read" true)).
Proof.
  split; [done|]. split; [apply two_tasks_inv|].
  destruct (GetTask_by_id response _ new_response (get_task "+2") two_tasks_world)
    as [-> _]; [done|apply two_tasks_inv|].
  by vm_compute.
Defined.

(** Ids that are refused, and an id that is not there. *)
Example GetTask_edge_cases :
  (λ id, body (GetTask response _ new_response (get_task id) two_tasks_world).1)
    <$> ["0"; "-1"; "1.0"; "one"; " 1"; "9223372036854775808"; "3"; "01"]
  = [ [JSONError "invalid id"]; [JSONError "invalid id"]; [JSONError "invalid id"];
      [JSONError "invalid id"]; [JSONError "invalid id"]; [JSONError "invalid id"];
      [JSONError "task not found"]; [JSONTask (mkTask 1 "write" false)] ].
Proof. by vm_compute. Qed.


Lemma load_tasks_eq ps world :
  load_tasks ps world = ((λ p, store.load p (taskStore world)) <$> ps, world).
Proof. done. Qed.

(** X17.  GET of the tasks.  Without an [id] parameter and with a
    well-formed store, [GetTask] replies 400 "invalid done parameter" when
    the [done] parameter is there and is not one of the thirteen spellings
    of a boolean [strconv.ParseBool] knows, and 200 otherwise, with the
    records of the store in some order: all of them without a [done]
    parameter, those with that flag with one.  The records of the store
    are as before. *)
Theorem GetTask_lists_the_tasks W (RW : ResponseWriter W) (w : W) (r : Request)
    (world : World) :
  Query_Get "id" r = "" → store.store_inv (taskStore world) →
  store.contents (taskStore (GetTask W RW w r world).2)
  = store.contents (taskStore world)
  ∧ (Query_Get "done" r = "" →
     ∃ ts, (GetTask W RW w r world).1 = respondJSON w StatusOK (JSONTasks ts)
           ∧ ts ≡ₚ snd <$> map_to_list (store.contents (taskStore world)))
  ∧ (Query_Get "done" r ≠ "" → strconv.ParseBool (Query_Get "done" r) = None →
     GetTask W RW w r world
     = (respondJSON w StatusBadRequest (JSONError "invalid done parameter"), world))
  ∧ (∀ done, Query_Get "done" r ≠ "" →
     strconv.ParseBool (Query_Get "done" r) = Some done →
     ∃ ts, (GetTask W RW w r world).1 = respondJSON w StatusOK (JSONTasks ts)
           ∧ ts ≡ₚ filter (λ t, Done t = done)
                     (snd <$> map_to_list (store.contents (taskStore world)))).
Proof.
  intros Hid Hinv. unfold GetTask. rewrite bool_decide_eq_true_2 by done.
  unfold GetAllTasks, bind, on_store, ret, load_tasks.
  destruct (GetAll_returns_every_record_aux (taskStore world) Hinv)
    as (Hall & Hallc).
  assert (∀ done,
    (λ p, store.load p (store.GetByStatus done (taskStore world)).2)
      <$> (store.GetByStatus done (taskStore world)).1
    ≡ₚ filter (λ t, Done t = done)
         (snd <$> map_to_list (store.contents (taskStore world)))
    ∧ store.contents (store.GetByStatus done (taskStore world)).2
      = store.contents (taskStore world)) as Hstatus.
  { intros done. by apply GetByStatus_returns_the_matching_records_aux. }
  destruct (decide (Query_Get "done" r = "")) as [Hd|Hd].
  - rewrite bool_decide_eq_true_2 by done. cbn [negb].
    destruct (store.GetAll (taskStore world)) as [ps s']. simpl in *.
    split; [done|]. split; [by eexists|]. by split.
  - rewrite bool_decide_eq_false_2 by done. cbn [negb].
    destruct (strconv.ParseBool _) as [done|].
    + specialize (Hstatus done).
      destruct (store.GetByStatus done (taskStore world)). simpl in *.
      destruct Hstatus as [Hl Hc]. split; [done|]. split; [done|].
      split; [done|]. intros done' _ [= <-]. by eexists.
    + split; [done|]. split; [done|]. by split.
Qed.

Definition list_tasks (done : string) : Request :=
  mkRequest "GET" "/v1/tasks" [("done", done)] ∅ "10.0.0.7:4242" "" None.

Lemma GetTask_lists_the_tasks_witness :
  Query_Get "id" (list_tasks "T") = ""
  ∧ store.store_inv (taskStore two_tasks_world)
  ∧ store.contents
      (taskStore (GetTask response _ new_response (list_tasks "T") two_tasks_world).2)
    = store.contents (taskStore two_tasks_world)
  ∧ (∀ done, Query_Get "done" (list_tasks "T") ≠ "" →
     strconv.ParseBool (Query_Get "done" (list_tasks "T")) = Some done →
     ∃ ts, (GetTask response _ new_response (list_tasks "T") two_tasks_world).1
           = respondJSON new_response StatusOK (JSONTasks ts)
           ∧ ts ≡ₚ filter (λ t, Done t = done)
                     (snd <$> map_to_list (store.contents (taskStore two_tasks_world)))).
Proof.
  split; [done|]. split; [apply two_tasks_inv|].
  destruct (GetTask_lists_the_tasks response _ new_response (list_tasks "T")
              two_tasks_world) as (Hc & _ & _ & Hdone); [done|apply two_tasks_inv|].
  by split.
Defined.

(** The [done] parameter, as [strconv.ParseBool] reads it. *)
Example GetTask_done_parameter :
  (λ done, body (GetTask response _ new_response (list_tasks done) two_tasks_world).1)
    <$> ["true"; "1"; "F"; "yes"; "TRUE "]
  = [ [JSONTasks [mkTask 2 "read" true]]; [JSONTasks [mkTask 2 "read" true]];
      [JSONTasks [mkTask 1 "write" false]];
      [JSONError "invalid done parameter"]; [JSONError "invalid done parameter"] ].
Proof. by vm_compute. Qed.


(** X18.  PATCH of a task.  In a well-formed store: without an [id]
    parameter the reply is 400 "id parameter is required"; with one that is
    not a positive decimal integer it is 400 "invalid id", whatever the
    body; with a body that does not decode it is 400 "invalid request
    body"; with an id no record has it is 404 "task not found"; in these
    cases the process is as it was.  Otherwise the reply is 200 with
    [{updated: true}] and the record under the id has the flag of the body,
    the other records being as before. *)
Theorem UpdateTask_behaviour W (RW : ResponseWriter W) (w : W) (r : Request)
    (world : World) :
  store.store_inv (taskStore world) →
  (Query_Get "id" r = "" →
   UpdateTask W RW w r world
   = (respondJSON w StatusBadRequest (JSONError "id parameter is required"), world))
  ∧ (Query_Get "id" r ≠ "" →
     (∀ id, strconv.Atoi (Query_Get "id" r) = Some id → id ≤ 0) →
     UpdateTask W RW w r world
     = (respondJSON w StatusBadRequest (JSONError "invalid id"), world))
  ∧ (∀ id, Query_Get "id" r ≠ "" →
     strconv.Atoi (Query_Get "id" r) = Some id → 0 < id →
     (json.Decode_UpdateTaskRequest (Body r) = None →
      UpdateTask W RW w r world
      = (respondJSON w StatusBadRequest (JSONError "invalid request body"), world))
     ∧ (∀ req, json.Decode_UpdateTaskRequest (Body r) = Some req →
        (store.contents (taskStore world) !! id = None →
         UpdateTask W RW w r world
         = (respondJSON w StatusNotFound (JSONError "task not found"), world))
        ∧ (∀ t, store.contents (taskStore world) !! id = Some t →
           (UpdateTask W RW w r world).1
           = respondJSON w StatusOK (JSONSuccess true)
           ∧ store.contents (taskStore (UpdateTask W RW w r world).2)
             = <[id := mkTask (ID t) (Title t) (req_Done req)]>
                 (store.contents (taskStore world))))).
Proof.
  intros Hinv. unfold UpdateTask. split; [|split].
  - intros Hid. by rewrite bool_decide_eq_true_2.
  - intros Hid Hbad. rewrite bool_decide_eq_false_2 by done.
    destruct (strconv.Atoi _) as [id|]; [|done].
    by rewrite bool_decide_eq_true_2 by eauto.
  - intros id Hid -> Hpos.
    rewrite bool_decide_eq_false_2, bool_decide_eq_false_2 by (done || lia).
    split; [by intros ->|]. intros req ->.
    unfold bind, on_store, ret.
    pose proof (Update_contents id (req_Done req) (taskStore world) Hinv) as Hc.
    split.
    + intros Hnone%contents_None.
      rewrite (Update_absent _ _ _ Hnone). by rewrite set_taskStore_same.
    + intros t Ht. rewrite contents_lookup in Ht.
      destruct (store.tasks (taskStore world) !! id) as [p|] eqn:Hp; [|done].
      rewrite (Update_found _ _ _ _ Hp) in Hc |- *. simpl in *.
      split; [done|]. rewrite Hc. apply map_eq. intros i.
      rewrite lookup_alter, lookup_insert, contents_lookup.
      case_decide; [|done]. subst i. rewrite Hp. simpl.
      by injection Ht as <-.
Qed.

(** X19.  DELETE of a task.  Without an [id] parameter the reply is 400
    "id parameter is required"; with one that is not a positive decimal
    integer it is 400 "invalid id"; with an id no record has it is 404 "task
    not found"; in these cases the process is as it was.  Otherwise the
    reply is 200 with [{updated: true}] and the record under the id is
    removed, the other records being as before. *)
Theorem DeleteTask_behaviour W (RW : ResponseWriter W) (w : W) (r : Request)
    (world : World) :
  (Query_Get "id" r = "" →
   DeleteTask W RW w r world
   = (respondJSON w StatusBadRequest (JSONError "id parameter is required"), world))
  ∧ (Query_Get "id" r ≠ "" →
     (∀ id, strconv.Atoi (Query_Get "id" r) = Some id → id ≤ 0) →
     DeleteTask W RW w r world
     = (respondJSON w StatusBadRequest (JSONError "invalid id"), world))
  ∧ (∀ id, Query_Get "id" r ≠ "" →
     strconv.Atoi (Query_Get "id" r) = Some id → 0 < id →
     (store.contents (taskStore world) !! id = None →
      DeleteTask W RW w r world
      = (respondJSON w StatusNotFound (JSONError "task not found"), world))
     ∧ (is_Some (store.contents (taskStore world) !! id) →
        (DeleteTask W RW w r world).1
        = respondJSON w StatusOK (JSONSuccess true)
        ∧ store.contents (taskStore (DeleteTask W RW w r world).2)
          = delete id (store.contents (taskStore world)))).
Proof.
  unfold DeleteTask. split; [|split].
  - intros Hid. by rewrite bool_decide_eq_true_2.
  - intros Hid Hbad. rewrite bool_decide_eq_false_2 by done.
    destruct (strconv.Atoi _) as [id|]; [|done].
    by rewrite bool_decide_eq_true_2 by eauto.
  - intros id Hid -> Hpos.
    rewrite bool_decide_eq_false_2, bool_decide_eq_false_2 by (done || lia).
    unfold bind, on_store, ret.
    pose proof (Delete_contents id (taskStore world)) as Hc. split.
    + intros Hnone%contents_None. unfold store.Delete. rewrite Hnone.
      by rewrite set_taskStore_same.
    + intros [t Ht]. rewrite contents_lookup in Ht. unfold store.Delete in *.
      destruct (store.tasks (taskStore world) !! id) as [p|] eqn:Hp; [|done].
      by simpl in *.
Qed.

End handlers_more.

Section handlers_instances.
#[local] Existing Instance json.examples.
Import handlers.

Definition patch_task (id body : string) : Request :=
  mkRequest "PATCH" "/v1/tasks" [("id", id)] ∅ "10.0.0.7:4242" body None.

Definition body_done (done : string) : string :=
  "{" +:+ strings.dq +:+ "done" +:+ strings.dq +:+ ":" +:+ done +:+ "}".

Lemma UpdateTask_behaviour_witness :
  store.store_inv (taskStore two_tasks_world)
  ∧ (UpdateTask response _ new_response (patch_task "1" (body_done "true"))
       two_tasks_world).1
    = respondJSON new_response StatusOK (JSONSuccess true)
  ∧ store.contents
      (taskStore (UpdateTask response _ new_response
                    (patch_task "1" (body_done "true")) two_tasks_world).2)
    = <[1 := mkTask 1 "write" true]> (store.contents (taskStore two_tasks_world)).
Proof.
  split; [apply two_tasks_inv|].
  destruct (UpdateTask_behaviour response _ new_response
              (patch_task "1" (body_done "true")) two_tasks_world)
    as (_ & _ & Hid); [apply two_tasks_inv|].
  destruct (Hid 1) as [_ Hbody]; [done..|].
  destruct (Hbody (mkUpdateTaskRequest true)) as [_ Hfound]; [done|].
  apply (Hfound (mkTask 1 "write" false)). by vm_compute.
Defined.

(** PATCH checks the id before it reads the body. *)
Example UpdateTask_edge_cases :
  (λ '(id, b), body (UpdateTask response _ new_response (patch_task id b)
                       two_tasks_world).1)
    <$> [("", "{"); ("0", "{"); ("x", body_done "true"); ("2", "{");
         ("2", body_done "1"); ("7", body_done "false"); ("2", body_done "false")]
  = [ [JSONError "id parameter is required"]; [JSONError "invalid id"];
      [JSONError "invalid id"]; [JSONError "invalid request body"];
      [JSONError "invalid request body"]; [JSONError "task not found"];
      [JSONSuccess true] ].
Proof. by vm_compute. Qed.

End handlers_instances.

(** ** The pipeline, further *)
Section pipeline_more.
Context `{!json.Decoder}.
Import middleware.

(** *** What the stages and the handlers leave alone *)

(** Two states of the process that differ in the task store at most. *)
Definition same_but_store (world world' : World) : Prop :=
  clock world' = clock world
  ∧ rateLimiter world' = rateLimiter world
  ∧ requestIDCounter world' = requestIDCounter world
  ∧ logged world' = logged world.

Definition store_only (h : Handler) : Prop :=
  ∀ W (RW : ResponseWriter W) (w : W) r world,
    same_but_store world (h W RW w r world).2.

Ltac store_only_leaf unfold_handler :=
  intros W RW w r world; unfold_handler;
  unfold bind, ret, on_store, load_task, handlers.load_tasks;
  repeat (case_match; simplify_eq; cbn [fst snd]); done.

Lemma http_NotFound_store_only : store_only http_NotFound.
Proof. store_only_leaf ltac:(unfold http_NotFound). Qed.

Lemma health_store_only : store_only main.health.
Proof. store_only_leaf ltac:(unfold main.health). Qed.

Lemma GetTask_store_only : store_only handlers.GetTask.
Proof.
  store_only_leaf ltac:(unfold handlers.GetTask, handlers.GetAllTasks).
Qed.

Lemma CreateTask_store_only : store_only handlers.CreateTask.
Proof. store_only_leaf ltac:(unfold handlers.CreateTask). Qed.

Lemma UpdateTask_store_only : store_only handlers.UpdateTask.
Proof. store_only_leaf ltac:(unfold handlers.UpdateTask). Qed.

Lemma DeleteTask_store_only : store_only handlers.DeleteTask.
Proof. store_only_leaf ltac:(unfold handlers.DeleteTask). Qed.

Lemma ServeHTTP_all (Q : Handler → Prop) r :
  Q http_NotFound → routes_all Q r →
  ∀ req, ∃ h, Q h ∧ ∀ W (RW : ResponseWriter W) (w : W) world,
    router.ServeHTTP r W RW w req world = h W RW w req world.
Proof.
  intros Hnf Hr req. unfold router.ServeHTTP.
  destruct (router.routes r !! Method req) as [hs|] eqn:Hhs; [|by eexists].
  destruct (hs !! _) as [h|] eqn:Hh; [|by eexists].
  exists h. split; [by eapply Hr|done].
Qed.

Lemma main_r_all (Q : Handler → Prop) :
  Q main.health → Q handlers.DeleteTask → Q handlers.UpdateTask →
  Q handlers.CreateTask → Q handlers.GetTask → routes_all Q main.r.
Proof.
  intros. unfold main.r. repeat (apply routes_all_Handle; [done|]).
  apply routes_all_NewRouter.
Qed.

Lemma main_r_store_only : store_only (router.ServeHTTP main.r).
Proof.
  intros W RW w req world.
  destruct (ServeHTTP_all store_only main.r) with req as (h & Hh & ->).
  - apply http_NotFound_store_only.
  - apply main_r_all; auto using health_store_only, DeleteTask_store_only,
      UpdateTask_store_only, CreateTask_store_only, GetTask_store_only.
  - apply Hh.
Qed.


(** *** The pipeline, stage by stage *)

(** The id [RequestID] gives to a request that arrives in [world]. *)
Definition next_request_id (world : World) : string :=
  "req-" +:+ Sprintf_d (GoInt.incr (requestIDCounter world)).

(** What the stages inside [Logger] return for a request: the writer
    [Logger] made, after them, and the process. *)
Definition after_stages (req : Request) (world : World)
  : responseWriter response * World :=
  let w1 := Header_Set "X-Request-ID" (next_request_id world)
              (mkResponseWriter new_response StatusOK) in
  let req' := WithRequestID (next_request_id world) req in
  let res := allow (RemoteAddr req) (at_limiter world) in
  if res.1
  then
    if bool_decide (Header_Get "X-API-KEY" req ∈ valid_keys)
    then router.ServeHTTP main.r _ _ w1 req' res.2
    else (Write (JSONError "unauthorized")
            (WriteHeader StatusUnauthorized
               (Header_Set "Content-Type" "application/json" w1)),
          res.2)
  else (Write (JSONError "rate limit exceeded")
          (WriteHeader StatusTooManyRequests
             (Header_Set "Content-Type" "application/json" w1)),
        res.2).

Lemma serve_stages req world :
  main.serve req world
  = (finishRequest (ResponseWriter_ (after_stages req world).1),
     (Logger_after (time.Now (clock world)).1
        (statusCode (after_stages req world).1) req
        (after_stages req world).2).2).
Proof.
  unfold main.serve, bind, ret. rewrite handler_unfold, Logger_unfold. cbn zeta.
  assert (RequestID (Limit (APIKeyAuth main.validAPIKeys (router.ServeHTTP main.r)))
            (responseWriter response) _ (mkResponseWriter new_response StatusOK)
            req (set_clock (time.Now (clock world)).2 world)
          = after_stages req world) as ->; [|done].
  unfold RequestID, bind, incr_requestIDCounter, after_stages. cbn [fst snd].
  change (set_requestIDCounter _ _) with (at_limiter world).
  change ("req-" +:+ _) with (next_request_id world).
  unfold Limit, bind. cbn [RemoteAddr WithRequestID].
  destruct (allow (RemoteAddr req) (at_limiter world)) as [[] world2];
    cbn [fst snd negb]; [|done].
  unfold APIKeyAuth.
  change (Header_Get "X-API-KEY" (WithRequestID _ req))
    with (Header_Get "X-API-KEY" req).
  rewrite validAPIKeys_check. by case_bool_decide.
Qed.

Lemma Logger_after_frame start code r world :
  clock (Logger_after start code r world).2
    = (time.Now (time.Now (clock world)).2).2
  ∧ taskStore (Logger_after start code r world).2 = taskStore world
  ∧ rateLimiter (Logger_after start code r world).2 = rateLimiter world
  ∧ requestIDCounter (Logger_after start code r world).2 = requestIDCounter world
  ∧ logged (Logger_after start code r world).2
    = logged world
      ++ [mkLogLine (time.peek 1 (clock world)) (Method r) (URL_Path r) code
            (time.Sub (time.peek 0 (clock world)) start) (ctx_requestID r)].
Proof.
  unfold Logger_after, bind, time_Since, bind, time_Now, ret, log_Printf. simpl.
  destruct (time.Now (clock world)) as [t c]; simpl.
  by destruct (time.Now c).
Qed.

(** The stages inside [Logger] write the limiter by one call of [allow],
    and nothing but the store besides the clock that call reads. *)
Lemma after_stages_frame req world :
  same_but_store (allow (RemoteAddr req) (at_limiter world)).2
                 (after_stages req world).2
  ∧ ((allow (RemoteAddr req) (at_limiter world)).1 = false
     ∨ Header_Get "X-API-KEY" req ∉ valid_keys →
     taskStore (after_stages req world).2 = taskStore world).
Proof.
  unfold after_stages. cbn zeta.
  pose proof (allow_frame (RemoteAddr req) (at_limiter world)) as (Hs & _).
  destruct (allow (RemoteAddr req) (at_limiter world)) as [[] world2];
    cbn [fst snd] in *; [|done].
  case_bool_decide as Hkey.
  - split; [apply main_r_store_only|]. by intros [|].
  - done.
Qed.

(** X20.  Every request costs its client one call of [allow], whatever its
    key, method and path: after it the rate limiter is as that call leaves
    it and the counter of request ids is one further.  A request that the
    limiter does not admit is answered 429 "rate limit exceeded", and one
    that it admits without a valid API key 401 "unauthorized"; neither
    reaches a handler: the task store is as it was. *)
Theorem denied_requests_cost_a_token (req : Request) (world : World) :
  rateLimiter (main.serve req world).2
  = rateLimiter (allow (RemoteAddr req) (at_limiter world)).2
  ∧ requestIDCounter (main.serve req world).2
    = GoInt.incr (requestIDCounter world)
  ∧ (admitted req world = false →
     status (main.serve req world).1 = StatusTooManyRequests
     ∧ body (main.serve req world).1 = [JSONError "rate limit exceeded"]
     ∧ taskStore (main.serve req world).2 = taskStore world)
  ∧ (admitted req world = true → Header_Get "X-API-KEY" req ∉ valid_keys →
     status (main.serve req world).1 = StatusUnauthorized
     ∧ body (main.serve req world).1 = [JSONError "unauthorized"]
     ∧ taskStore (main.serve req world).2 = taskStore world).
Proof.
  rewrite serve_stages. cbn [fst snd].
  destruct (Logger_after_frame (time.Now (clock world)).1
              (statusCode (after_stages req world).1) req
              (after_stages req world).2) as (_ & -> & -> & -> & _).
  destruct (after_stages_frame req world) as ((_ & -> & -> & _) & Hstore).
  pose proof (allow_frame (RemoteAddr req) (at_limiter world)) as (_ & -> & _).
  split; [done|]. split; [done|].
  unfold admitted. split.
  - intros Hdeny. split; [|split; [|by apply Hstore; left]];
      unfold after_stages; by rewrite Hdeny.
  - intros Hok Hkey. split; [|split; [|by apply Hstore; right]];
      unfold after_stages; by rewrite Hok, bool_decide_eq_false_2.
Qed.


(** *** The replies *)

Definition is_set (o : WOp) : Prop :=
  match o with WSet _ _ => True | _ => False end.

(** The value the operations [ops] leave in the header [k], over [acc]. *)
Fixpoint header_set (k : string) (ops : list WOp) (acc : option string)
  : option string :=
  match ops with
  | [] => acc
  | WSet k' v :: ops' => header_set k ops' (if bool_decide (k' = k) then Some v else acc)
  | _ :: ops' => header_set k ops' acc
  end.

(** The statuses and the bodies of the server: a JSON error with 400, 401,
    404 or 429; [{updated: true}], a task, a list of tasks or the health
    text with 200; a task with 201; the text of [http.NotFound] with 404. *)
Definition reply_kind (code : Z) (c : Chunk) : Prop :=
  match c with
  | JSONError _ => code = 400 ∨ code = 401 ∨ code = 404 ∨ code = 429
  | JSONSuccess updated => code = 200 ∧ updated = true
  | JSONTask _ => code = 200 ∨ code = 201
  | JSONTasks _ => code = 200
  | JSONNull => False
  | Text s => code = 200 ∧ s = main.healthy
              ∨ code = 404 ∧ s = "404 page not found"
  end.

(** The content type that goes with a body. *)
Definition content_type (c : Chunk) : string :=
  match c with
  | Text s => if bool_decide (s = main.healthy) then "application/json"
              else "text/plain; charset=utf-8"
  | _ => "application/json"
  end.

(** Operations that make one reply: headers, then the status, then one
    chunk of body. *)
Definition one_reply (ops : list WOp) : Prop :=
  ∃ sets code c,
    ops = sets ++ [WWriteHeader code; WWrite c]
    ∧ Forall is_set sets
    ∧ reply_kind code c
    ∧ header_set "Content-Type" sets None = Some (content_type c).

Definition replies (h : Handler) : Prop := ∀ r world, one_reply (trace h r world).

Ltac one_reply_rest :=
  (split; [reflexivity|]);
  (split; [repeat constructor|]);
  (split; [cbn; auto 6|by vm_compute]).

Ltac one_reply_now :=
  cbn [Header_Set WriteHeader Write recorder app];
  first [ solve [eexists [_], _, _; one_reply_rest]
        | solve [eexists [_; _], _, _; one_reply_rest] ].

Ltac replies_leaf unfold_handler :=
  intros r world; unfold trace; unfold_handler;
  unfold bind, ret, on_store, load_task, handlers.load_tasks,
    handlers.respondJSON, store.GetByID, store.Update, store.Delete;
  repeat (case_match; simplify_eq; cbn [fst snd]);
  one_reply_now.

Lemma http_NotFound_replies : replies http_NotFound.
Proof. replies_leaf ltac:(unfold http_NotFound). Qed.

Lemma health_replies : replies main.health.
Proof. replies_leaf ltac:(unfold main.health). Qed.

Lemma GetTask_replies : replies handlers.GetTask.
Proof. replies_leaf ltac:(unfold handlers.GetTask, handlers.GetAllTasks). Qed.

Lemma CreateTask_replies : replies handlers.CreateTask.
Proof. replies_leaf ltac:(unfold handlers.CreateTask). Qed.

Lemma UpdateTask_replies : replies handlers.UpdateTask.
Proof. replies_leaf ltac:(unfold handlers.UpdateTask). Qed.

Lemma DeleteTask_replies : replies handlers.DeleteTask.
Proof. replies_leaf ltac:(unfold handlers.DeleteTask). Qed.

Lemma main_r_replies : replies (router.ServeHTTP main.r).
Proof.
  intros req world. unfold trace.
  destruct (ServeHTTP_all replies main.r) with req as (h & Hh & ->).
  - apply http_NotFound_replies.
  - apply main_r_all; auto using health_replies, DeleteTask_replies,
      UpdateTask_replies, CreateTask_replies, GetTask_replies.
  - apply Hh.
Qed.


Lemma after_stages_reply req world :
  ∃ ops, one_reply ops
    ∧ (after_stages req world).1
      = replay ops (Header_Set "X-Request-ID" (next_request_id world)
                      (mkResponseWriter new_response StatusOK)).
Proof.
  unfold after_stages. cbn zeta.
  destruct (allow (RemoteAddr req) (at_limiter world)) as [[] world2];
    cbn [fst snd].
  - case_bool_decide.
    + eexists. split; [apply main_r_replies|].
      by rewrite (proj1 main_r_quiet).
    + exists [WSet "Content-Type" "application/json";
              WWriteHeader StatusUnauthorized; WWrite (JSONError "unauthorized")].
      split; [one_reply_now|done].
  - exists [WSet "Content-Type" "application/json";
            WWriteHeader StatusTooManyRequests;
            WWrite (JSONError "rate limit exceeded")].
    split; [one_reply_now|done].
Qed.

Definition headers_after (sets : list WOp) (h : gmap string string)
  : gmap string string :=
  foldl (λ h o, match o with WSet k v => <[k := v]> h | _ => h end) h sets.

Lemma replay_sets sets (w : response) :
  Forall is_set sets →
  replay sets w
  = mkResponse (headers_after sets (handlerHeader w)) (wroteHeader w) (status w)
               (sentHeader w) (body w).
Proof.
  intros Hsets. revert w. induction Hsets as [|o sets Ho _ IH]; intros w.
  { by destruct w. }
  destruct o; [|done..]. simpl. by rewrite IH.
Qed.

Lemma headers_after_lookup k sets (h : gmap string string) :
  headers_after sets h !! k = header_set k sets (h !! k).
Proof.
  revert h. induction sets as [|o sets IH]; intros h; [done|].
  destruct o as [k' v| |]; simpl; rewrite IH; [|done..].
  rewrite lookup_insert. case_bool_decide; by case_decide.
Qed.

Lemma captured_sets sets code : Forall is_set sets → captured sets code = code.
Proof.
  intros Hsets. induction Hsets as [|o sets Ho _ IH]; [done|].
  by destruct o.
Qed.

(** The response sent and the status [Logger] has captured, for one reply
    written after the request id. *)
Lemma one_reply_sent ops reqID :
  one_reply ops →
  ∃ code c,
    reply_kind code c
    ∧ statusCode (replay ops (Header_Set "X-Request-ID" reqID
                                (mkResponseWriter new_response StatusOK))) = code
    ∧ finishRequest
        (ResponseWriter_ (replay ops (Header_Set "X-Request-ID" reqID
                                        (mkResponseWriter new_response StatusOK))))
      = mkResponse
          (sentHeader
             (finishRequest
                (ResponseWriter_
                   (replay ops (Header_Set "X-Request-ID" reqID
                                  (mkResponseWriter new_response StatusOK))))))
          true code
          (sentHeader
             (finishRequest
                (ResponseWriter_
                   (replay ops (Header_Set "X-Request-ID" reqID
                                  (mkResponseWriter new_response StatusOK))))))
          [c]
    ∧ sentHeader
        (finishRequest
           (ResponseWriter_
              (replay ops (Header_Set "X-Request-ID" reqID
                             (mkResponseWriter new_response StatusOK)))))
      !! "Content-Type" = Some (content_type c).
Proof.
  intros (sets & code & c & -> & Hsets & Hkind & Hct).
  exists code, c. split; [done|].
  cbn [Header_Set responseWriter_ResponseWriter ResponseWriter_ statusCode].
  rewrite replay_responseWriter. cbn [ResponseWriter_ statusCode].
  rewrite !replay_app, (replay_sets sets) by done.
  unfold captured. rewrite foldl_app. fold (captured sets StatusOK).
  rewrite captured_sets by done.
  split; [done|]. simpl. split; [done|].
  rewrite headers_after_lookup. simpl.
  by rewrite lookup_insert_ne, lookup_empty.
Qed.

(** X21.  Every response of the server is one reply: the header is
    written once and the body is one chunk; the status and the body are of
    the kinds of [reply_kind], so that the status is one of 200, 201, 400,
    401, 404 and 429 and a body that goes with 400, 401 or 429 is a JSON
    error; the content type sent is [application/json], except for a method
    and path without a route, answered in plain text. *)
Theorem every_response_is_one_reply (req : Request) (world : World) :
  ∃ c, body (main.serve req world).1 = [c]
       ∧ wroteHeader (main.serve req world).1 = true
       ∧ reply_kind (status (main.serve req world).1) c
       ∧ status (main.serve req world).1 ∈ [200; 201; 400; 401; 404; 429]
       ∧ sentHeader (main.serve req world).1 !! "Content-Type"
         = Some (content_type c).
Proof.
  rewrite serve_stages. cbn [fst].
  destruct (after_stages_reply req world) as (ops & Hops & ->).
  destruct (one_reply_sent ops (next_request_id world) Hops)
    as (code & c & Hkind & _ & Hsent & Hct).
  exists c. rewrite Hct. rewrite Hsent. cbn [body wroteHeader status].
  repeat split; [done|].
  rewrite !elem_of_cons. destruct c; simpl in Hkind; intuition (subst; auto 10).
Qed.

(** X22.  [Logger] adds one line to the log for every request, with the
    method and the path of the request and the status that was sent.  The
    request id of the line is the one
    in the context of the request as [Logger] received it: [RequestID] runs
    inside [Logger] and gives the id to a copy of the request, so a request
    that comes without an id is logged without one, although its response
    carries one. *)
Theorem Logger_logs_one_line (req : Request) (world : World) :
  ∃ line, logged (main.serve req world).2 = logged world ++ [line]
          ∧ log_Method line = Method req
          ∧ log_Path line = URL_Path req
          ∧ log_statusCode line = status (main.serve req world).1
          ∧ log_requestID line = ctx_requestID req
          ∧ (ctx_requestID req = None →
             log_requestID line = None
             ∧ sentHeader (main.serve req world).1 !! "X-Request-ID"
               = Some (next_request_id world)).
Proof.
  destruct (serve_request_id req world) as [Hid _].
  rewrite serve_stages in *. cbn [fst snd] in *.
  destruct (Logger_after_frame (time.Now (clock world)).1
              (statusCode (after_stages req world).1) req
              (after_stages req world).2) as (_ & _ & _ & _ & ->).
  destruct (after_stages_frame req world) as ((_ & _ & _ & ->) & _).
  pose proof (allow_frame (RemoteAddr req) (at_limiter world)) as (_ & _ & ->).
  eexists. split; [done|]. cbn [log_Method log_Path log_statusCode log_requestID].
  repeat split; [|done|done].
  destruct (after_stages_reply req world) as (ops & Hops & ->).
  destruct (one_reply_sent ops (next_request_id world) Hops)
    as (code & c & _ & -> & -> & _). done.
Qed.


(** *** Requests that read *)

(** A handler that leaves the task store as it is, but for the copies it
    hands out. *)
Definition reads_only (h : Handler) : Prop :=
  ∀ W (RW : ResponseWriter W) (w : W) r world,
    extends (taskStore world) (taskStore (h W RW w r world).2).

Lemma on_store_extends {A} (f : store.TaskStore → A * store.TaskStore) world :
  extends (taskStore world) (f (taskStore world)).2 →
  extends (taskStore world) (taskStore (on_store f world).2).
Proof. unfold on_store. by destruct (f (taskStore world)). Qed.

Lemma GetTask_reads_only : reads_only handlers.GetTask.
Proof.
  intros W RW w r world.
  unfold handlers.GetTask, handlers.GetAllTasks, bind, ret, load_task,
    handlers.load_tasks.
  repeat case_match; simplify_eq; cbn [fst snd];
    try apply extends_refl.
  all: match goal with
    | H : on_store ?f ?world0 = (_, ?world') |- _ =>
        replace world' with (on_store f world0).2 by (by rewrite H);
        apply on_store_extends
    end.
  all: auto using GetByID_extends, GetAll_extends,
      GetByStatus_extends.
Qed.

Lemma GET_reads_only W (RW : ResponseWriter W) (w : W) req world :
  Method req = MethodGet →
  extends (taskStore world)
                (taskStore (router.ServeHTTP main.r W RW w req world).2).
Proof.
  intros Hget. rewrite ServeHTTP_route, Hget.
  unfold main.r, router.GET, router.DELETE, router.PATCH, router.POST.
  rewrite !route_Handle.
  unfold MethodGet, MethodDelete, MethodPatch, MethodPost.
  repeat case_bool_decide; destruct_and?; try done; simpl.
  - apply extends_refl.
  - apply GetTask_reads_only.
  - unfold route. simpl. rewrite lookup_empty. apply extends_refl.
Qed.

(** X23.  A GET request never changes the tasks: whatever its path, its
    parameters and its key, the records of the store and the next id are
    after the request what they were before it, and the store is still well
    formed. *)
Theorem GET_requests_keep_the_tasks (req : Request) (world : World) :
  Method req = MethodGet →
  store.store_inv (taskStore world) →
  store.contents (taskStore (main.serve req world).2)
  = store.contents (taskStore world)
  ∧ store.nextID (taskStore (main.serve req world).2)
    = store.nextID (taskStore world)
  ∧ store.store_inv (taskStore (main.serve req world).2).
Proof.
  intros Hget Hinv.
  assert (extends (taskStore world) (taskStore (main.serve req world).2))
    as Hext.
  { rewrite serve_stages. cbn [snd].
    destruct (Logger_after_frame (time.Now (clock world)).1
                (statusCode (after_stages req world).1) req
                (after_stages req world).2) as (_ & -> & _).
    pose proof (allow_frame (RemoteAddr req) (at_limiter world)) as (Hs & _).
    unfold after_stages. cbn zeta.
    destruct (allow (RemoteAddr req) (at_limiter world)) as [[] world2];
      cbn [fst snd] in *; [|rewrite Hs; apply extends_refl].
    case_bool_decide; cbn [snd]; [|rewrite Hs; apply extends_refl].
    change (taskStore world) with (taskStore (at_limiter world)).
    rewrite <- Hs. by apply GET_reads_only. }
  split; [by apply contents_extends|].
  split; [apply Hext|by eapply store_inv_extends].
Qed.

End pipeline_more.

Section pipeline_instances.
#[local] Existing Instance json.examples.

Definition list_done_tasks : Request :=
  mkRequest "GET" "/v1/tasks" [("done", "true")]
            {["X-API-KEY" := "dev-key-001"]} "10.0.0.7:4242" "" None.

Lemma GET_requests_keep_the_tasks_witness :
  store.contents (taskStore (main.serve list_done_tasks two_tasks_world).2)
  = store.contents (taskStore two_tasks_world)
  ∧ store.nextID (taskStore (main.serve list_done_tasks two_tasks_world).2)
    = store.nextID (taskStore two_tasks_world)
  ∧ store.store_inv (taskStore (main.serve list_done_tasks two_tasks_world).2).
Proof.
  apply GET_requests_keep_the_tasks; [reflexivity|apply two_tasks_inv].
Defined.

End pipeline_instances.
